(** * Scene management: reconciliation of a scene description against live widgets

    A shallow embedding of [src/lib/sceneManagement.ts] and the properties of
    its [render] entry point.

    Objects with identity (Key objects, widget instances, projectors,
    registries) are natural numbers naming the object.  The two kinds of
    container of the source are kept apart: an ES2015 [Map] is an
    insertion-ordered association list (its [forEach] order is observable), a
    [WeakMap] from objects is a [gmap] from object identities.  Weak maps are
    modelled without garbage collection: an entry stays until it is
    overwritten.

    Promises are modelled by their settlement: the registry answers each
    [getWidget] call with an outcome and a latency, and the callbacks of one
    reconciliation pass run in order of latency. *)

From Stdlib Require Import DecimalString DecimalNat.
From stdpp Require Import gmap strings list fin_maps sorting.

(** ** Scene descriptions *)

Definition Identifier := string.
Definition Element := nat.
Definition WidgetLike := nat.
Definition Projector := nat.

Record SceneWidget := { widget : Identifier }.

Record SceneProjector := { append : list SceneWidget }.

Inductive SceneElement :=
| IsProjector (p : SceneProjector)
| IsWidget (w : SceneWidget).

Definition isSceneProjector (element : SceneElement) : bool :=
  match element with
  | IsProjector _ => true
  | IsWidget _ => false
  end.

(** ** Keys and counters *)

(** [interface Key { value: string }]; keys are compared by reference, so a
    key carries the identity [ref] of the object next to its [value]. *)
Record Key := { ref : nat; value : string }.

Definition sameKey (a b : Key) : bool := Nat.eqb (ref a) (ref b).

Record Counter := { prefix : string; count : nat }.

Definition showNumber (n : nat) : string :=
  NilZero.string_of_uint (Nat.to_uint n).

Definition newCounter (prefix : string) : Counter :=
  {| prefix := prefix; count := 0 |}.

Definition incr (c : Counter) : string * Counter :=
  (prefix c +:+ "." +:+ showNumber (count c),
   {| prefix := prefix c; count := S (count c) |}).

Definition level (c : Counter) : Counter :=
  newCounter (prefix c +:+ "." +:+ showNumber (count c)).

(** ** ES2015 Map: insertion-ordered association list *)

Module JsMap.
Section JsMap.
Context {K V : Type} `{EqDecision K}.

Definition t := list (K * V).

Fixpoint get (m : t) (k : K) : option V :=
  match m with
  | [] => None
  | (k', v) :: m' => if decide (k' = k) then Some v else get m' k
  end.

Definition has (m : t) (k : K) : bool :=
  match get m k with Some _ => true | None => false end.

(** [set] keeps the position of an existing key and appends a new one. *)
Fixpoint set (m : t) (k : K) (v : V) : t :=
  match m with
  | [] => [(k, v)]
  | (k', v') :: m' =>
      if decide (k' = k) then (k, v) :: m' else (k', v') :: set m' k v
  end.

Fixpoint delete (m : t) (k : K) : t :=
  match m with
  | [] => []
  | (k', v') :: m' =>
      if decide (k' = k) then m' else (k', v') :: delete m' k
  end.

End JsMap.
Arguments t : clear implicits.
End JsMap.

(** ** Render state *)

(** The two closures the source installs in [handles], as data. *)
Inductive Handle :=
| ProjectorHandle (projectorKey : Key)
| WidgetHandle (widget : WidgetLike) (key : Key).

Record RenderState := {
  root : Element;
  children : gmap nat (list Key);
  handles : gmap nat Handle;
  projectorKeys : JsMap.t string Key;
  projectors : gmap nat Projector;
  widgetKeys : JsMap.t Identifier Key;
  widgets : gmap nat WidgetLike
}.

Definition newRenderState (root : Element) : RenderState :=
  {| root := root; children := ∅; handles := ∅; projectorKeys := [];
     projectors := ∅; widgetKeys := []; widgets := ∅ |}.

Definition set_children (f : gmap nat (list Key) → gmap nat (list Key))
    (s : RenderState) : RenderState :=
  {| root := root s; children := f (children s); handles := handles s;
     projectorKeys := projectorKeys s; projectors := projectors s;
     widgetKeys := widgetKeys s; widgets := widgets s |}.

Definition set_handles (f : gmap nat Handle → gmap nat Handle)
    (s : RenderState) : RenderState :=
  {| root := root s; children := children s; handles := f (handles s);
     projectorKeys := projectorKeys s; projectors := projectors s;
     widgetKeys := widgetKeys s; widgets := widgets s |}.

Definition set_projectorKeys (f : JsMap.t string Key → JsMap.t string Key)
    (s : RenderState) : RenderState :=
  {| root := root s; children := children s; handles := handles s;
     projectorKeys := f (projectorKeys s); projectors := projectors s;
     widgetKeys := widgetKeys s; widgets := widgets s |}.

Definition set_projectors (f : gmap nat Projector → gmap nat Projector)
    (s : RenderState) : RenderState :=
  {| root := root s; children := children s; handles := handles s;
     projectorKeys := projectorKeys s; projectors := f (projectors s);
     widgetKeys := widgetKeys s; widgets := widgets s |}.

Definition set_widgetKeys
    (f : JsMap.t Identifier Key → JsMap.t Identifier Key)
    (s : RenderState) : RenderState :=
  {| root := root s; children := children s; handles := handles s;
     projectorKeys := projectorKeys s; projectors := projectors s;
     widgetKeys := f (widgetKeys s); widgets := widgets s |}.

Definition set_widgets (f : gmap nat WidgetLike → gmap nat WidgetLike)
    (s : RenderState) : RenderState :=
  {| root := root s; children := children s; handles := handles s;
     projectorKeys := projectorKeys s; projectors := projectors s;
     widgetKeys := widgetKeys s; widgets := f (widgets s) |}.

(** ** The collaborators: registry, projectors, widget instances *)

(** A projector object of [dojo-widgets]: its mount root, its settable
    [children] property and the number of [attach()] calls it received. *)
Record ProjectorObject := {
  mountRoot : Element;
  childList : list WidgetLike;
  attachCalls : nat
}.

(** An instance on which [destroy()] can be called. *)
Inductive Instance :=
| WidgetInstance (w : WidgetLike)
| ProjectorInstance (p : Projector).

Global Instance Instance_eq_dec : EqDecision Instance.
Proof. solve_decision. Defined.

(** What the registry answers to one [getWidget] call: the promise settles
    after [latency], fulfilled with an instance or rejected. *)
Record Resolution := { latency : nat; outcome : option WidgetLike }.

(** A registry is an object with an identity and a [getWidget] operation.
    The answer may depend on the identifier and on how many [getWidget]
    calls were made before. *)
Record ReadOnlyRegistry := {
  registryRef : nat;
  getWidget : nat → Identifier → Resolution
}.

Inductive Error :=
| MalformedScene
| ResolutionFailed (identifier : Identifier)
| TypeError.

Inductive Settled (A : Type) :=
| Fulfilled (a : A)
| Rejected (e : Error).
Arguments Fulfilled {A} a.
Arguments Rejected {A} e.

(** Everything outside the render states that the code reads or changes. *)
Record Env := {
  nextRef : nat;                       (* identity of the next Key object *)
  projectorHeap : list ProjectorObject;  (* projector p is at index p *)
  destroyed : list Instance;           (* destroy() calls, oldest first *)
  resolved : list Identifier           (* getWidget calls, oldest first *)
}.

Definition set_nextRef (n : nat) (e : Env) : Env :=
  {| nextRef := n; projectorHeap := projectorHeap e;
     destroyed := destroyed e; resolved := resolved e |}.

Definition set_projectorHeap (h : list ProjectorObject) (e : Env) : Env :=
  {| nextRef := nextRef e; projectorHeap := h;
     destroyed := destroyed e; resolved := resolved e |}.

Definition set_destroyed (d : list Instance) (e : Env) : Env :=
  {| nextRef := nextRef e; projectorHeap := projectorHeap e;
     destroyed := d; resolved := resolved e |}.

Definition set_resolved (r : list Identifier) (e : Env) : Env :=
  {| nextRef := nextRef e; projectorHeap := projectorHeap e;
     destroyed := destroyed e; resolved := r |}.

Definition newEnv : Env :=
  {| nextRef := 0; projectorHeap := []; destroyed := []; resolved := [] |}.

(** The render state of one registry together with the environment: what
    the functions of the module read and write while they run. *)
Definition Mem : Type := RenderState * Env.

(** ** Handles *)

(** [destroy()] of the two handle closures (source lines 119-121 and
    157-160). *)
Definition destroyHandle (h : Handle) (m : Mem) : Mem :=
  let '(state, e) := m in
  match h with
  | ProjectorHandle projectorKey =>
      (set_projectorKeys (λ keys, JsMap.delete keys (value projectorKey)) state,
       e)
  | WidgetHandle widget key =>
      (set_widgetKeys (λ keys, JsMap.delete keys (value key)) state,
       set_destroyed (destroyed e ++ [WidgetInstance widget]) e)
  end.

(** ** updateProjectorChildren *)

Record Child := { key : Key; childWidget : WidgetLike }.

(** A [getWidget] promise whose [then] callback has not run yet. *)
Record Waiting := {
  waitingKey : Key;
  waitingFor : Identifier;
  resolution : Resolution
}.

(** One element of the array [append.map(...)] builds: a [Child], or a
    promise of one. *)
Inductive Slot :=
| Ready (c : Child)
| Promised (p : Waiting).

(** The body of the callback given to [append.map] (lines 143-164), up to
    and including the call of [registry.getWidget]. *)
Definition requestChild (registry : ReadOnlyRegistry) (value : Identifier)
    (m : Mem) : Slot * Mem :=
  let '(state, e) := m in
  let '(key, state, e) :=
    match JsMap.get (widgetKeys state) value with
    | Some key => (key, state, e)
    | None =>
        let key := {| ref := nextRef e; value := value |} in
        (key, set_widgetKeys (λ keys, JsMap.set keys value key) state,
         set_nextRef (S (nextRef e)) e)
    end in
  match widgets state !! ref key with
  | Some widget => (Ready {| key := key; childWidget := widget |}, (state, e))
  | None =>
      let r := getWidget registry (length (resolved e)) value in
      (Promised {| waitingKey := key; waitingFor := value; resolution := r |},
       (state, set_resolved (resolved e ++ [value]) e))
  end.

Fixpoint requestChildren (registry : ReadOnlyRegistry)
    (append : list SceneWidget) (m : Mem) : list Slot * Mem :=
  match append with
  | [] => ([], m)
  | {| widget := value |} :: rest =>
      let '(slot, m) := requestChild registry value m in
      let '(slots, m) := requestChildren registry rest m in
      (slot :: slots, m)
  end.

Definition promised (slots : list Slot) : list Waiting :=
  omap (λ slot, match slot with Promised p => Some p | Ready _ => None end)
       slots.

(** Promises settle by increasing latency; among equal latencies the one
    requested first settles first. *)
Fixpoint settlesBefore (p : Waiting) (queue : list Waiting) : list Waiting :=
  match queue with
  | [] => [p]
  | q :: queue' =>
      if latency (resolution p) <=? latency (resolution q)
      then p :: queue
      else q :: settlesBefore p queue'
  end.

Fixpoint completionOrder (waiting : list Waiting) : list Waiting :=
  match waiting with
  | [] => []
  | p :: rest => settlesBefore p (completionOrder rest)
  end.

(** The [then] callback of a fulfilled [getWidget] promise (lines 154-163). *)
Definition resolved_callback (key : Key) (widget : WidgetLike)
    (state : RenderState) : RenderState :=
  set_handles (insert (ref key) (WidgetHandle widget key))
    (set_widgets (insert (ref key) widget) state).

(** The promises settle one after the other.  [Promise.all] rejects at the
    first rejection; the promises behind it are still in flight then. *)
Fixpoint settle (order : list Waiting) (state : RenderState)
    : Settled unit * RenderState * list Waiting :=
  match order with
  | [] => (Fulfilled (), state, [])
  | p :: rest =>
      match outcome (resolution p) with
      | Some widget =>
          settle rest (resolved_callback (waitingKey p) widget state)
      | None => (Rejected (ResolutionFailed (waitingFor p)), state, rest)
      end
  end.

(** The value a slot contributes to the array [Promise.all] fulfils with. *)
Definition childOf (slot : Slot) : option Child :=
  match slot with
  | Ready c => Some c
  | Promised p =>
      widget ← outcome (resolution p);
      Some {| key := waitingKey p; childWidget := widget |}
  end.

Definition includes (keys : list Key) (key : Key) : bool :=
  existsb (sameKey key) keys.

(** The loop over [previousKeys] (lines 170-180).  Calling [destroy] on a
    missing handle throws. *)
Fixpoint destroyRemoved (newKeys previousKeys : list Key) (m : Mem)
    : Settled unit * Mem :=
  match previousKeys with
  | [] => (Fulfilled (), m)
  | key :: rest =>
      if includes newKeys key then destroyRemoved newKeys rest m
      else
        match handles (fst m) !! ref key with
        | Some h => destroyRemoved newKeys rest (destroyHandle h m)
        | None => (Rejected TypeError, m)
        end
  end.

Definition assignChildren (projector : Projector) (ws : list WidgetLike)
    (e : Env) : Env :=
  set_projectorHeap
    (alter (λ o, {| mountRoot := mountRoot o; childList := ws;
                    attachCalls := attachCalls o |})
           projector (projectorHeap e)) e.

(** The callback run when [Promise.all] fulfils (lines 167-183). *)
Definition childrenResolved (projectorKey : Key) (projector : Projector)
    (children' : list Child) (m : Mem) : Settled unit * Mem :=
  let newKeys := key <$> children' in
  match children (fst m) !! ref projectorKey with
  | None => (Rejected TypeError, m)
  | Some previousKeys =>
      match destroyRemoved newKeys previousKeys m with
      | (Rejected err, m) => (Rejected err, m)
      | (Fulfilled _, (state, e)) =>
          (Fulfilled (),
           (state, assignChildren projector (childWidget <$> children') e))
      end
  end.

(** [updateProjectorChildren]; the third component is the promises still
    in flight when the returned promise settles. *)
Definition updateProjectorChildren (registry : ReadOnlyRegistry)
    (counter : Counter) (projectorKey : Key) (projector : Projector)
    (append : list SceneWidget) (m : Mem)
    : Settled unit * Mem * list Waiting :=
  let '(slots, (state, e)) := requestChildren registry append m in
  match settle (completionOrder (promised slots)) state with
  | (Rejected err, state, inFlight) => (Rejected err, (state, e), inFlight)
  | (Fulfilled _, state, inFlight) =>
      let '(r, m) :=
        childrenResolved projectorKey projector (omap childOf slots)
                         (state, e) in
      (r, m, inFlight)
  end.

(** ** update *)

Definition createProjector (root : Element) (e : Env) : Projector * Env :=
  (length (projectorHeap e),
   set_projectorHeap
     (projectorHeap e ++
        [{| mountRoot := root; childList := []; attachCalls := 0 |}]) e).

Definition attach (projector : Projector) (e : Env) : Env :=
  set_projectorHeap
    (alter (λ o, {| mountRoot := mountRoot o; childList := childList o;
                    attachCalls := S (attachCalls o) |})
           projector (projectorHeap e)) e.

Definition update (registry : ReadOnlyRegistry) (counter : Counter)
    (tree : SceneProjector) (m : Mem) : Settled unit * Mem * list Waiting :=
  let '(state, e) := m in
  let '(projectorId, counter) := incr counter in
  let '(projectorKey, state, e) :=
    match JsMap.get (projectorKeys state) projectorId with
    | Some projectorKey => (projectorKey, state, e)
    | None =>
        let projectorKey := {| ref := nextRef e; value := projectorId |} in
        (projectorKey,
         set_projectorKeys (λ keys, JsMap.set keys projectorId projectorKey)
                           state,
         set_nextRef (S (nextRef e)) e)
    end in
  let '(projector, state, e) :=
    match projectors state !! ref projectorKey with
    | Some projector => (projector, state, e)
    | None =>
        let '(projector, e) := createProjector (root state) e in
        (projector,
         set_handles (insert (ref projectorKey) (ProjectorHandle projectorKey))
           (set_children (insert (ref projectorKey) [])
              (set_projectors (insert (ref projectorKey) projector) state)),
         e)
    end in
  match updateProjectorChildren registry (level counter) projectorKey
          projector (append tree) (state, e) with
  | (Rejected err, m, inFlight) => (Rejected err, m, inFlight)
  | (Fulfilled _, (state, e), inFlight) =>
      (Fulfilled (), (state, attach projector e), inFlight)
  end.

(** ** render *)

(** The module-level weak map [renderState], the environment, and the
    [getWidget] promises of failed renders that have not settled yet, each
    with the registry whose state its callback writes. *)
Record World := {
  renderState : gmap nat RenderState;
  env : Env;
  inFlight : list (nat * Waiting)
}.

Definition newWorld : World :=
  {| renderState := ∅; env := newEnv; inFlight := [] |}.

(** The handle [render] resolves to.  Its [destroy] closes over the state
    object, which is the one registered for the registry. *)
Record SceneHandle := { stateOf : nat }.

Definition render (registry : ReadOnlyRegistry) (root : Element)
    (tree : SceneElement) (w : World) : Settled SceneHandle * World :=
  match tree with
  | IsWidget _ => (Rejected MalformedScene, w)
  | IsProjector tree =>
      let state :=
        default (newRenderState root)
                (renderState w !! registryRef registry) in
      match update registry (newCounter "") tree (state, env w) with
      | (r, (state, e), waiting) =>
          (match r with
           | Fulfilled _ => Fulfilled {| stateOf := registryRef registry |}
           | Rejected err => Rejected err
           end,
           {| renderState := <[registryRef registry := state]> (renderState w);
              env := e;
              inFlight :=
                inFlight w ++ ((λ p, (registryRef registry, p)) <$> waiting) |})
      end
  end.

(** [forEach] over one of the two key maps, with the callback of the
    returned handle (lines 86-95).  [entries] is what is left to visit; an
    entry deleted before its turn is skipped. *)
Fixpoint destroyEach (keysOf : RenderState → JsMap.t string Key)
    (entries : list (string * Key)) (m : Mem) : Mem :=
  match entries with
  | [] => m
  | (k, key) :: rest =>
      if JsMap.has (keysOf (fst m)) k then
        match handles (fst m) !! ref key with
        | Some h => destroyEach keysOf rest (destroyHandle h m)
        | None => destroyEach keysOf rest m
        end
      else destroyEach keysOf rest m
  end.

Definition destroyScene (m : Mem) : Mem :=
  let m := destroyEach projectorKeys (projectorKeys (fst m)) m in
  destroyEach widgetKeys (widgetKeys (fst m)) m.

Definition destroy (h : SceneHandle) (w : World) : World :=
  match renderState w !! stateOf h with
  | None => w
  | Some state =>
      let '(state, e) := destroyScene (state, env w) in
      {| renderState := <[stateOf h := state]> (renderState w);
         env := e; inFlight := inFlight w |}
  end.

(** A promise left in flight by a failed render settles: its callback runs
    if it is fulfilled.

    A render is one step of this model: the promises it starts settle, up
    to the one that settles its result, before anything else runs, and a
    promise left in flight settles in a step of its own, between two calls.
    In the source the callback of such a promise can also run while a later
    render is pending, and callbacks of promises that completed together
    with the failing one have run when the caller sees the rejection.  The
    properties that depend on what is stored under a key meanwhile are
    therefore stated for worlds with nothing in flight, where no such
    callback exists, and for every number of settle steps after a rejected
    render. *)
Definition settleInFlight (w : World) : World :=
  match inFlight w with
  | [] => w
  | (registry, p) :: rest =>
      {| renderState :=
           match outcome (resolution p) with
           | Some widget =>
               alter (resolved_callback (waitingKey p) widget) registry
                     (renderState w)
           | None => renderState w
           end;
         env := env w; inFlight := rest |}
  end.

(** All the promises in flight settle, the oldest first. *)
Fixpoint settleN (n : nat) (w : World) : World :=
  match n with
  | 0 => w
  | S n => settleN n (settleInFlight w)
  end.

Definition settleAll (w : World) : World := settleN (length (inFlight w)) w.

(** ** Reachable worlds *)

(** The worlds the module can be in: it starts with no render state, and
    callers render scenes, destroy the handles they got, and the registry
    settles promises that were left in flight. *)
Inductive reachable : World → Prop :=
| reachable_new : reachable newWorld
| reachable_render registry root tree w :
    reachable w → reachable (render registry root tree w).2
| reachable_destroy h w :
    reachable w → reachable (destroy h w)
| reachable_settle w :
    reachable w → reachable (settleInFlight w).

(** ** Observations *)

(** The state registered for a registry (a fresh one before its first
    render, as [render] would make it). *)
Definition stateFor (registry : ReadOnlyRegistry) (w : World)
    : option RenderState :=
  renderState w !! registryRef registry.

(** The instance cached for an identifier: the widget stored under the key
    that [widgetKeys] holds for it. *)
Definition cachedWidget (state : RenderState) (value : Identifier)
    : option WidgetLike :=
  key ← JsMap.get (widgetKeys state) value;
  widgets state !! ref key.

(** The projector of the scene of a registry and its child collection. *)
Definition sceneProjector (state : RenderState) : option Projector :=
  projectorKey ← JsMap.get (projectorKeys state) (incr (newCounter "")).1;
  projectors state !! ref projectorKey.

Definition sceneChildren (registry : ReadOnlyRegistry) (w : World)
    : option (list WidgetLike) :=
  state ← stateFor registry w;
  projector ← sceneProjector state;
  childList <$> projectorHeap (env w) !! projector.

(** The [getWidget] calls made between two environments. *)
Definition callsSince (before after : Env) : list Identifier :=
  drop (length (resolved before)) (resolved after).

Definition destroyedSince (before after : Env) : list Instance :=
  drop (length (destroyed before)) (destroyed after).

Definition scene (identifiers : list Identifier) : SceneElement :=
  IsProjector {| append := (λ v, {| widget := v |}) <$> identifiers |}.

(** * Supporting lemmas *)

(** ** Facts about [JsMap] *)

Section JsMapFacts.
Context {K V : Type} `{EqDecision K}.
Implicit Types (m : JsMap.t K V) (k : K) (v : V).

Lemma JsMap_get_Some_elem m k v : JsMap.get m k = Some v → (k, v) ∈ m.
Proof.
  induction m as [|[k' v'] m IH]; simpl; [done|].
  case_decide as Hk; [intros [= ->]; rewrite Hk; left | intros ?; right; auto].
Qed.

Lemma JsMap_get_None_keys m k : JsMap.get m k = None ↔ k ∉ m.*1.
Proof.
  induction m as [|[k' v'] m IH]; simpl.
  - split; [intros _; apply not_elem_of_nil | done].
  - rewrite not_elem_of_cons. case_decide; subst.
    + split; [done | intros [? _]; done].
    + rewrite IH. split; [by intros ?; split; [congruence|] | by intros [_ ?]].
Qed.

Lemma JsMap_elem_get m k v :
  NoDup m.*1 → (k, v) ∈ m → JsMap.get m k = Some v.
Proof.
  induction m as [|[k' v'] m IH]; simpl; intros Hnd Hin.
  - by apply elem_of_nil in Hin.
  - apply NoDup_cons in Hnd as [Hk Hnd].
    apply elem_of_cons in Hin as [[= <- <-]|Hin].
    + by rewrite decide_True.
    + case_decide; subst; [|by apply IH].
      exfalso. apply Hk. apply list_elem_of_fmap. by exists (k, v).
Qed.

Lemma JsMap_set_fresh m k v :
  JsMap.get m k = None → JsMap.set m k v = m ++ [(k, v)].
Proof.
  induction m as [|[k' v'] m IH]; simpl; [done|].
  case_decide; [done|]. intros ?. by rewrite IH.
Qed.

Lemma JsMap_get_app m m' k :
  JsMap.get (m ++ m') k =
    match JsMap.get m k with Some v => Some v | None => JsMap.get m' k end.
Proof.
  induction m as [|[k' v'] m IH]; simpl; [done|]. by case_decide.
Qed.

Lemma JsMap_get_set_eq m k v : JsMap.get (JsMap.set m k v) k = Some v.
Proof.
  induction m as [|[k' v'] m IH]; simpl.
  - by rewrite decide_True.
  - case_decide; simpl; [by rewrite decide_True | by rewrite decide_False].
Qed.

Lemma JsMap_delete_keys_sublist m k :
  sublist (JsMap.delete m k) m.
Proof.
  induction m as [|[k0 v0] m IH]; simpl; [done|].
  case_decide; [by apply sublist_cons | by apply sublist_skip].
Qed.

Lemma JsMap_get_delete_eq m k :
  NoDup m.*1 → JsMap.get (JsMap.delete m k) k = None.
Proof.
  induction m as [|[k0 v0] m IH]; simpl; [done|].
  intros [Hk Hnd]%NoDup_cons. case_decide as Heq.
  - rewrite <-Heq. by apply JsMap_get_None_keys.
  - simpl. rewrite decide_False by done. by apply IH.
Qed.

Lemma JsMap_get_delete_ne m k k' :
  k ≠ k' → JsMap.get (JsMap.delete m k) k' = JsMap.get m k'.
Proof.
  intros Hne. induction m as [|[k0 v0] m IH]; simpl; [done|].
  case_decide; subst; simpl.
  - by rewrite decide_False.
  - by rewrite IH.
Qed.
End JsMapFacts.

(** ** Invariants of the render state *)

(** What every function of the module maintains about one render state,
    relative to the environment. *)
Record stateInv (e : Env) (s : RenderState) : Prop := {
  inv_children : ∀ r l, children s !! r = Some l → l = [];
  inv_projectors : ∀ r p, projectors s !! r = Some p →
    r < nextRef e ∧ p < length (projectorHeap e) ∧ children s !! r = Some [];
  inv_projectorKeys : ∀ i k, (i, k) ∈ projectorKeys s →
    value k = i ∧ is_Some (projectors s !! ref k) ∧
    handles s !! ref k = Some (ProjectorHandle k);
  inv_projectorKeys_nodup : NoDup (projectorKeys s).*1;
  inv_widgetKeys : ∀ v k, (v, k) ∈ widgetKeys s →
    value k = v ∧ ref k < nextRef e ∧ projectors s !! ref k = None;
  inv_widgetKeys_nodup : NoDup (widgetKeys s).*1;
  inv_widgetKeys_inj : NoDup (ref <$> (widgetKeys s).*2);
  inv_widgets : ∀ r, is_Some (widgets s !! r) → r < nextRef e;
  inv_handles : ∀ r, is_Some (handles s !! r) → r < nextRef e;
  inv_cached : ∀ v k, (v, k) ∈ widgetKeys s →
    match widgets s !! ref k with
    | Some x => handles s !! ref k = Some (WidgetHandle x k)
    | None => handles s !! ref k = None
    end
}.

(** A key whose [getWidget] callback may still run on the state. *)
Definition keyOk (e : Env) (s : RenderState) (k : Key) : Prop :=
  ref k < nextRef e ∧ projectors s !! ref k = None ∧
  ∀ v k', (v, k') ∈ widgetKeys s → ref k' = ref k → k' = k.

Record worldInv (w : World) : Prop := {
  inv_states : ∀ r s, renderState w !! r = Some s → stateInv (env w) s;
  inv_inFlight : ∀ r p, (r, p) ∈ inFlight w →
    ∃ s, renderState w !! r = Some s ∧ keyOk (env w) s (waitingKey p)
}.

(** The environment only grows: references and projectors stay allocated. *)
Definition envLe (e e' : Env) : Prop :=
  nextRef e ≤ nextRef e' ∧
  length (projectorHeap e) ≤ length (projectorHeap e').

Lemma envLe_refl e : envLe e e.
Proof. by split. Qed.

Lemma envLe_trans e1 e2 e3 : envLe e1 e2 → envLe e2 e3 → envLe e1 e3.
Proof. unfold envLe. lia. Qed.

Lemma stateInv_mono e e' s : stateInv e s → envLe e e' → stateInv e' s.
Proof.
  intros [] [Hr Hp]. split; try done.
  - intros r p Hs. destruct (inv_projectors0 r p Hs) as (? & ? & ?).
    split_and!; [lia | lia | done].
  - intros v k Hk. destruct (inv_widgetKeys0 v k Hk) as (? & ? & ?).
    split_and!; [done | lia | done].
  - intros r Hs. specialize (inv_widgets0 r Hs). lia.
  - intros r Hs. specialize (inv_handles0 r Hs). lia.
Qed.

Lemma keyOk_mono e e' s k : keyOk e s k → envLe e e' → keyOk e' s k.
Proof. intros (? & ? & ?) [? ?]. split_and!; [lia | done | done]. Qed.

Lemma newRenderState_inv e root : stateInv e (newRenderState root).
Proof.
  split; simpl; try (intros ? ? Hl; by rewrite lookup_empty in Hl);
    try (intros ? ? Hl; by apply elem_of_nil in Hl);
    try (intros ? [? Hl]; by rewrite lookup_empty in Hl);
    apply NoDup_nil_2.
Qed.

(** A live widget key is the only one with its reference. *)
Lemma stateInv_keyOk e s v k :
  stateInv e s → (v, k) ∈ widgetKeys s → keyOk e s k.
Proof.
  intros Hinv Hk. destruct (inv_widgetKeys _ _ Hinv v k Hk) as (Hv & Hr & Hp).
  split_and!; [done | done |].
  intros v' k' Hk' Href.
  pose proof (inv_widgetKeys_inj _ _ Hinv) as Hnd.
  apply list_elem_of_lookup in Hk as [i Hi], Hk' as [j Hj].
  assert (i = j) as ->; [|congruence].
  eapply NoDup_lookup; [exact Hnd | |].
  - rewrite !list_lookup_fmap, Hi. simpl. reflexivity.
  - rewrite !list_lookup_fmap, Hj. simpl. by rewrite Href.
Qed.

(** ** The request phase: [append.map] *)

(** What the request phase leaves alone, and how it extends [widgetKeys]. *)
Record requestFrame (s : RenderState) (e : Env) (s' : RenderState) (e' : Env)
    : Prop := {
  rf_root : root s' = root s;
  rf_children : children s' = children s;
  rf_handles : handles s' = handles s;
  rf_projectorKeys : projectorKeys s' = projectorKeys s;
  rf_projectors : projectors s' = projectors s;
  rf_widgets : widgets s' = widgets s;
  rf_heap : projectorHeap e' = projectorHeap e;
  rf_destroyed : destroyed e' = destroyed e;
  rf_keys : ∃ new, widgetKeys s' = widgetKeys s ++ new;
  rf_calls : ∃ new, resolved e' = resolved e ++ new;
  rf_env : envLe e e';
  rf_keyOk : ∀ k, keyOk e s k → keyOk e' s' k;
  rf_fresh : ∀ v k, (v, k) ∈ widgetKeys s' →
    (v, k) ∈ widgetKeys s ∨ nextRef e ≤ ref k
}.

Lemma requestFrame_refl s e : requestFrame s e s e.
Proof.
  split; try done; first [by left | exists []; by rewrite app_nil_r].
Qed.

Lemma requestFrame_trans s1 e1 s2 e2 s3 e3 :
  requestFrame s1 e1 s2 e2 → requestFrame s2 e2 s3 e3 →
  requestFrame s1 e1 s3 e3.
Proof.
  intros [] []. split; try congruence.
  - destruct rf_keys0 as [n1 H1], rf_keys1 as [n2 H2].
    exists (n1 ++ n2). by rewrite H2, H1, app_assoc.
  - destruct rf_calls0 as [n1 H1], rf_calls1 as [n2 H2].
    exists (n1 ++ n2). by rewrite H2, H1, app_assoc.
  - by eapply envLe_trans.
  - auto.
  - intros v k Hk. destruct (rf_fresh1 v k Hk) as [Hk'|?].
    + by apply rf_fresh0.
    + right. destruct rf_env0. lia.
Qed.

(** Allocating the key of an identifier that has none. *)
Lemma stateInv_newWidgetKey e s v :
  stateInv e s → JsMap.get (widgetKeys s) v = None →
  let k := {| ref := nextRef e; value := v |} in
  let s' := set_widgetKeys (λ keys, JsMap.set keys v k) s in
  let e' := set_nextRef (S (nextRef e)) e in
  stateInv e' s' ∧ requestFrame s e s' e' ∧
  widgets s' !! ref k = None ∧ handles s' !! ref k = None.
Proof.
  intros Hinv Hget k s' e'.
  assert (widgetKeys s' = widgetKeys s ++ [(v, k)]) as Hkeys
    by (simpl; by apply JsMap_set_fresh).
  assert (envLe e e') as Hle by (split; simpl; lia).
  assert (widgets s !! nextRef e = None) as Hw.
  { destruct (widgets s !! nextRef e) eqn:E; [|done].
    pose proof (inv_widgets _ _ Hinv (nextRef e) (mk_is_Some _ _ E)). lia. }
  assert (handles s !! nextRef e = None) as Hh.
  { destruct (handles s !! nextRef e) eqn:E; [|done].
    pose proof (inv_handles _ _ Hinv (nextRef e) (mk_is_Some _ _ E)). lia. }
  assert (projectors s !! nextRef e = None) as Hp.
  { destruct (projectors s !! nextRef e) eqn:E; [|done].
    destruct (inv_projectors _ _ Hinv _ _ E) as (? & _). lia. }
  assert (∀ v' k', (v', k') ∈ widgetKeys s → ref k' < nextRef e) as Hold.
  { intros v' k' Hk'. by destruct (inv_widgetKeys _ _ Hinv _ _ Hk') as (_&?&_). }
  split_and!; [| |done|done].
  - pose proof (stateInv_mono _ _ _ Hinv Hle) as [].
    split; try done.
    + intros v' k'. rewrite Hkeys, elem_of_app, list_elem_of_singleton.
      intros [?|[= -> ->]]; [by apply inv_widgetKeys0|].
      split_and!; simpl; [done | lia | done].
    + rewrite Hkeys, fmap_app. apply NoDup_app. split_and!; [done| |].
      * intros x Hx ->%list_elem_of_singleton.
        by apply JsMap_get_None_keys in Hget.
      * apply NoDup_singleton.
    + rewrite Hkeys, !fmap_app. apply NoDup_app. split_and!; [done| |].
      * intros x Hx ->%list_elem_of_singleton. simpl in Hx.
        apply list_elem_of_fmap in Hx as (k' & Hr & Hk').
        apply list_elem_of_fmap in Hk' as ([v' k''] & -> & Hk').
        apply Hold in Hk'. simpl in Hr. lia.
      * apply NoDup_singleton.
    + intros v' k'. rewrite Hkeys, elem_of_app, list_elem_of_singleton.
      intros [?|[= -> ->]]; [by eapply inv_cached0|].
      simpl. by rewrite Hw, Hh.
  - split; try done.
    + by exists [(v, k)].
    + exists []. by rewrite app_nil_r.
    + intros k0 (Hr & Hpk & Huniq). split_and!; [simpl; lia | done |].
      intros v' k'. rewrite Hkeys, elem_of_app, list_elem_of_singleton.
      intros [?|[= -> ->]]; [by eauto|]. simpl. lia.
    + intros v' k'. rewrite Hkeys, elem_of_app, list_elem_of_singleton.
      intros [?|[= -> ->]]; [by left | by right].
Qed.

(** The slot made for a requested identifier: it carries the key that
    [widgetKeys] holds for the identifier, and is ready exactly when that key
    had a widget before the pass. *)
Definition slotFor (registry : ReadOnlyRegistry) (s s' : RenderState)
    (e e' : Env) (v : Identifier) (slot : Slot) : Prop :=
  ∃ k, (v, k) ∈ widgetKeys s' ∧
    match slot with
    | Ready c => key c = k ∧ widgets s !! ref k = Some (childWidget c)
    | Promised p =>
        waitingKey p = k ∧ waitingFor p = v ∧ widgets s !! ref k = None ∧
        ∃ n, length (resolved e) ≤ n ∧ resolved e' !! n = Some v ∧
             resolution p = getWidget registry n v
    end.

Lemma requestFrame_call s e l v :
  l = resolved e → requestFrame s e s (set_resolved (l ++ [v]) e).
Proof.
  intros ->.
  split; try done;
    first [by left | by exists [v] | by (exists []; rewrite app_nil_r)].
Qed.

Lemma stateInv_call e s l : stateInv e s → stateInv (set_resolved l e) s.
Proof. by intros []. Qed.

Lemma requestChild_spec registry v s e slot s' e' :
  stateInv e s →
  requestChild registry v (s, e) = (slot, (s', e')) →
  stateInv e' s' ∧ requestFrame s e s' e' ∧
  slotFor registry s s' e e' v slot ∧
  resolved e' = resolved e ++
    match slot with Promised _ => [v] | Ready _ => [] end.
Proof.
  intros Hinv. unfold requestChild.
  destruct (JsMap.get (widgetKeys s) v) as [k|] eqn:Hget.
  - pose proof (JsMap_get_Some_elem _ _ _ Hget) as Hk.
    destruct (widgets s !! ref k) as [x|] eqn:Hw; intros [= <- <- <-].
    + split_and!; [done | apply requestFrame_refl | | by rewrite app_nil_r].
      exists k. by split.
    + split_and!;
        [by apply stateInv_call | by apply requestFrame_call | | done].
      exists k. split; [done|]. split_and!; try done.
      exists (length (resolved e)). split_and!; [done | | done].
      simpl. by rewrite lookup_app_r, Nat.sub_diag.
  - destruct (stateInv_newWidgetKey e s v Hinv Hget) as (Hinv' & Hf & Hw & Hh).
    simpl in Hw. simpl. rewrite Hw. intros [= <- <- <-].
    split_and!; [by apply stateInv_call | | | done].
    + eapply requestFrame_trans; [exact Hf|]. by apply requestFrame_call.
    + eexists. split.
      * apply JsMap_get_Some_elem. simpl. apply JsMap_get_set_eq.
      * split_and!; try done.
        exists (length (resolved e)). split_and!; [done | | done].
        simpl. by rewrite lookup_app_r, Nat.sub_diag.
Qed.

Lemma slotFor_later registry s s1 s' e e1 e' v slot :
  requestFrame s1 e1 s' e' →
  slotFor registry s s1 e e1 v slot → slotFor registry s s' e e' v slot.
Proof.
  intros Hf (k & Hk & Hslot). exists k. split.
  - destruct (rf_keys _ _ _ _ Hf) as [new ->]. apply elem_of_app. by left.
  - destruct slot as [c|p]; [done|].
    destruct Hslot as (? & ? & ? & n & ? & Hn & ?).
    split_and!; try done. exists n. split_and!; try done.
    destruct (rf_calls _ _ _ _ Hf) as [new ->].
    by apply lookup_app_l_Some.
Qed.

Lemma slotFor_earlier registry s s1 s' e e1 e' v slot :
  requestFrame s e s1 e1 →
  slotFor registry s1 s' e1 e' v slot → slotFor registry s s' e e' v slot.
Proof.
  intros Hf (k & Hk & Hslot). exists k. split; [done|].
  rewrite (rf_widgets _ _ _ _ Hf) in Hslot.
  destruct slot as [c|p]; [done|].
  destruct Hslot as (? & ? & ? & n & Hle & Hn & ?).
  split_and!; try done. exists n. split_and!; try done.
  destruct (rf_calls _ _ _ _ Hf) as [new Hnew].
  rewrite Hnew, length_app in Hle. lia.
Qed.

Lemma requestChildren_spec registry append s e slots s' e' :
  stateInv e s →
  requestChildren registry append (s, e) = (slots, (s', e')) →
  stateInv e' s' ∧ requestFrame s e s' e' ∧
  Forall2 (λ w, slotFor registry s s' e e' (widget w)) append slots ∧
  resolved e' = resolved e ++ (waitingFor <$> promised slots).
Proof.
  revert s e slots s' e'.
  induction append as [|[v] append IH]; intros s e slots s' e' Hinv;
    cbn [requestChildren].
  - intros [= <- <- <-].
    split_and!; [done | apply requestFrame_refl | constructor |].
    by rewrite app_nil_r.
  - destruct (requestChild registry v (s, e)) as [slot [s1 e1]] eqn:Hhead.
    destruct (requestChildren registry append (s1, e1))
      as [slots' [s2 e2]] eqn:Htail.
    intros [= <- <- <-].
    destruct (requestChild_spec _ _ _ _ _ _ _ Hinv Hhead)
      as (Hinv1 & Hf1 & Hslot & Hcalls1).
    destruct (IH _ _ _ _ _ Hinv1 Htail) as (Hinv2 & Hf2 & Hslots & Hcalls2).
    split_and!; [done | by eapply requestFrame_trans | |].
    + constructor; [by eapply slotFor_later|].
      eapply Forall2_impl; [exact Hslots|].
      intros w slot'. by apply slotFor_earlier.
    + rewrite Hcalls2, Hcalls1, <-app_assoc. f_equal.
      destruct slot as [c|p]; [done|].
      by destruct Hslot as (k & _ & _ & <- & _).
Qed.

(** ** The settle phase *)

Definition succeeded (p : Waiting) : Prop := is_Some (outcome (resolution p)).

(** What the settlement of one promise does to the state. *)
Definition runCallback (s : RenderState) (p : Waiting) : RenderState :=
  match outcome (resolution p) with
  | Some x => resolved_callback (waitingKey p) x s
  | None => s
  end.

Lemma settlesBefore_perm p queue : settlesBefore p queue ≡ₚ p :: queue.
Proof.
  induction queue as [|q queue IH]; simpl; [done|].
  destruct (_ <=? _); [done|]. rewrite IH. apply Permutation_swap.
Qed.

(** Every promise of the pass settles, each once. *)
Lemma completionOrder_perm waiting : completionOrder waiting ≡ₚ waiting.
Proof.
  induction waiting as [|p waiting IH]; simpl; [done|].
  by rewrite settlesBefore_perm, IH.
Qed.

Lemma settle_inv order s :
  match settle order s with
  | (Fulfilled _, s', rest) =>
      Forall succeeded order ∧ s' = foldl runCallback s order ∧ rest = []
  | (Rejected err, s', rest) =>
      ∃ before p, order = before ++ p :: rest ∧ Forall succeeded before ∧
        outcome (resolution p) = None ∧
        err = ResolutionFailed (waitingFor p) ∧
        s' = foldl runCallback s before
  end.
Proof.
  revert s. induction order as [|p order IH]; intros s; simpl; [done|].
  destruct (outcome (resolution p)) as [x|] eqn:Hp.
  - assert (runCallback s p = resolved_callback (waitingKey p) x s) as Hrun
      by (unfold runCallback; by rewrite Hp).
    assert (succeeded p) as Hsucc by (unfold succeeded; by rewrite Hp).
    specialize (IH (resolved_callback (waitingKey p) x s)).
    destruct (settle order _) as [[[[]|err] s'] rest].
    + destruct IH as (Hall & -> & ->). rewrite Hrun.
      split_and!; [by constructor|done|done].
    + destruct IH as (before & q & -> & Hall & Hq & -> & ->).
      exists (p :: before), q. simpl. rewrite Hrun.
      split_and!; try done. by constructor.
  - exists [], p. by split_and!.
Qed.

Lemma runCallbacks_frame ps s :
  let s' := foldl runCallback s ps in
  root s' = root s ∧ children s' = children s ∧
  projectorKeys s' = projectorKeys s ∧ projectors s' = projectors s ∧
  widgetKeys s' = widgetKeys s.
Proof.
  revert s. induction ps as [|p ps IH]; intros s; simpl; [done|].
  destruct (IH (runCallback s p)) as (-> & -> & -> & -> & ->).
  unfold runCallback. by destruct (outcome (resolution p)).
Qed.

Lemma resolved_callback_inv e s k x :
  stateInv e s → keyOk e s k → stateInv e (resolved_callback k x s).
Proof.
  intros [] (Hr & Hp & Huniq). split; simpl; try done.
  - intros i k' Hk'. destruct (inv_projectorKeys0 i k' Hk') as (? & [p Hs] & ?).
    split_and!; [done | by exists p |].
    rewrite lookup_insert_ne; [done|]. intros Heq. rewrite Heq in Hp. congruence.
  - intros r [y Hy]. destruct (decide (ref k = r)) as [<-|Hne]; [done|].
    rewrite lookup_insert_ne in Hy by done. apply inv_widgets0. by exists y.
  - intros r [y Hy]. destruct (decide (ref k = r)) as [<-|Hne]; [done|].
    rewrite lookup_insert_ne in Hy by done. apply inv_handles0. by exists y.
  - intros v k' Hk'. destruct (decide (ref k = ref k')) as [Heq|Hne].
    + rewrite (Huniq v k' Hk') by done. by rewrite !lookup_insert_eq.
    + rewrite !lookup_insert_ne by done. by eapply inv_cached0.
Qed.

Lemma resolved_callback_keyOk e s k x k' :
  keyOk e s k' → keyOk e (resolved_callback k x s) k'.
Proof. done. Qed.

Lemma runCallbacks_inv e ps s :
  stateInv e s → Forall (λ p, keyOk e s (waitingKey p)) ps →
  stateInv e (foldl runCallback s ps).
Proof.
  revert s. induction ps as [|p ps IH]; intros s Hinv Hok; simpl; [done|].
  apply Forall_cons in Hok as [Hp Hps].
  unfold runCallback at 2. destruct (outcome (resolution p)); [|by apply IH].
  apply IH; [by apply resolved_callback_inv | done].
Qed.

Lemma runCallbacks_snoc ps p s :
  foldl runCallback s (ps ++ [p]) = runCallback (foldl runCallback s ps) p.
Proof. by rewrite foldl_app. Qed.

(** A reference no fulfilled promise writes keeps its entries. *)
Lemma runCallbacks_other ps s r :
  (∀ p, p ∈ ps → succeeded p → ref (waitingKey p) ≠ r) →
  widgets (foldl runCallback s ps) !! r = widgets s !! r ∧
  handles (foldl runCallback s ps) !! r = handles s !! r.
Proof.
  induction ps as [|p ps IH] using rev_ind; intros Hne; [done|].
  rewrite runCallbacks_snoc.
  destruct IH as [IHw IHh].
  { intros q Hq. apply Hne. apply elem_of_app. by left. }
  assert (p ∈ ps ++ [p]) as Hin
    by (apply elem_of_app; right; by apply list_elem_of_singleton).
  unfold runCallback. destruct (outcome (resolution p)) as [x|] eqn:Hp; [|done].
  assert (ref (waitingKey p) ≠ r) as Hr
    by (apply Hne; [done | by unfold succeeded; rewrite Hp]).
  simpl. by rewrite !lookup_insert_ne.
Qed.

(** A reference some fulfilled promise writes holds the instance and the
    handle of one of them. *)
Lemma runCallbacks_written ps s p :
  p ∈ ps → succeeded p →
  ∃ q x, q ∈ ps ∧ ref (waitingKey q) = ref (waitingKey p) ∧
    outcome (resolution q) = Some x ∧
    widgets (foldl runCallback s ps) !! ref (waitingKey p) = Some x ∧
    handles (foldl runCallback s ps) !! ref (waitingKey p)
      = Some (WidgetHandle x (waitingKey q)).
Proof.
  induction ps as [|p' ps IH] using rev_ind; intros Hin Hp.
  { by apply elem_of_nil in Hin. }
  rewrite runCallbacks_snoc.
  assert (p' ∈ ps ++ [p']) as Hlast
    by (apply elem_of_app; right; by apply list_elem_of_singleton).
  unfold runCallback at 1 3.
  destruct (outcome (resolution p')) as [x'|] eqn:Hp'.
  - destruct (decide (ref (waitingKey p') = ref (waitingKey p))) as [Heq|Hne].
    + exists p', x'. simpl. rewrite <-Heq, !lookup_insert_eq. by split_and!.
    + apply elem_of_app in Hin as [Hin|Hin%list_elem_of_singleton];
        [|subst; done].
      destruct (IH Hin Hp) as (q & x & Hq & Href & Hx & Hw & Hh).
      exists q, x. simpl. rewrite !lookup_insert_ne by done.
      split_and!; try done. apply elem_of_app. by left.
  - apply elem_of_app in Hin as [Hin|Hin%list_elem_of_singleton].
    + destruct (IH Hin Hp) as (q & x & Hq & Href & Hx & Hw & Hh).
      exists q, x. split_and!; try done. apply elem_of_app. by left.
    + subst. destruct Hp as [? Hp]. congruence.
Qed.

(** ** The commit phase and [update] *)

(** With no previous keys the loop does nothing, and the children are
    assigned. *)
Lemma childrenResolved_empty projectorKey projector cs s e :
  children s !! ref projectorKey = Some [] →
  childrenResolved projectorKey projector cs (s, e) =
    (Fulfilled (),
     (s, assignChildren projector (childWidget <$> cs) e)).
Proof. intros H. unfold childrenResolved. simpl. by rewrite H. Qed.

(** The first half of [update]: the key and the projector of the scene are
    looked up, or made. *)
Definition setupProjector (counter : Counter) (m : Mem)
    : Key * Projector * Mem :=
  let '(state, e) := m in
  let '(projectorId, counter) := incr counter in
  let '(projectorKey, state, e) :=
    match JsMap.get (projectorKeys state) projectorId with
    | Some projectorKey => (projectorKey, state, e)
    | None =>
        let projectorKey := {| ref := nextRef e; value := projectorId |} in
        (projectorKey,
         set_projectorKeys (λ keys, JsMap.set keys projectorId projectorKey)
                           state,
         set_nextRef (S (nextRef e)) e)
    end in
  match projectors state !! ref projectorKey with
  | Some projector => (projectorKey, projector, (state, e))
  | None =>
      let '(projector, e) := createProjector (root state) e in
      (projectorKey, projector,
       (set_handles (insert (ref projectorKey) (ProjectorHandle projectorKey))
          (set_children (insert (ref projectorKey) [])
             (set_projectors (insert (ref projectorKey) projector) state)),
        e))
  end.

Lemma update_setup registry counter tree m :
  update registry counter tree m =
    let '(projectorKey, projector, m0) := setupProjector counter m in
    match updateProjectorChildren registry (level (incr counter).2)
            projectorKey projector (append tree) m0 with
    | (Rejected err, m, waiting) => (Rejected err, m, waiting)
    | (Fulfilled _, (state, e), waiting) =>
        (Fulfilled (), (state, attach projector e), waiting)
    end.
Proof.
  destruct m as [s e]. unfold update, setupProjector. simpl.
  destruct (JsMap.get (projectorKeys s) _) as [pk|]; simpl.
  - by destruct (projectors s !! ref pk).
  - by destruct (projectors s !! nextRef e).
Qed.

Record setupFrame (s : RenderState) (e : Env) (s0 : RenderState) (e0 : Env)
    (pk : Key) (p : Projector) : Prop := {
  sf_key : JsMap.get (projectorKeys s0) (incr (newCounter "")).1 = Some pk;
  sf_projector : projectors s0 !! ref pk = Some p;
  sf_children : children s0 !! ref pk = Some [];
  sf_valid : p < length (projectorHeap e0);
  sf_widgetKeys : widgetKeys s0 = widgetKeys s;
  sf_widgets : widgets s0 = widgets s;
  sf_resolved : resolved e0 = resolved e;
  sf_destroyed : destroyed e0 = destroyed e;
  sf_heap : ∃ new, projectorHeap e0 = projectorHeap e ++ new;
  sf_env : envLe e e0;
  sf_keyOk : ∀ k, keyOk e s k →
    keyOk e0 s0 k ∧ handles s0 !! ref k = handles s !! ref k;
  sf_reuse : ∀ p', sceneProjector s = Some p' → p' = p ∧ s0 = s ∧ e0 = e
}.

Lemma setupProjector_spec s e pk p s0 e0 :
  stateInv e s →
  setupProjector (newCounter "") (s, e) = (pk, p, (s0, e0)) →
  stateInv e0 s0 ∧ setupFrame s e s0 e0 pk p.
Proof.
  intros Hinv. unfold setupProjector.
  set (i := (incr (newCounter "")).1).
  change (incr (newCounter "")) with (i, {| prefix := ""; count := 1 |}).
  cbv iota beta.
  destruct (JsMap.get (projectorKeys s) i) as [k|] eqn:Hget.
  - pose proof (JsMap_get_Some_elem _ _ _ Hget) as Hk.
    destruct (inv_projectorKeys _ _ Hinv _ _ Hk) as (Hv & [p0 Hp0] & Hh).
    rewrite Hp0. intros [= <- <- <- <-]. split; [done|].
    destruct (inv_projectors _ _ Hinv _ _ Hp0) as (? & ? & ?).
    split; try done.
    + exists []. by rewrite app_nil_r.
    + intros p'. unfold sceneProjector.
      change (incr (newCounter "")).1 with i. rewrite Hget. simpl.
      rewrite Hp0. by intros [= ->].
  - assert (projectors s !! nextRef e = None) as Hp.
    { destruct (projectors s !! nextRef e) eqn:E; [|done].
      destruct (inv_projectors _ _ Hinv _ _ E) as (? & _). lia. }
    simpl. rewrite Hp. intros [= <- <- <- <-].
    set (k := {| ref := nextRef e; value := i |}).
    assert (∀ v k', (v, k') ∈ widgetKeys s → ref k' ≠ nextRef e) as Hwk.
    { intros v k' Hk'.
      destruct (inv_widgetKeys _ _ Hinv _ _ Hk') as (_ & ? & _). lia. }
    assert (∀ j k', (j, k') ∈ projectorKeys s → ref k' ≠ nextRef e) as Hpk.
    { intros j k' Hk'.
      destruct (inv_projectorKeys _ _ Hinv _ _ Hk') as (_ & [q Hq] & _).
      destruct (inv_projectors _ _ Hinv _ _ Hq) as (? & _). lia. }
    split.
    + destruct Hinv. split; simpl.
      * intros r l. destruct (decide (nextRef e = r)) as [<-|Hne].
        -- rewrite lookup_insert_eq. by intros [= <-].
        -- rewrite lookup_insert_ne by done. apply inv_children0.
      * intros r q. rewrite length_app. simpl.
        destruct (decide (nextRef e = r)) as [<-|Hne].
        -- rewrite !lookup_insert_eq. intros [= <-]. split_and!; [lia|lia|done].
        -- rewrite !lookup_insert_ne by done. intros Hq.
           destruct (inv_projectors0 _ _ Hq) as (? & ? & ?).
           split_and!; [lia|lia|done].
      * intros j k'. rewrite (JsMap_set_fresh _ _ _ Hget), elem_of_app,
          list_elem_of_singleton.
        intros [Hk'|[= -> ->]].
        -- destruct (inv_projectorKeys0 _ _ Hk') as (? & ? & ?).
           specialize (Hpk _ _ Hk').
           rewrite !lookup_insert_ne by done. by split_and!.
        -- simpl. rewrite !lookup_insert_eq. by split_and!.
      * rewrite (JsMap_set_fresh _ _ _ Hget), fmap_app.
        apply NoDup_app. split_and!; [done| |apply NoDup_singleton].
        intros x Hx ->%list_elem_of_singleton.
        by apply JsMap_get_None_keys in Hget.
      * intros v k' Hk'. destruct (inv_widgetKeys0 _ _ Hk') as (? & ? & ?).
        specialize (Hwk _ _ Hk').
        rewrite lookup_insert_ne by done. split_and!; [done|lia|done].
      * done.
      * done.
      * intros r Hr. specialize (inv_widgets0 r Hr). lia.
      * intros r [h Hr]. destruct (decide (nextRef e = r)) as [<-|Hne]; [lia|].
        rewrite lookup_insert_ne in Hr by done.
        specialize (inv_handles0 r (mk_is_Some _ _ Hr)). lia.
      * intros v k' Hk'. specialize (Hwk _ _ Hk').
        rewrite lookup_insert_ne by done. by eapply inv_cached0.
    + split; simpl; try done.
      * apply JsMap_get_set_eq.
      * by rewrite lookup_insert_eq.
      * by rewrite lookup_insert_eq.
      * rewrite length_app. simpl. lia.
      * by eexists.
      * split; simpl; [lia | rewrite length_app; lia].
      * intros k0 (Hr & Hpr & Huniq).
        assert (nextRef e ≠ ref k0) by lia.
        rewrite !lookup_insert_ne by done. split; [|done].
        split_and!; simpl; [lia | by rewrite lookup_insert_ne | done].
      * intros p'. unfold sceneProjector.
        change (incr (newCounter "")).1 with i. by rewrite Hget.
Qed.

Lemma promised_elem slots p : p ∈ promised slots ↔ Promised p ∈ slots.
Proof.
  unfold promised. rewrite list_elem_of_omap. split.
  - intros ([c|q] & Hin & Heq); [done|]. by injection Heq as ->.
  - intros Hin. by exists (Promised p).
Qed.

Lemma slotFor_promised registry s s' e e' append slots p :
  Forall2 (λ w, slotFor registry s s' e e' (widget w)) append slots →
  p ∈ promised slots →
  (waitingFor p, waitingKey p) ∈ widgetKeys s' ∧
  widgets s !! ref (waitingKey p) = None ∧
  {| widget := waitingFor p |} ∈ append ∧
  ∃ n, length (resolved e) ≤ n ∧ resolved e' !! n = Some (waitingFor p) ∧
       resolution p = getWidget registry n (waitingFor p).
Proof.
  intros Hslots Hp%promised_elem.
  apply list_elem_of_lookup in Hp as [i Hi].
  destruct (Forall2_lookup_r _ _ _ _ _ Hslots Hi)
    as ([v] & Hv & k & Hk & Hkey & Hfor & Hw & Hn).
  simpl in *. subst v k. split_and!; try done.
  apply list_elem_of_lookup. by exists i.
Qed.

Lemma stateInv_heap e e' s :
  stateInv e s → nextRef e' = nextRef e →
  length (projectorHeap e') = length (projectorHeap e) → stateInv e' s.
Proof. intros H Hr Hh. eapply stateInv_mono; [done|]. split; lia. Qed.

(** One pass of [render] on a scene, phase by phase. *)
Lemma render_inv registry root append w r w' :
  worldInv w →
  render registry root (IsProjector {| append := append |}) w = (r, w') →
  let s := default (newRenderState root) (stateFor registry w) in
  ∃ pk p s0 e0 slots s1 e1 s',
    stateInv (env w) s ∧
    setupProjector (newCounter "") (s, env w) = (pk, p, (s0, e0)) ∧
    stateInv e0 s0 ∧ setupFrame s (env w) s0 e0 pk p ∧
    requestChildren registry append (s0, e0) = (slots, (s1, e1)) ∧
    renderState w' = <[registryRef registry := s']> (renderState w) ∧
    match settle (completionOrder (promised slots)) s1 with
    | (Rejected err, s2, rest) =>
        r = Rejected err ∧ s' = s2 ∧ env w' = e1 ∧
        inFlight w' = inFlight w ++ ((λ p, (registryRef registry, p)) <$> rest)
    | (Fulfilled _, s2, rest) =>
        r = Fulfilled {| stateOf := registryRef registry |} ∧ s' = s2 ∧
        rest = [] ∧ inFlight w' = inFlight w ∧
        env w' = attach p
          (assignChildren p (childWidget <$> omap childOf slots) e1)
    end.
Proof.
  intros Hw Hrender s. unfold render in Hrender.
  change (default (newRenderState root)
            (renderState w !! registryRef registry)) with s in Hrender.
  assert (stateInv (env w) s) as Hinv.
  { subst s. unfold stateFor.
    destruct (renderState w !! registryRef registry) eqn:E; simpl.
    - by eapply inv_states.
    - apply newRenderState_inv. }
  rewrite update_setup in Hrender.
  destruct (setupProjector (newCounter "") (s, env w))
    as [[pk p] [s0 e0]] eqn:Hsetup.
  destruct (setupProjector_spec _ _ _ _ _ _ Hinv Hsetup) as [Hinv0 Hsf].
  unfold updateProjectorChildren in Hrender. simpl in Hrender.
  destruct (requestChildren registry append (s0, e0))
    as [slots [s1 e1]] eqn:Hreq.
  destruct (requestChildren_spec _ _ _ _ _ _ _ Hinv0 Hreq)
    as (Hinv1 & Hrf & Hslots & Hcalls).
  pose proof (settle_inv (completionOrder (promised slots)) s1) as Hsettle.
  destruct (settle (completionOrder (promised slots)) s1)
    as [[[[]|err] s2] rest] eqn:Hs.
  - destruct Hsettle as (Hall & -> & ->).
    destruct (runCallbacks_frame (completionOrder (promised slots)) s1)
      as (_ & Hch & _).
    rewrite childrenResolved_empty in Hrender.
    2:{ rewrite Hch, (rf_children _ _ _ _ Hrf).
        apply (sf_children _ _ _ _ _ _ Hsf). }
    injection Hrender as <- <-.
    exists pk, p, s0, e0, slots, s1, e1,
      (foldl runCallback s1 (completionOrder (promised slots))).
    rewrite Hs. simpl. rewrite app_nil_r. by split_and!.
  - injection Hrender as <- <-.
    exists pk, p, s0, e0, slots, s1, e1, s2. rewrite Hs. by split_and!.
Qed.

(** ** The invariants hold in every reachable world *)

Lemma keyOk_frame e e' s s' k :
  nextRef e ≤ nextRef e' → projectors s' = projectors s →
  widgetKeys s' = widgetKeys s → keyOk e s k → keyOk e' s' k.
Proof.
  intros Hle Hp Hk (? & ? & ?). unfold keyOk. rewrite Hp, Hk.
  split_and!; [lia | done | done].
Qed.

Lemma assign_attach_env p ws e :
  let e' := attach p (assignChildren p ws e) in
  nextRef e' = nextRef e ∧
  length (projectorHeap e') = length (projectorHeap e) ∧
  destroyed e' = destroyed e ∧ resolved e' = resolved e.
Proof. simpl. by rewrite !length_alter. Qed.

Lemma render_worldInv registry root tree w :
  worldInv w → worldInv (render registry root tree w).2.
Proof.
  intros Hw. destruct tree as [[append]|?]; [|done].
  destruct (render registry root (IsProjector {| append := append |}) w)
    as [r w'] eqn:Hrender.
  destruct (render_inv _ _ _ _ _ _ Hw Hrender)
    as (pk & p & s0 & e0 & slots & s1 & e1 & s' & Hinv & Hsetup & Hinv0 & Hsf
        & Hreq & Hstates & Hsettle).
  destruct (requestChildren_spec _ _ _ _ _ _ _ Hinv0 Hreq)
    as (Hinv1 & Hrf & Hslots & Hcalls).
  set (order := completionOrder (promised slots)) in *.
  assert (∀ q, q ∈ order → keyOk e1 s1 (waitingKey q)) as Hkeys.
  { intros q Hq. unfold order in Hq. rewrite completionOrder_perm in Hq.
    destruct (slotFor_promised _ _ _ _ _ _ _ _ Hslots Hq) as (Hk & _).
    by eapply stateInv_keyOk. }
  pose proof (settle_inv order s1) as Hinv2.
  assert (∃ done rest, order = done ++ rest ∧ s' = foldl runCallback s1 done ∧
            nextRef (env w') = nextRef e1 ∧
            length (projectorHeap (env w')) = length (projectorHeap e1) ∧
            inFlight w' =
              inFlight w ++ ((λ p, (registryRef registry, p)) <$> drop 1 rest))
    as (finished & rest & Horder & -> & Hnext & Hheap & Hfl).
  { destruct (settle order s1) as [[[[]|err] s2] rest].
    - destruct Hinv2 as (_ & -> & ->).
      destruct Hsettle as (_ & -> & _ & -> & ->).
      destruct (assign_attach_env p (childWidget <$> omap childOf slots) e1)
        as (? & ? & _).
      exists order, []. rewrite !app_nil_r. by split_and!.
    - destruct Hinv2 as (before & q & -> & _ & _ & _ & ->).
      destruct Hsettle as (_ & -> & -> & ->).
      exists before, (q :: rest). by split_and!. }
  assert (envLe (env w) (env w')) as Hle.
  { destruct (sf_env _ _ _ _ _ _ Hsf), (rf_env _ _ _ _ Hrf).
    split; lia. }
  destruct (runCallbacks_frame finished s1) as (_ & _ & _ & Hpr & Hwk).
  simpl in Hpr, Hwk.
  assert (∀ k, keyOk e1 s1 k →
            keyOk (env w') (foldl runCallback s1 finished) k) as Hlift.
  { intros k. apply keyOk_frame; [lia | done | done]. }
  simpl. split.
  - intros i si. rewrite Hstates. destruct (decide (registryRef registry = i))
      as [<-|Hne].
    + rewrite lookup_insert_eq. intros [= <-].
      eapply stateInv_heap; [|done|done].
      apply runCallbacks_inv; [done|].
      apply Forall_forall. intros q Hq. apply Hkeys. rewrite Horder.
      apply elem_of_app. by left.
    + rewrite lookup_insert_ne by done. intros Hs.
      eapply stateInv_mono; [by eapply inv_states | done].
  - intros i q. rewrite Hfl, Hstates, elem_of_app. intros [Hold|Hnew].
    + destruct (inv_inFlight _ Hw _ _ Hold) as (si & Hs & Hok).
      destruct (decide (registryRef registry = i)) as [<-|Hne].
      * rewrite lookup_insert_eq. eexists. split; [done|].
        apply Hlift. apply (rf_keyOk _ _ _ _ Hrf).
        apply (sf_keyOk _ _ _ _ _ _ Hsf).
        unfold stateFor. by rewrite Hs.
      * rewrite lookup_insert_ne by done. exists si. split; [done|].
        by eapply keyOk_mono.
    + apply list_elem_of_fmap in Hnew as (q' & [= <- <-] & Hq').
      rewrite lookup_insert_eq. eexists. split; [done|].
      apply Hlift, Hkeys. rewrite Horder. apply elem_of_app. right.
      eapply elem_of_sublist; [exact Hq' | apply sublist_drop].
Qed.

(** Deleting entries of the two key maps keeps the invariants. *)
Lemma stateInv_sublist e s s' :
  stateInv e s →
  root s' = root s → children s' = children s → handles s' = handles s →
  projectors s' = projectors s → widgets s' = widgets s →
  sublist (projectorKeys s') (projectorKeys s) →
  sublist (widgetKeys s') (widgetKeys s) →
  stateInv e s'.
Proof.
  intros [] _ Hc Hh Hp Hw Hpk Hwk. split; rewrite ?Hc, ?Hh, ?Hp, ?Hw; try done.
  - intros i k Hk. apply inv_projectorKeys0. by eapply elem_of_sublist.
  - apply (sublist_NoDup _ (projectorKeys s).*1); [done|].
    by apply fmap_sublist.
  - intros v k Hk. apply inv_widgetKeys0. by eapply elem_of_sublist.
  - apply (sublist_NoDup _ (widgetKeys s).*1); [done|].
    by apply fmap_sublist.
  - apply (sublist_NoDup _ (ref <$> (widgetKeys s).*2)); [done|].
    by do 2 apply fmap_sublist.
  - intros v k Hk. eapply inv_cached0. by eapply elem_of_sublist.
Qed.

Lemma keyOk_sublist e e' s s' k :
  nextRef e ≤ nextRef e' → projectors s' = projectors s →
  sublist (widgetKeys s') (widgetKeys s) → keyOk e s k → keyOk e' s' k.
Proof.
  intros Hle Hp Hk (? & ? & Huniq). unfold keyOk. rewrite Hp.
  split_and!; [lia | done |].
  intros v k' Hk'. apply (Huniq v). by eapply elem_of_sublist.
Qed.

(** What destroying handles changes: entries of the key maps go, and
    [destroy()] calls are logged. *)
Record destroyFrame (s : RenderState) (e : Env) (s' : RenderState) (e' : Env)
    : Prop := {
  df_root : root s' = root s;
  df_children : children s' = children s;
  df_handles : handles s' = handles s;
  df_projectors : projectors s' = projectors s;
  df_widgets : widgets s' = widgets s;
  df_projectorKeys : sublist (projectorKeys s') (projectorKeys s);
  df_widgetKeys : sublist (widgetKeys s') (widgetKeys s);
  df_nextRef : nextRef e' = nextRef e;
  df_heap : projectorHeap e' = projectorHeap e;
  df_resolved : resolved e' = resolved e;
  df_destroyed : ∃ new, destroyed e' = destroyed e ++ new
}.

Lemma destroyFrame_refl s e : destroyFrame s e s e.
Proof. split; try done. exists []. by rewrite app_nil_r. Qed.

Lemma destroyFrame_trans s1 e1 s2 e2 s3 e3 :
  destroyFrame s1 e1 s2 e2 → destroyFrame s2 e2 s3 e3 →
  destroyFrame s1 e1 s3 e3.
Proof.
  intros [] []. split; try congruence.
  - by etrans.
  - by etrans.
  - destruct df_destroyed0 as [n1 H1], df_destroyed1 as [n2 H2].
    exists (n1 ++ n2). by rewrite H2, H1, app_assoc.
Qed.

Lemma destroyHandle_destroyFrame h s e :
  destroyFrame s e (destroyHandle h (s, e)).1 (destroyHandle h (s, e)).2.
Proof.
  destruct h; simpl; split; simpl; try done;
    try apply JsMap_delete_keys_sublist;
    first [by eexists | exists []; by rewrite app_nil_r].
Qed.

Lemma destroyEach_destroyFrame keysOf entries s e :
  destroyFrame s e (destroyEach keysOf entries (s, e)).1
                   (destroyEach keysOf entries (s, e)).2.
Proof.
  revert s e. induction entries as [|[i k] entries IH]; intros s e;
    cbn [destroyEach fst].
  - apply destroyFrame_refl.
  - destruct (JsMap.has (keysOf s) i); [|apply IH].
    destruct (handles s !! ref k) as [h|]; [|apply IH].
    pose proof (destroyHandle_destroyFrame h s e) as Hh.
    destruct (destroyHandle h (s, e)) as [s1 e1].
    eapply destroyFrame_trans; [exact Hh | apply IH].
Qed.

Lemma destroyScene_destroyFrame s e :
  destroyFrame s e (destroyScene (s, e)).1 (destroyScene (s, e)).2.
Proof.
  unfold destroyScene. cbn [fst].
  pose proof (destroyEach_destroyFrame projectorKeys (projectorKeys s) s e)
    as H1.
  destruct (destroyEach projectorKeys (projectorKeys s) (s, e)) as [s1 e1].
  eapply destroyFrame_trans; [exact H1|]. cbn [fst].
  apply destroyEach_destroyFrame.
Qed.

Lemma destroyFrame_inv s e s' e' :
  destroyFrame s e s' e' → stateInv e s → stateInv e' s'.
Proof.
  intros [] Hinv. eapply stateInv_heap; [|done|by rewrite df_heap0].
  by eapply stateInv_sublist.
Qed.

(** Replacing a state by one with fewer keys keeps the world invariant. *)
Lemma worldInv_destroyFrame w i s s' e' :
  worldInv w → renderState w !! i = Some s →
  destroyFrame s (env w) s' e' →
  worldInv {| renderState := <[i := s']> (renderState w);
              env := e'; inFlight := inFlight w |}.
Proof.
  intros Hw Hs Hf.
  assert (envLe (env w) e') as Hle.
  { destruct Hf. split; [lia | by rewrite df_heap0]. }
  split; simpl.
  - intros j sj. destruct (decide (i = j)) as [<-|Hne].
    + rewrite lookup_insert_eq. intros [= <-].
      eapply destroyFrame_inv; [done | by eapply inv_states].
    + rewrite lookup_insert_ne by done. intros Hj.
      eapply stateInv_mono; [by eapply inv_states | done].
  - intros j q Hq. destruct (inv_inFlight _ Hw _ _ Hq) as (sj & Hj & Hok).
    destruct (decide (i = j)) as [<-|Hne].
    + rewrite lookup_insert_eq. eexists. split; [done|].
      assert (sj = s) as -> by congruence. destruct Hf.
      eapply keyOk_sublist; [| | |exact Hok]; [lia | done | done].
    + rewrite lookup_insert_ne by done. exists sj. split; [done|].
      by eapply keyOk_mono.
Qed.

Lemma destroy_worldInv h w : worldInv w → worldInv (destroy h w).
Proof.
  intros Hw. unfold destroy.
  destruct (renderState w !! stateOf h) as [s|] eqn:Hs; [|done].
  pose proof (destroyScene_destroyFrame s (env w)) as Hf.
  destruct (destroyScene (s, env w)) as [s' e']. simpl in Hf.
  by eapply worldInv_destroyFrame.
Qed.

Lemma settleInFlight_worldInv w : worldInv w → worldInv (settleInFlight w).
Proof.
  intros Hw. unfold settleInFlight.
  destruct (inFlight w) as [|[i p] rest] eqn:Hfl; [done|].
  destruct (inv_inFlight _ Hw i p) as (s & Hs & Hok).
  { rewrite Hfl. by left. }
  assert (∀ j q, (j, q) ∈ rest → (j, q) ∈ inFlight w) as Hrest.
  { intros j q Hq. rewrite Hfl. by right. }
  destruct (outcome (resolution p)) as [x|]; simpl.
  - split; simpl.
    + intros j sj. destruct (decide (i = j)) as [<-|Hne].
      * rewrite lookup_alter_eq, Hs. intros [= <-].
        apply resolved_callback_inv; [by eapply inv_states | done].
      * rewrite lookup_alter_ne by done. by apply inv_states.
    + intros j q Hq%Hrest.
      destruct (inv_inFlight _ Hw _ _ Hq) as (sj & Hj & Hokj).
      destruct (decide (i = j)) as [<-|Hne].
      * rewrite lookup_alter_eq, Hs. eexists. split; [done|].
        assert (sj = s) as -> by congruence. by apply resolved_callback_keyOk.
      * rewrite lookup_alter_ne by done. by exists sj.
  - split; simpl; [by apply inv_states|].
    intros j q Hq%Hrest. by apply inv_inFlight.
Qed.

Lemma newWorld_inv : worldInv newWorld.
Proof.
  split; simpl.
  - intros r s Hs. by rewrite lookup_empty in Hs.
  - intros r p Hp. by apply elem_of_nil in Hp.
Qed.

Lemma reachable_inv w : reachable w → worldInv w.
Proof.
  induction 1;
    auto using newWorld_inv, render_worldInv, destroy_worldInv,
      settleInFlight_worldInv.
Qed.

(** ** One render pass, summarised *)

(** The state a registry has when a render starts. *)
Definition stateBefore (registry : ReadOnlyRegistry) (root : Element)
    (w : World) : RenderState :=
  default (newRenderState root) (stateFor registry w).

(** [slots] are the slots of the request phase, [s1] the state when it ends,
    [finished] the promises that settled, in order, before the promise of
    [render] did, and [rest] the others. *)
Record Pass (registry : ReadOnlyRegistry) (root : Element)
    (append : list SceneWidget) (w : World) (r : Settled SceneHandle)
    (w' : World) (slots : list Slot) (s1 : RenderState)
    (finished rest : list Waiting) : Prop := {
  pass_state :
    stateFor registry w' = Some (foldl runCallback s1 finished);
  pass_states :
    renderState w' =
      <[registryRef registry := foldl runCallback s1 finished]>
        (renderState w);
  pass_inv : stateInv (env w') s1;
  pass_slots :
    Forall2 (λ sw, slotFor registry (stateBefore registry root w) s1
                     (env w) (env w') (widget sw)) append slots;
  pass_calls :
    resolved (env w') = resolved (env w) ++ (waitingFor <$> promised slots);
  pass_destroyed : destroyed (env w') = destroyed (env w);
  pass_keys :
    ∃ new, widgetKeys s1 = widgetKeys (stateBefore registry root w) ++ new;
  pass_widgets : widgets s1 = widgets (stateBefore registry root w);
  pass_handles : ∀ k, keyOk (env w) (stateBefore registry root w) k →
    handles s1 !! ref k = handles (stateBefore registry root w) !! ref k;
  pass_fresh : ∀ v k, (v, k) ∈ widgetKeys s1 →
    (v, k) ∈ widgetKeys (stateBefore registry root w) ∨
    nextRef (env w) ≤ ref k;
  pass_request : ∃ e1,
    requestChildren registry append
      (setupProjector (newCounter "")
         (stateBefore registry root w, env w)).2 = (slots, (s1, e1)) ∧
    resolved (env w') = resolved e1;
  pass_children : ∃ pk,
    JsMap.get (projectorKeys s1) (incr (newCounter "")).1 = Some pk ∧
    children s1 !! ref pk = Some [];
  pass_order : completionOrder (promised slots) = finished ++ rest;
  pass_finished : Forall succeeded finished;
  pass_result :
    match r with
    | Fulfilled h =>
        rest = [] ∧ h = {| stateOf := registryRef registry |} ∧
        inFlight w' = inFlight w ∧
        sceneChildren registry w' =
          Some (childWidget <$> omap childOf slots)
    | Rejected err =>
        ∃ q rest', rest = q :: rest' ∧ outcome (resolution q) = None ∧
          err = ResolutionFailed (waitingFor q) ∧
          inFlight w' =
            inFlight w ++ ((λ p, (registryRef registry, p)) <$> rest')
    end
}.

Lemma render_pass registry root append w r w' :
  worldInv w →
  render registry root (IsProjector {| append := append |}) w = (r, w') →
  ∃ slots s1 finished rest,
    Pass registry root append w r w' slots s1 finished rest.
Proof.
  intros Hw Hrender.
  destruct (render_inv _ _ _ _ _ _ Hw Hrender)
    as (pk & p & s0 & e0 & slots & s1 & e1 & s' & Hinv & Hsetup & Hinv0 & Hsf
        & Hreq & Hstates & Hsettle).
  fold (stateBefore registry root w) in Hinv, Hsf.
  set (s := stateBefore registry root w) in *.
  destruct (requestChildren_spec _ _ _ _ _ _ _ Hinv0 Hreq)
    as (Hinv1 & Hrf & Hslots & Hcalls).
  set (order := completionOrder (promised slots)) in *.
  pose proof (settle_inv order s1) as Hinv2.
  assert (p < length (projectorHeap e1)) as Hvalid.
  { rewrite (rf_heap _ _ _ _ Hrf). apply (sf_valid _ _ _ _ _ _ Hsf). }
  assert (∃ finished rest, order = finished ++ rest ∧
            Forall succeeded finished ∧ s' = foldl runCallback s1 finished ∧
            nextRef (env w') = nextRef e1 ∧
            length (projectorHeap (env w')) = length (projectorHeap e1) ∧
            destroyed (env w') = destroyed e1 ∧
            resolved (env w') = resolved e1 ∧
            match r with
            | Fulfilled h =>
                rest = [] ∧ h = {| stateOf := registryRef registry |} ∧
                inFlight w' = inFlight w ∧
                (childList <$> projectorHeap (env w') !! p) =
                  Some (childWidget <$> omap childOf slots)
            | Rejected err =>
                ∃ q rest', rest = q :: rest' ∧ outcome (resolution q) = None ∧
                  err = ResolutionFailed (waitingFor q) ∧
                  inFlight w' =
                    inFlight w ++ ((λ p, (registryRef registry, p)) <$> rest')
            end)
    as (finished & rest & Horder & Hfin & -> & Hnext & Hheap & Hdes & Hres
        & Hresult).
  { destruct (settle order s1) as [[[[]|err] s2] rest].
    - destruct Hinv2 as (Hall & -> & ->).
      destruct Hsettle as (-> & -> & _ & -> & ->).
      destruct (assign_attach_env p (childWidget <$> omap childOf slots) e1)
        as (? & ? & ? & ?).
      exists order, []. rewrite !app_nil_r. split_and!; try done.
      simpl. rewrite list_lookup_alter_eq, list_lookup_alter_eq.
      destruct (lookup_lt_is_Some_2 _ _ Hvalid) as [o ->]. done.
    - destruct Hinv2 as (before & q & -> & Hall & Hq & -> & ->).
      destruct Hsettle as (-> & -> & -> & ->).
      exists before, (q :: rest). split_and!; try done. by exists q, rest. }
  destruct (runCallbacks_frame finished s1) as (_ & Hch & Hpk & Hpr & Hwk).
  simpl in Hch, Hpk, Hpr, Hwk.
  assert (stateFor registry w' = Some (foldl runCallback s1 finished)) as Hst.
  { unfold stateFor. by rewrite Hstates, lookup_insert_eq. }
  exists slots, s1, finished, rest. split; try done.
  - by eapply stateInv_heap.
  - eapply Forall2_impl; [exact Hslots|]. intros sw slot (k & Hk & Hslot).
    exists k. split; [done|].
    rewrite (sf_widgets _ _ _ _ _ _ Hsf), (sf_resolved _ _ _ _ _ _ Hsf) in Hslot.
    by rewrite Hres.
  - by rewrite Hres, Hcalls, (sf_resolved _ _ _ _ _ _ Hsf).
  - by rewrite Hdes, (rf_destroyed _ _ _ _ Hrf), (sf_destroyed _ _ _ _ _ _ Hsf).
  - destruct (rf_keys _ _ _ _ Hrf) as [new Hnew]. exists new.
    by rewrite Hnew, (sf_widgetKeys _ _ _ _ _ _ Hsf).
  - by rewrite (rf_widgets _ _ _ _ Hrf), (sf_widgets _ _ _ _ _ _ Hsf).
  - intros k Hk. destruct (sf_keyOk _ _ _ _ _ _ Hsf k Hk) as [_ Heq].
    rewrite (rf_handles _ _ _ _ Hrf). exact Heq.
  - intros v k Hk. destruct (rf_fresh _ _ _ _ Hrf v k Hk) as [Hk'|Hk'].
    + left. rewrite (sf_widgetKeys _ _ _ _ _ _ Hsf) in Hk'. exact Hk'.
    + right. destruct (sf_env _ _ _ _ _ _ Hsf). lia.
  - exists e1. split; [|done]. unfold stateBefore. by rewrite Hsetup.
  - exists pk. rewrite (rf_projectorKeys _ _ _ _ Hrf), (rf_children _ _ _ _ Hrf).
    split; [apply (sf_key _ _ _ _ _ _ Hsf) | apply (sf_children _ _ _ _ _ _ Hsf)].
  - destruct r as [h|err]; [|done].
    destruct Hresult as (-> & -> & Hfl & Hlist). split_and!; try done.
    unfold sceneChildren. rewrite Hst. simpl. unfold sceneProjector.
    rewrite Hpk, (rf_projectorKeys _ _ _ _ Hrf), (sf_key _ _ _ _ _ _ Hsf).
    simpl. rewrite Hpr, (rf_projectors _ _ _ _ Hrf),
      (sf_projector _ _ _ _ _ _ Hsf). done.
Qed.

(** An identifier is installed when all three maps have its entries. *)
Definition installed (s : RenderState) (v : Identifier) (k : Key)
    (x : WidgetLike) : Prop :=
  JsMap.get (widgetKeys s) v = Some k ∧ widgets s !! ref k = Some x ∧
  handles s !! ref k = Some (WidgetHandle x k).

Lemma stateBefore_inv registry root w :
  worldInv w → stateInv (env w) (stateBefore registry root w).
Proof.
  intros Hw. unfold stateBefore, stateFor.
  destruct (renderState w !! registryRef registry) eqn:E; simpl.
  - by eapply inv_states.
  - apply newRenderState_inv.
Qed.

Lemma cached_installed e s v x :
  stateInv e s → cachedWidget s v = Some x → ∃ k, installed s v k x.
Proof.
  intros Hinv. unfold cachedWidget, installed.
  destruct (JsMap.get (widgetKeys s) v) as [k|] eqn:Hk; [|done]. simpl.
  intros Hx. exists k. split_and!; try done.
  pose proof (inv_cached _ _ Hinv v k (JsMap_get_Some_elem _ _ _ Hk)) as Hc.
  by rewrite Hx in Hc.
Qed.

Lemma installed_cached s v k x : installed s v k x → cachedWidget s v = Some x.
Proof. intros (Hk & Hx & _). unfold cachedWidget. by rewrite Hk. Qed.

Lemma callsSince_app e e' new :
  resolved e' = resolved e ++ new → callsSince e e' = new.
Proof. intros H. unfold callsSince. by rewrite H, drop_app_length. Qed.

Section PassFacts.
Context {registry : ReadOnlyRegistry} {root : Element}
  {append : list SceneWidget} {w w' : World} {r : Settled SceneHandle}
  {slots : list Slot} {s1 : RenderState} {finished rest : list Waiting}.
Context (Hw : worldInv w).
Context (HP : Pass registry root append w r w' slots s1 finished rest).

Local Abbreviation s := (stateBefore registry root w).
Local Abbreviation s' := (foldl runCallback s1 finished).

Lemma pass_callsSince :
  callsSince (env w) (env w') = waitingFor <$> promised slots.
Proof. apply callsSince_app, (pass_calls _ _ _ _ _ _ _ _ _ _ HP). Qed.

Lemma pass_widgetKeys_after : widgetKeys s' = widgetKeys s1.
Proof. by destruct (runCallbacks_frame finished s1) as (_ & _ & _ & _ & ?). Qed.

Lemma pass_finished_promised p : p ∈ finished → p ∈ promised slots.
Proof.
  intros Hp. eapply elem_of_Permutation_proper;
    [symmetry; apply completionOrder_perm|].
  rewrite (pass_order _ _ _ _ _ _ _ _ _ _ HP). apply elem_of_app. by left.
Qed.

Lemma pass_promised p :
  p ∈ promised slots →
  (waitingFor p, waitingKey p) ∈ widgetKeys s1 ∧
  widgets s !! ref (waitingKey p) = None ∧
  {| widget := waitingFor p |} ∈ append ∧
  ∃ n, length (resolved (env w)) ≤ n ∧
       resolved (env w') !! n = Some (waitingFor p) ∧
       resolution p = getWidget registry n (waitingFor p).
Proof. apply slotFor_promised, (pass_slots _ _ _ _ _ _ _ _ _ _ HP). Qed.

Lemma pass_get_old v k :
  JsMap.get (widgetKeys s) v = Some k → JsMap.get (widgetKeys s') v = Some k.
Proof.
  intros Hk. rewrite pass_widgetKeys_after.
  destruct (pass_keys _ _ _ _ _ _ _ _ _ _ HP) as [new ->].
  by rewrite JsMap_get_app, Hk.
Qed.

Lemma pass_get_live v k :
  (v, k) ∈ widgetKeys s1 ↔ JsMap.get (widgetKeys s') v = Some k.
Proof.
  rewrite pass_widgetKeys_after. split.
  - apply JsMap_elem_get.
    apply (inv_widgetKeys_nodup _ _ (pass_inv _ _ _ _ _ _ _ _ _ _ HP)).
  - apply JsMap_get_Some_elem.
Qed.

(** A key that had a widget before the pass is written by no callback of
    the pass. *)
Lemma pass_untouched k x :
  widgets s !! ref k = Some x →
  widgets s' !! ref k = Some x ∧ handles s' !! ref k = handles s1 !! ref k.
Proof.
  intros Hx.
  destruct (runCallbacks_other finished s1 (ref k)) as [Hws Hhs].
  { intros p Hp%pass_finished_promised _ Heq.
    destruct (pass_promised p Hp) as (_ & Hnone & _).
    rewrite Heq in Hnone. congruence. }
  by rewrite Hws, Hhs, (pass_widgets _ _ _ _ _ _ _ _ _ _ HP).
Qed.

(** Entries installed before a render are still there after it, whether
    it is fulfilled or rejected. *)
Lemma pass_keeps_installed v k x : installed s v k x → installed s' v k x.
Proof.
  intros (Hk & Hx & Hh).
  destruct (pass_untouched k x Hx) as [Hx' Hh'].
  split_and!; [by apply pass_get_old | done |].
  rewrite Hh', (pass_handles _ _ _ _ _ _ _ _ _ _ HP); [done|].
  eapply stateInv_keyOk; [by apply stateBefore_inv|].
  by apply JsMap_get_Some_elem.
Qed.

(** A slot is ready exactly when its identifier was cached. *)
Lemma pass_slot_ready sw c :
  slotFor registry s s1 (env w) (env w') (widget sw) (Ready c) →
  cachedWidget s (widget sw) = Some (childWidget c).
Proof.
  intros (k & Hk & <- & Hx). unfold cachedWidget.
  destruct (pass_fresh _ _ _ _ _ _ _ _ _ _ HP _ _ Hk) as [Hold|Hnew].
  - rewrite (JsMap_elem_get _ _ _
      (inv_widgetKeys_nodup _ _ (stateBefore_inv registry root w Hw)) Hold).
    done.
  - pose proof (inv_widgets _ _ (stateBefore_inv registry root w Hw)
                  (ref (key c)) (mk_is_Some _ _ Hx)). lia.
Qed.

Lemma pass_slot_promised sw p :
  slotFor registry s s1 (env w) (env w') (widget sw) (Promised p) →
  cachedWidget s (widget sw) = None.
Proof.
  intros (k & Hk & <- & _ & Hx & _). unfold cachedWidget.
  destruct (JsMap.get (widgetKeys s) (widget sw)) as [k'|] eqn:Hk'; [|done].
  simpl. apply pass_get_old in Hk'. apply pass_get_live in Hk.
  congruence.
Qed.

(** No [getWidget] call is made for a cached identifier. *)
Lemma pass_cached_not_called v :
  is_Some (cachedWidget s v) → v ∉ callsSince (env w) (env w').
Proof.
  intros [x Hx]. rewrite pass_callsSince.
  intros (p & -> & Hp%promised_elem)%list_elem_of_fmap.
  apply list_elem_of_lookup in Hp as [i Hi].
  destruct (Forall2_lookup_r _ _ _ _ _ (pass_slots _ _ _ _ _ _ _ _ _ _ HP) Hi)
    as (sw & Hsw & Hslot).
  pose proof Hslot as (k & _ & _ & Hv & _).
  apply pass_slot_promised in Hslot. rewrite <-Hv in Hslot. congruence.
Qed.

(** An identifier that is requested and not cached is resolved. *)
Lemma pass_uncached_called v :
  {| widget := v |} ∈ append → cachedWidget s v = None →
  v ∈ callsSince (env w) (env w').
Proof.
  intros [i Hi]%list_elem_of_lookup Hnone. rewrite pass_callsSince.
  destruct (Forall2_lookup_l _ _ _ _ _ (pass_slots _ _ _ _ _ _ _ _ _ _ HP) Hi)
    as (slot & Hslot & Hfor).
  destruct slot as [c|p].
  - apply pass_slot_ready in Hfor. simpl in Hfor. congruence.
  - destruct Hfor as (k & _ & _ & Hv & _). simpl in Hv.
    apply list_elem_of_fmap. exists p. split; [done|].
    apply promised_elem. apply list_elem_of_lookup. by exists i.
Qed.

(** The calls of a pass follow the requested identifiers. *)
Lemma pass_calls_sublist :
  sublist (callsSince (env w) (env w')) (widget <$> append).
Proof.
  rewrite pass_callsSince.
  pose proof (pass_slots _ _ _ _ _ _ _ _ _ _ HP) as Hslots. clear HP.
  induction Hslots as [|sw slot append' slots' Hslot _ IH]; [done|].
  destruct slot as [c|p]; simpl.
  - by apply sublist_cons.
  - destruct Hslot as (k & _ & _ & -> & _). by apply sublist_skip.
Qed.
End PassFacts.

Lemma omap_Forall2 {A B} (f : A → option B) (l : list A) :
  Forall (λ a, is_Some (f a)) l → Forall2 (λ a b, f a = Some b) l (omap f l).
Proof.
  induction 1 as [|a l [b Hb] _ IH]; simpl; [constructor|].
  rewrite Hb. by constructor.
Qed.

Lemma childOf_all slots :
  (∀ p, p ∈ promised slots → succeeded p) →
  Forall2 (λ slot c, childOf slot = Some c) slots (omap childOf slots).
Proof.
  intros Hall. apply omap_Forall2, Forall_forall. intros [c|p] Hin; simpl.
  - by eexists.
  - apply promised_elem, Hall in Hin. destruct Hin as [x Hx].
    rewrite Hx. by eexists.
Qed.

(** How the child at one position was obtained: from the cache, or from a
    [getWidget] call of this pass. *)
Definition resolvedFor (registry : ReadOnlyRegistry) (s : RenderState)
    (e e' : Env) (v : Identifier) (x : WidgetLike) : Prop :=
  cachedWidget s v = Some x ∨
  (cachedWidget s v = None ∧
   ∃ n, length (resolved e) ≤ n ∧ resolved e' !! n = Some v ∧
        outcome (getWidget registry n v) = Some x).

Section FulfilledFacts.
Context {registry : ReadOnlyRegistry} {root : Element}
  {append : list SceneWidget} {w w' : World} {h : SceneHandle}
  {slots : list Slot} {s1 : RenderState} {finished rest : list Waiting}.
Context (Hw : worldInv w).
Context
  (HP : Pass registry root append w (Fulfilled h) w' slots s1 finished rest).

Local Abbreviation s := (stateBefore registry root w).
Local Abbreviation s' := (foldl runCallback s1 finished).

Lemma fulfilled_finished : finished ≡ₚ promised slots.
Proof.
  destruct (pass_result _ _ _ _ _ _ _ _ _ _ HP) as (Hrest & _).
  etrans; [|apply completionOrder_perm].
  by rewrite (pass_order _ _ _ _ _ _ _ _ _ _ HP), Hrest, app_nil_r.
Qed.

Lemma fulfilled_succeeded p : p ∈ promised slots → succeeded p.
Proof.
  rewrite <-fulfilled_finished. intros Hp.
  by eapply Forall_forall; [apply (pass_finished _ _ _ _ _ _ _ _ _ _ HP)|].
Qed.

Lemma fulfilled_children :
  sceneChildren registry w' = Some (childWidget <$> omap childOf slots) ∧
  Forall2 (λ slot c, childOf slot = Some c) slots (omap childOf slots).
Proof.
  destruct (pass_result _ _ _ _ _ _ _ _ _ _ HP) as (_ & _ & _ & Hch).
  split; [done|]. apply childOf_all, fulfilled_succeeded.
Qed.

(** The child collection follows the request, position by position. *)
Lemma fulfilled_in_order :
  Forall2 (λ sw x, resolvedFor registry s (env w) (env w') (widget sw) x)
    append (childWidget <$> omap childOf slots).
Proof.
  destruct fulfilled_children as [_ Hcs].
  apply Forall2_fmap_r.
  eapply Forall2_trans;
    [|exact (pass_slots _ _ _ _ _ _ _ _ _ _ HP)|exact Hcs].
  intros sw slot c Hslot Hc. destruct slot as [c'|p].
  - injection Hc as <-. left. by eapply pass_slot_ready.
  - right. split; [by eapply pass_slot_promised|].
    destruct Hslot as (k & _ & _ & Hv & _ & n & Hn & Hcall & Hres).
    simpl in Hc. destruct (outcome (resolution p)) as [x|] eqn:Hx; [|done].
    injection Hc as <-. simpl. exists n. rewrite <-Hres, Hx.
    by split_and!.
Qed.

(** After a fulfilled pass every requested identifier is cached. *)
Lemma fulfilled_all_cached sw :
  sw ∈ append → is_Some (cachedWidget s' (widget sw)).
Proof.
  intros [i Hi]%list_elem_of_lookup.
  destruct (Forall2_lookup_l _ _ _ _ _ (pass_slots _ _ _ _ _ _ _ _ _ _ HP) Hi)
    as (slot & Hslot & Hfor).
  pose proof Hfor as (k & Hk & Hrest).
  unfold cachedWidget.
  rewrite (proj1 (pass_get_live HP _ _) Hk). simpl.
  destruct slot as [c|p].
  - destruct Hrest as [<- Hx].
    destruct (pass_untouched HP _ _ Hx) as [-> _]. by eexists.
  - destruct Hrest as (<- & _).
    assert (p ∈ promised slots) as Hp.
    { apply promised_elem, list_elem_of_lookup. by exists i. }
    destruct (runCallbacks_written finished s1 p) as (q & x & _ & _ & _ & -> & _);
      [by rewrite fulfilled_finished | by apply fulfilled_succeeded |].
    by eexists.
Qed.

(** When no identifier is requested twice, the cache holds for each the
    instance that was given to the projector. *)
Lemma fulfilled_cached_children :
  NoDup (widget <$> append) →
  Forall2 (λ sw x, cachedWidget s' (widget sw) = Some x)
    append (childWidget <$> omap childOf slots).
Proof.
  intros Hnd. destruct fulfilled_children as [_ Hcs].
  pose proof (pass_slots _ _ _ _ _ _ _ _ _ _ HP) as Hslots.
  apply Forall2_fmap_r. apply Forall2_same_length_lookup_2.
  { rewrite (Forall2_length _ _ _ Hslots). by eapply Forall2_length. }
  intros i sw c Hi Hc.
  destruct (Forall2_lookup_l _ _ _ _ _ Hslots Hi) as (slot & Hslot & Hfor).
  pose proof (Forall2_lookup_lr _ _ _ _ _ _ Hcs Hslot Hc) as Hchild.
  pose proof Hfor as (k & Hk & Hrest).
  unfold cachedWidget.
  rewrite (proj1 (pass_get_live HP _ _) Hk). simpl.
  destruct slot as [c'|p].
  - injection Hchild as <-. destruct Hrest as [<- Hx].
    by destruct (pass_untouched HP _ _ Hx) as [-> _].
  - destruct Hrest as (<- & Hv & _).
    assert (p ∈ promised slots) as Hp.
    { apply promised_elem, list_elem_of_lookup. by exists i. }
    destruct (runCallbacks_written finished s1 p)
      as (q & x & Hq & Href & Hx & -> & _);
      [by rewrite fulfilled_finished | by apply fulfilled_succeeded |].
    rewrite fulfilled_finished in Hq.
    apply promised_elem, list_elem_of_lookup in Hq as [j Hj].
    destruct (Forall2_lookup_r _ _ _ _ _ Hslots Hj)
      as (sw' & Hj' & k' & Hk' & Hkey' & Hv' & _).
    pose proof (pass_inv _ _ _ _ _ _ _ _ _ _ HP) as Hinv1.
    destruct (stateInv_keyOk _ _ _ _ Hinv1 Hk) as (_ & _ & Huniq).
    assert (k' = waitingKey p) as Hsame
      by (apply (Huniq _ _ Hk'); congruence).
    destruct (inv_widgetKeys _ _ Hinv1 _ _ Hk) as (Hval & _).
    destruct (inv_widgetKeys _ _ Hinv1 _ _ Hk') as (Hval' & _).
    assert (i = j) as <-.
    { eapply NoDup_lookup; [exact Hnd| |];
        rewrite list_lookup_fmap; [by rewrite Hi | rewrite Hj'; simpl].
      f_equal. congruence. }
    assert (q = p) as -> by congruence.
    simpl in Hchild. rewrite Hx in Hchild. by injection Hchild as <-.
Qed.
End FulfilledFacts.

Lemma widget_scene (ids : list Identifier) :
  widget <$> ((λ v, {| widget := v |}) <$> ids) = ids.
Proof. rewrite <-list_fmap_compose. apply list_fmap_id. Qed.

Lemma stateBefore_after registry root w s :
  stateFor registry w = Some s → stateBefore registry root w = s.
Proof. unfold stateBefore. by intros ->. Qed.

(** Rendering a scene whose identifiers are all cached resolves nothing,
    is fulfilled, and gives the projector the cached instances. *)
Lemma render_all_cached registry root append xs w r w' :
  worldInv w →
  Forall2 (λ sw x, cachedWidget (stateBefore registry root w) (widget sw)
                     = Some x) append xs →
  render registry root (IsProjector {| append := append |}) w = (r, w') →
  r = Fulfilled {| stateOf := registryRef registry |} ∧
  resolved (env w') = resolved (env w) ∧
  destroyed (env w') = destroyed (env w) ∧
  sceneChildren registry w' = Some xs.
Proof.
  intros Hw Hcached Hrender.
  destruct (render_pass _ _ _ _ _ _ Hw Hrender)
    as (slots & s1 & finished & rest & HP).
  pose proof (pass_slots _ _ _ _ _ _ _ _ _ _ HP) as Hslots.
  assert (Forall2 (λ slot x, ∃ c, slot = Ready c ∧ childWidget c = x) slots xs)
    as Hready.
  { apply Forall2_flip.
    eapply Forall2_trans;
      [|exact (proj2 (Forall2_flip _ _ _) Hcached)|exact Hslots].
    intros x sw slot Hx Hslot. unfold flip in *. destruct slot as [c|p].
    - exists c. split; [done|]. apply (pass_slot_ready Hw HP) in Hslot.
      congruence.
    - apply (pass_slot_promised HP) in Hslot. congruence. }
  assert (promised slots = []) as Hnone.
  { clear -Hready.
    by induction Hready as [|slot x slots xs (c & -> & _) _ IH]. }
  assert (childWidget <$> omap childOf slots = xs) as Hxs.
  { clear -Hready.
    induction Hready as [|slot x slots xs (c & -> & <-) _ IH]; [done|].
    cbn. f_equal. exact IH. }
  pose proof (pass_order _ _ _ _ _ _ _ _ _ _ HP) as Horder.
  rewrite Hnone in Horder. simpl in Horder.
  symmetry in Horder. apply app_eq_nil in Horder as [-> ->].
  pose proof (pass_result _ _ _ _ _ _ _ _ _ _ HP) as Hres.
  destruct r as [h|err].
  - destruct Hres as (_ & -> & _ & Hch). split_and!; try done.
    + rewrite (pass_calls _ _ _ _ _ _ _ _ _ _ HP), Hnone. apply app_nil_r.
    + apply (pass_destroyed _ _ _ _ _ _ _ _ _ _ HP).
    + by rewrite Hch, Hxs.
  - by destruct Hres as (q & rest' & ? & _).
Qed.

Lemma render_reachable registry root tree w r w' :
  reachable w → render registry root tree w = (r, w') → reachable w'.
Proof.
  intros Hw Hrender.
  pose proof (reachable_render registry root tree w Hw) as H.
  by rewrite Hrender in H.
Qed.

Lemma scene_path : (incr (newCounter "")).1 = ".0".
Proof. reflexivity. Qed.

(** ** Promises that settle later *)

Lemma settleN_reachable n w : reachable w → reachable (settleN n w).
Proof.
  revert w. induction n as [|n IH]; intros w Hw; [done|].
  simpl. by apply IH, reachable_settle.
Qed.

(** Settling keeps the keys and the instances of every state, and stores
    an instance under the key of every promise that is fulfilled. *)
Lemma settleN_spec n w :
  n = length (inFlight w) →
  inFlight (settleN n w) = [] ∧ env (settleN n w) = env w ∧
  ∀ i s, renderState w !! i = Some s →
    ∃ s', renderState (settleN n w) !! i = Some s' ∧
      widgetKeys s' = widgetKeys s ∧
      (∀ r, is_Some (widgets s !! r) → is_Some (widgets s' !! r)) ∧
      (∀ p, (i, p) ∈ inFlight w → succeeded p →
            is_Some (widgets s' !! ref (waitingKey p))).
Proof.
  revert w. induction n as [|n IH]; intros w Hn.
  - symmetry in Hn. apply nil_length_inv in Hn. simpl.
    split_and!; [done | done |]. intros i s Hs. exists s.
    split_and!; [done | done | done |]. intros p Hp. rewrite Hn in Hp.
    by apply elem_of_nil in Hp.
  - destruct (inFlight w) as [|[j p0] rest] eqn:Hfl; [done|].
    injection Hn as Hn. cbn [settleN].
    set (w1 := settleInFlight w).
    assert (inFlight w1 = rest ∧ env w1 = env w) as [Hfl1 Henv1].
    { unfold w1, settleInFlight. by rewrite Hfl. }
    destruct (IH w1) as (Hnil & Henv & Hstates); [by rewrite Hfl1|].
    split_and!; [done | by rewrite Henv |].
    intros i s Hs.
    assert (∃ s1, renderState w1 !! i = Some s1 ∧
              widgetKeys s1 = widgetKeys s ∧
              (∀ r, is_Some (widgets s !! r) → is_Some (widgets s1 !! r)) ∧
              (i = j → succeeded p0 →
               is_Some (widgets s1 !! ref (waitingKey p0))))
      as (s1 & Hs1 & Hk1 & Hmono1 & Hhead).
    { unfold w1, settleInFlight. rewrite Hfl. simpl.
      destruct (outcome (resolution p0)) as [x|] eqn:Hx.
      - destruct (decide (j = i)) as [->|Hne].
        + rewrite lookup_alter_eq, Hs. eexists.
          split_and!; [done | done | |].
          * intros r Hr. simpl.
            destruct (decide (ref (waitingKey p0) = r)) as [->|?];
              [by rewrite lookup_insert_eq|by rewrite lookup_insert_ne].
          * intros _ _. simpl. by rewrite lookup_insert_eq.
        + rewrite lookup_alter_ne by done. exists s.
          by split_and!.
      - exists s. split_and!; try done.
        intros _ [y Hy]. congruence. }
    destruct (Hstates i s1 Hs1) as (s' & Hs' & Hk' & Hmono' & Hrest).
    exists s'. split_and!; [done | congruence | by auto |].
    intros p [[= -> ->]|Hp]%elem_of_cons Hsucc.
    + by apply Hmono', Hhead.
    + apply Hrest; [by rewrite Hfl1 | done].
Qed.

Lemma settleN_quiet n w : inFlight w = [] → settleN n w = w.
Proof.
  intros Hfl. induction n as [|n IH]; [done|].
  cbn [settleN]. unfold settleInFlight at 1. by rewrite Hfl.
Qed.

Lemma settleN_env n w : env (settleN n w) = env w.
Proof.
  revert w. induction n as [|n IH]; intros w; [done|].
  cbn [settleN]. rewrite IH. unfold settleInFlight.
  by destruct (inFlight w) as [|[j p] rest].
Qed.

Lemma settleInFlight_inFlight w x :
  x ∈ inFlight (settleInFlight w) → x ∈ inFlight w.
Proof.
  unfold settleInFlight. destruct (inFlight w) as [|[j p] rest] eqn:Hfl.
  - by rewrite Hfl.
  - simpl. by right.
Qed.

(** Settling changes only [widgets] and [handles], and only under the keys
    of the promises that are fulfilled. *)
Lemma settleN_frame n w i s :
  renderState w !! i = Some s →
  ∃ s', renderState (settleN n w) !! i = Some s' ∧
    root s' = root s ∧ children s' = children s ∧
    projectorKeys s' = projectorKeys s ∧ projectors s' = projectors s ∧
    widgetKeys s' = widgetKeys s ∧
    ∀ r, (∀ p, (i, p) ∈ inFlight w → succeeded p → ref (waitingKey p) ≠ r) →
         widgets s' !! r = widgets s !! r ∧ handles s' !! r = handles s !! r.
Proof.
  revert w s. induction n as [|n IH]; intros w s Hs.
  { exists s. by split_and!. }
  cbn [settleN].
  assert (∃ s1, renderState (settleInFlight w) !! i = Some s1 ∧
            root s1 = root s ∧ children s1 = children s ∧
            projectorKeys s1 = projectorKeys s ∧ projectors s1 = projectors s ∧
            widgetKeys s1 = widgetKeys s ∧
            ∀ r, (∀ p, (i, p) ∈ inFlight w → succeeded p →
                       ref (waitingKey p) ≠ r) →
                 widgets s1 !! r = widgets s !! r ∧
                 handles s1 !! r = handles s !! r)
    as (s1 & Hs1 & Hr1 & Hc1 & Hpk1 & Hp1 & Hk1 & Hq1).
  { unfold settleInFlight.
    destruct (inFlight w) as [|[j p0] rest] eqn:Hfl;
      [exists s; by split_and!|]. simpl.
    destruct (outcome (resolution p0)) as [x|] eqn:Hx;
      [|exists s; by split_and!].
    destruct (decide (j = i)) as [->|Hne].
    - rewrite lookup_alter_eq, Hs. eexists.
      split_and!; [done | done | done | done | done | done |].
      intros r Hr. simpl.
      assert (ref (waitingKey p0) ≠ r) as Hne.
      { apply Hr; [by left | unfold succeeded; by rewrite Hx]. }
      by rewrite !lookup_insert_ne.
    - rewrite lookup_alter_ne by done. exists s. by split_and!. }
  destruct (IH _ _ Hs1) as (s' & Hs' & Hr' & Hc' & Hpk' & Hp' & Hk' & Hq').
  exists s'. split_and!; [done | congruence | congruence | congruence |
                          congruence | congruence |].
  intros r Hr. destruct (Hq1 r Hr) as [<- <-]. apply Hq'.
  intros p Hp. apply Hr. by apply settleInFlight_inFlight.
Qed.

(** A callback stores an instance; none removes one. *)
Lemma runCallbacks_mono ps s r :
  is_Some (widgets s !! r) → is_Some (widgets (foldl runCallback s ps) !! r).
Proof.
  revert s. induction ps as [|p ps IH]; intros s Hr; [done|].
  simpl. apply IH. unfold runCallback.
  destruct (outcome (resolution p)) as [x|]; [simpl|done].
  destruct (decide (ref (waitingKey p) = r)) as [->|?];
    [by rewrite lookup_insert_eq | by rewrite lookup_insert_ne].
Qed.

Lemma settleN_mono n w i s :
  renderState w !! i = Some s →
  ∃ s', renderState (settleN n w) !! i = Some s' ∧
    widgetKeys s' = widgetKeys s ∧
    ∀ r, is_Some (widgets s !! r) → is_Some (widgets s' !! r).
Proof.
  revert w s. induction n as [|n IH]; intros w s Hs.
  { exists s. by split_and!. }
  cbn [settleN].
  assert (∃ s1, renderState (settleInFlight w) !! i = Some s1 ∧
            widgetKeys s1 = widgetKeys s ∧
            ∀ r, is_Some (widgets s !! r) → is_Some (widgets s1 !! r))
    as (s1 & Hs1 & Hk1 & Hm1).
  { unfold settleInFlight.
    destruct (inFlight w) as [|[j p0] rest] eqn:Hfl;
      [exists s; by split_and!|]. simpl.
    destruct (outcome (resolution p0)) as [x|] eqn:Hx;
      [|exists s; by split_and!].
    destruct (decide (j = i)) as [->|Hne].
    - rewrite lookup_alter_eq, Hs. eexists. split_and!; [done | done |].
      intros r Hr. simpl.
      destruct (decide (ref (waitingKey p0) = r)) as [->|?];
        [by rewrite lookup_insert_eq | by rewrite lookup_insert_ne].
    - rewrite lookup_alter_ne by done. exists s. by split_and!. }
  destruct (IH _ _ Hs1) as (s' & Hs' & Hk' & Hm').
  exists s'. split_and!; [done | congruence | auto].
Qed.

(** The entries of an identifier stay when no promise in flight is
    fulfilled for its key. *)
Lemma settleN_installed n w registry s v k x :
  stateFor registry w = Some s → installed s v k x →
  (∀ p, (registryRef registry, p) ∈ inFlight w → succeeded p →
        ref (waitingKey p) ≠ ref k) →
  ∃ s', stateFor registry (settleN n w) = Some s' ∧ installed s' v k x.
Proof.
  intros Hs (Hk & Hx & Hh) Hq.
  destruct (settleN_frame n w _ _ Hs) as (s' & Hs' & _ & _ & _ & _ & Hk' & Hw').
  destruct (Hw' _ Hq) as [Hx' Hh'].
  exists s'. split; [done|]. split_and!; congruence.
Qed.

(** * Properties of the specification *)

(** ** Registries used in the examples *)

(** Every call is answered at once with an instance of its own. *)
Definition freshInstances : ReadOnlyRegistry :=
  {| registryRef := 0;
     getWidget := λ n _, {| latency := 0; outcome := Some (100 + n) |} |}.

(** The same, but the identifier "B" is unknown: its resolution fails, and
    later than the others settle. *)
Definition withoutB : ReadOnlyRegistry :=
  {| registryRef := 0;
     getWidget := λ n v,
       if decide (v = "B") then {| latency := 5; outcome := None |}
       else {| latency := 0; outcome := Some (100 + n) |} |}.

(** The identifier "Y" resolves slower than the others. *)
Definition slowY : ReadOnlyRegistry :=
  {| registryRef := 0;
     getWidget := λ n v,
       {| latency := if decide (v = "Y") then 9 else 0;
          outcome := Some (100 + n) |} |}.

(** The identifier "B" is unknown and fails at once; the others resolve,
    later. *)
Definition slowSiblings : ReadOnlyRegistry :=
  {| registryRef := 0;
     getWidget := λ n v,
       if decide (v = "B") then {| latency := 0; outcome := None |}
       else {| latency := 5; outcome := Some (100 + n) |} |}.

(** The identifier "B" is unknown and fails after a while; the others
    resolve, slowly at the first two calls and at once from then on. *)
Definition catchingUp : ReadOnlyRegistry :=
  {| registryRef := 0;
     getWidget := λ n v,
       if decide (v = "B") then {| latency := 3; outcome := None |}
       else {| latency := if n <? 2 then 9 else 0;
               outcome := Some (100 + n) |} |}.

(** ** Worlds used in the examples *)

Definition afterAB : World :=
  (render freshInstances 0 (scene ["A"; "B"]) newWorld).2.
Definition afterAB_A : World :=
  (render freshInstances 0 (scene ["A"]) afterAB).2.
Definition afterAB_A_AB : World :=
  (render freshInstances 0 (scene ["A"; "B"]) afterAB_A).2.

(** A rejected render of [A,B] that leaves the resolution of A in
    flight. *)
Definition afterLateA : World :=
  (render slowSiblings 0 (scene ["A"; "B"]) newWorld).2.

(** ** C5: a tree that is not a projector *)

(** C5. For every call [render registry root tree] where [tree] is not a
    projector node, the result is rejected and the world is the one before
    the call: no render state is created or registered, no key is made, no
    [getWidget] call is started. *)
Theorem render_rejects_non_projector registry root tree w :
  isSceneProjector tree = false →
  render registry root tree w = (Rejected MalformedScene, w).
Proof. by destruct tree. Qed.

Lemma render_rejects_non_projector_witness :
  isSceneProjector (IsWidget {| widget := "A" |}) = false ∧
  render freshInstances 0 (IsWidget {| widget := "A" |}) newWorld
    = (Rejected MalformedScene, newWorld).
Proof.
  split; [reflexivity|].
  apply (render_rejects_non_projector freshInstances 0
           (IsWidget {| widget := "A" |}) newWorld).
  reflexivity.
Defined.

(** ** C9: destroying a widget handle twice *)

Lemma JsMap_delete_absent {K V} `{EqDecision K} (m : JsMap.t K V) k :
  JsMap.get m k = None → JsMap.delete m k = m.
Proof.
  induction m as [|[k0 v0] m IH]; simpl; [done|].
  case_decide; [done|]. intros Hget. by rewrite IH.
Qed.

(** C9.  In every reachable world, for an identifier that has its key, its
    instance and its handle installed: the handle found in [handles] is the
    one the resolution stored, and invoking it calls [destroy()] on the
    instance each time, twice for two invocations.  The first invocation
    removes the [widgetKeys] entry of the identifier, so that no key is
    found for it any more, and nothing else: the other identifiers keep
    their keys, the [widgets] and [handles] entries remain, and the handle
    is still found in [handles].  The second invocation finds no entry to
    remove. *)
Theorem widget_handle_destroy_twice registry w s v k x :
  reachable w → stateFor registry w = Some s → installed s v k x →
  let h := WidgetHandle x k in
  let once := destroyHandle h (s, env w) in
  let twice := destroyHandle h once in
  handles s !! ref k = Some h ∧
  destroyed once.2 = destroyed (env w) ++ [WidgetInstance x] ∧
  JsMap.get (widgetKeys once.1) v = None ∧
  (∀ v', v' ≠ v →
         JsMap.get (widgetKeys once.1) v' = JsMap.get (widgetKeys s) v') ∧
  widgets once.1 = widgets s ∧ widgets once.1 !! ref k = Some x ∧
  handles once.1 = handles s ∧ handles once.1 !! ref k = Some h ∧
  destroyed twice.2
    = destroyed (env w) ++ [WidgetInstance x; WidgetInstance x] ∧
  widgetKeys twice.1 = widgetKeys once.1.
Proof.
  intros Hw Hs (Hk & Hx & Hh).
  pose proof (inv_states _ (reachable_inv _ Hw) _ _ Hs) as Hinv.
  destruct (inv_widgetKeys _ _ Hinv _ _ (JsMap_get_Some_elem _ _ _ Hk))
    as (Hval & _).
  assert (JsMap.get (JsMap.delete (widgetKeys s) v) v = None) as Hgone
    by apply JsMap_get_delete_eq, (inv_widgetKeys_nodup _ _ Hinv).
  simpl. rewrite Hval, <-app_assoc.
  split_and!; try done.
  - intros v' Hne. by apply JsMap_get_delete_ne.
  - by apply JsMap_delete_absent.
Qed.

Lemma widget_handle_destroy_twice_witness :
  reachable afterAB ∧
  stateFor freshInstances afterAB
    = Some (default (newRenderState 0) (stateFor freshInstances afterAB)) ∧
  installed (default (newRenderState 0) (stateFor freshInstances afterAB))
    "B" {| ref := 2; value := "B" |} 101 ∧
  let s := default (newRenderState 0) (stateFor freshInstances afterAB) in
  let h := WidgetHandle 101 {| ref := 2; value := "B" |} in
  let once := destroyHandle h (s, env afterAB) in
  let twice := destroyHandle h once in
  handles s !! ref {| ref := 2; value := "B" |} = Some h ∧
  destroyed once.2 = destroyed (env afterAB) ++ [WidgetInstance 101] ∧
  JsMap.get (widgetKeys once.1) "B" = None ∧
  (∀ v', v' ≠ "B" →
         JsMap.get (widgetKeys once.1) v' = JsMap.get (widgetKeys s) v') ∧
  widgets once.1 = widgets s ∧
  widgets once.1 !! ref {| ref := 2; value := "B" |} = Some 101 ∧
  handles once.1 = handles s ∧
  handles once.1 !! ref {| ref := 2; value := "B" |} = Some h ∧
  destroyed twice.2
    = destroyed (env afterAB) ++ [WidgetInstance 101; WidgetInstance 101] ∧
  widgetKeys twice.1 = widgetKeys once.1.
Proof.
  assert (reachable afterAB) as Hw.
  { apply (reachable_render freshInstances 0 (scene ["A"; "B"]) newWorld).
    apply reachable_new. }
  split; [exact Hw|]. split; [by vm_compute|]. split; [by vm_compute|].
  apply (widget_handle_destroy_twice freshInstances afterAB
           (default (newRenderState 0) (stateFor freshInstances afterAB))
           "B" {| ref := 2; value := "B" |} 101).
  - exact Hw.
  - by vm_compute.
  - by vm_compute.
Defined.

(** The handle of B invoked twice after the render of [A,B], evaluated:
    two [destroy()] calls on the instance of B, and the key of A alone is
    left in [widgetKeys]. *)
Example widget_handle_twice_evaluated :
  let s := default (newRenderState 0) (stateFor freshInstances afterAB) in
  let h := WidgetHandle 101 {| ref := 2; value := "B" |} in
  let twice := destroyHandle h (destroyHandle h (s, env afterAB)) in
  destroyed twice.2 = [WidgetInstance 101; WidgetInstance 101] ∧
  widgetKeys twice.1 = [("A", {| ref := 1; value := "A" |})].
Proof. by vm_compute. Qed.

(** ** C2 and C1: the children of a projector and their removal *)

Lemma render_step registry root ids w r w' :
  reachable w → render registry root (scene ids) w = (r, w') →
  worldInv w ∧ reachable w' ∧ worldInv w' ∧
  ∃ slots s1 finished rest,
    Pass registry root ((λ v, {| widget := v |}) <$> ids) w r w'
         slots s1 finished rest.
Proof.
  intros Hw Hrender. pose proof (reachable_inv _ Hw) as Hinv.
  pose proof (render_reachable _ _ _ _ _ _ Hw Hrender) as Hw'.
  split_and!; [done | done | by apply reachable_inv |].
  by apply render_pass.
Qed.

(** C2 (the code differs).  After every fulfilled render of a scene, from
    any reachable world, the [children] entry of the projector key is the
    empty list, although every requested identifier has a key: the new keys
    are never stored. *)
Theorem render_never_records_children registry root ids w h w' :
  reachable w →
  render registry root (scene ids) w = (Fulfilled h, w') →
  ∃ state projectorKey,
    stateFor registry w' = Some state ∧
    JsMap.get (projectorKeys state) ".0" = Some projectorKey ∧
    children state !! ref projectorKey = Some [] ∧
    ∀ v, v ∈ ids → is_Some (JsMap.get (widgetKeys state) v).
Proof.
  intros Hw Hrender.
  destruct (render_step _ _ _ _ _ _ Hw Hrender)
    as (Hinv & Hw' & Hinv' & slots & s1 & finished & rest & HP).
  destruct (pass_children _ _ _ _ _ _ _ _ _ _ HP) as (pk & Hpk & Hch).
  destruct (runCallbacks_frame finished s1) as (_ & Hch' & Hpk' & _ & _).
  simpl in Hch', Hpk'.
  exists (foldl runCallback s1 finished), pk. split_and!.
  - apply (pass_state _ _ _ _ _ _ _ _ _ _ HP).
  - by rewrite Hpk', <-scene_path.
  - by rewrite Hch'.
  - intros v Hv.
    destruct (fulfilled_all_cached HP {| widget := v |}) as [x Hx].
    { apply list_elem_of_fmap. by exists v. }
    unfold cachedWidget in Hx. simpl in Hx.
    by destruct (JsMap.get (widgetKeys (foldl runCallback s1 finished)) v).
Qed.

Lemma render_never_records_children_witness :
  reachable newWorld ∧
  render freshInstances 0 (scene ["A"]) newWorld
    = (Fulfilled {| stateOf := 0 |},
       (render freshInstances 0 (scene ["A"]) newWorld).2) ∧
  ∃ state projectorKey,
    stateFor freshInstances (render freshInstances 0 (scene ["A"]) newWorld).2
      = Some state ∧
    JsMap.get (projectorKeys state) ".0" = Some projectorKey ∧
    children state !! ref projectorKey = Some [] ∧
    ∀ v, v ∈ ["A"] → is_Some (JsMap.get (widgetKeys state) v).
Proof.
  split; [apply reachable_new|]. split; [by vm_compute|].
  apply (render_never_records_children freshInstances 0 ["A"] newWorld
           {| stateOf := 0 |}).
  - apply reachable_new.
  - by vm_compute.
Defined.

(** C1 (the code differs).  With no resolution of an earlier render
    pending, after a fulfilled render of [A,B] nothing is in flight, and a
    render of [A] is fulfilled and shows A alone, but it calls no
    [destroy()], and B keeps its key, its instance and its handle in
    [widgetKeys], [widgets] and [handles]: the child that was dropped is
    neither destroyed nor evicted.  A third render, of [A,B], is fulfilled
    without any [getWidget] call and gives the projector the instances of
    the first render: B is not resolved again. *)
Theorem dropped_child_is_kept registry root A B w h1 w1 r2 w2 r3 w3 :
  reachable w → inFlight w = [] → A ≠ B →
  render registry root (scene [A; B]) w = (Fulfilled h1, w1) →
  render registry root (scene [A]) w1 = (r2, w2) →
  render registry root (scene [A; B]) w2 = (r3, w3) →
  ∃ s1 s2 s3 k a b,
    stateFor registry w1 = Some s1 ∧ stateFor registry w2 = Some s2 ∧
    stateFor registry w3 = Some s3 ∧
    sceneChildren registry w1 = Some [a; b] ∧
    installed s1 B k b ∧
    inFlight w1 = [] ∧
    r2 = Fulfilled h1 ∧ inFlight w2 = [] ∧
    sceneChildren registry w2 = Some [a] ∧
    destroyed (env w2) = destroyed (env w1) ∧
    installed s2 B k b ∧
    r3 = Fulfilled h1 ∧
    resolved (env w3) = resolved (env w2) ∧
    destroyed (env w3) = destroyed (env w1) ∧
    installed s3 B k b ∧
    sceneChildren registry w3 = Some [a; b].
Proof.
  intros Hw Hquiet Hne H1 H2 H3.
  destruct (render_step _ _ _ _ _ _ Hw H1)
    as (Hinv & Hw1 & Hinv1 & slots1 & t1 & fin1 & rest1 & HP1).
  destruct (render_step _ _ _ _ _ _ Hw1 H2)
    as (_ & Hw2 & Hinv2 & slots2 & t2 & fin2 & rest2 & HP2).
  destruct (render_step _ _ _ _ _ _ Hw2 H3)
    as (_ & Hw3 & Hinv3 & slots3 & t3 & fin3 & rest3 & HP3).
  pose proof (pass_state _ _ _ _ _ _ _ _ _ _ HP1) as Hs1.
  pose proof (pass_state _ _ _ _ _ _ _ _ _ _ HP2) as Hs2.
  pose proof (pass_state _ _ _ _ _ _ _ _ _ _ HP3) as Hs3.
  set (s1 := foldl runCallback t1 fin1) in *.
  set (s2 := foldl runCallback t2 fin2) in *.
  set (s3 := foldl runCallback t3 fin3) in *.
  destruct (fulfilled_children HP1) as [Hch1 _].
  pose proof (fulfilled_cached_children HP1) as Hcached.
  rewrite widget_scene in Hcached.
  assert (NoDup [A; B]) as Hnd.
  { apply NoDup_cons_2; [|apply NoDup_singleton].
    by intros ->%list_elem_of_singleton. }
  specialize (Hcached Hnd). fold s1 in Hcached.
  destruct (childWidget <$> omap childOf slots1) as [|a [|b [|]]];
    try (by repeat (apply Forall2_cons_inv in Hcached as [? Hcached]
                    || apply Forall2_length in Hcached)).
  apply Forall2_cons_1 in Hcached as [Ha Hcached].
  apply Forall2_cons_1 in Hcached as [Hb _]. simpl in Ha, Hb.
  destruct (cached_installed _ _ _ _ (inv_states _ Hinv1 _ _ Hs1) Hb)
    as [k Hk].
  destruct (cached_installed _ _ _ _ (inv_states _ Hinv1 _ _ Hs1) Ha)
    as [ka Hka].
  pose proof (pass_keeps_installed Hinv1 HP2 B k b) as HkB2.
  pose proof (pass_keeps_installed Hinv1 HP2 A ka a) as HkA2.
  rewrite (stateBefore_after _ _ _ _ Hs1) in HkB2, HkA2.
  specialize (HkB2 Hk). specialize (HkA2 Hka). fold s2 in HkB2, HkA2.
  pose proof (pass_keeps_installed Hinv2 HP3 B k b) as HkB3.
  rewrite (stateBefore_after _ _ _ _ Hs2) in HkB3.
  specialize (HkB3 HkB2). fold s3 in HkB3.
  destruct (pass_result _ _ _ _ _ _ _ _ _ _ HP1) as (_ & Hh1 & Hfl1 & _).
  destruct (render_all_cached registry root
              ((λ v, {| widget := v |}) <$> [A]) [a] w1 r2 w2 Hinv1)
    as (Hr2 & _ & _ & Hch2); [|exact H2|].
  { rewrite (stateBefore_after _ _ _ _ Hs1).
    constructor; [done|]. constructor. }
  assert (inFlight w2 = inFlight w1) as Hfl2.
  { pose proof (pass_result _ _ _ _ _ _ _ _ _ _ HP2) as Hres2.
    rewrite Hr2 in Hres2. by destruct Hres2 as (_ & _ & ? & _). }
  destruct (render_all_cached registry root
              ((λ v, {| widget := v |}) <$> [A; B]) [a; b] w2 r3 w3 Hinv2)
    as (Hr3 & Hres3 & Hdes3 & Hch3); [|exact H3|].
  { rewrite (stateBefore_after _ _ _ _ Hs2).
    constructor; [by eapply installed_cached|].
    constructor; [by eapply installed_cached|]. constructor. }
  exists s1, s2, s3, k, a, b.
  pose proof (pass_destroyed _ _ _ _ _ _ _ _ _ _ HP2) as Hdes2.
  split_and!; try done; congruence.
Qed.

Lemma dropped_child_is_kept_witness :
  reachable newWorld ∧ inFlight newWorld = [] ∧ "A" ≠ "B" ∧
  render freshInstances 0 (scene ["A"; "B"]) newWorld
    = (Fulfilled {| stateOf := 0 |}, afterAB) ∧
  render freshInstances 0 (scene ["A"]) afterAB
    = (Fulfilled {| stateOf := 0 |}, afterAB_A) ∧
  render freshInstances 0 (scene ["A"; "B"]) afterAB_A
    = (Fulfilled {| stateOf := 0 |}, afterAB_A_AB) ∧
  ∃ s1 s2 s3 k a b,
    stateFor freshInstances afterAB = Some s1 ∧
    stateFor freshInstances afterAB_A = Some s2 ∧
    stateFor freshInstances afterAB_A_AB = Some s3 ∧
    sceneChildren freshInstances afterAB = Some [a; b] ∧
    installed s1 "B" k b ∧
    inFlight afterAB = [] ∧
    Fulfilled {| stateOf := 0 |} = Fulfilled {| stateOf := 0 |} ∧
    inFlight afterAB_A = [] ∧
    sceneChildren freshInstances afterAB_A = Some [a] ∧
    destroyed (env afterAB_A) = destroyed (env afterAB) ∧
    installed s2 "B" k b ∧
    Fulfilled {| stateOf := 0 |} = Fulfilled {| stateOf := 0 |} ∧
    resolved (env afterAB_A_AB) = resolved (env afterAB_A) ∧
    destroyed (env afterAB_A_AB) = destroyed (env afterAB) ∧
    installed s3 "B" k b ∧
    sceneChildren freshInstances afterAB_A_AB = Some [a; b].
Proof.
  split; [apply reachable_new|]. split; [reflexivity|]. split; [done|].
  split; [by vm_compute|]. split; [by vm_compute|]. split; [by vm_compute|].
  apply (dropped_child_is_kept freshInstances 0 "A" "B" newWorld
           {| stateOf := 0 |} afterAB (Fulfilled {| stateOf := 0 |}) afterAB_A
           (Fulfilled {| stateOf := 0 |}) afterAB_A_AB).
  - apply reachable_new.
  - reflexivity.
  - done.
  - by vm_compute.
  - by vm_compute.
  - by vm_compute.
Defined.

(** The three renders [A,B], [A], [A,B] with a registry that gives a new
    instance at every call: all are fulfilled, no [destroy()] call is made,
    [getWidget] is called twice in all, and B has its first instance in the
    third render. *)
Example dropped_child_evaluated :
  render freshInstances 0 (scene ["A"; "B"]) newWorld
    = (Fulfilled {| stateOf := 0 |}, afterAB) ∧
  render freshInstances 0 (scene ["A"]) afterAB
    = (Fulfilled {| stateOf := 0 |}, afterAB_A) ∧
  render freshInstances 0 (scene ["A"; "B"]) afterAB_A
    = (Fulfilled {| stateOf := 0 |}, afterAB_A_AB) ∧
  sceneChildren freshInstances afterAB = Some [100; 101] ∧
  (widgetKeys <$> stateFor freshInstances afterAB_A)
    = Some [("A", {| ref := 1; value := "A" |});
            ("B", {| ref := 2; value := "B" |})] ∧
  destroyed (env afterAB_A_AB) = [] ∧
  resolved (env afterAB_A_AB) = ["A"; "B"] ∧
  sceneChildren freshInstances afterAB_A = Some [100] ∧
  sceneChildren freshInstances afterAB_A_AB = Some [100; 101].
Proof. by vm_compute. Qed.

(** ** C7: rendering the same tree twice *)

(** C7 as amended.  For every tree in which no identifier occurs twice,
    rendered twice in sequence on the same registry, with no resolution of
    an earlier render pending when the first render starts and the first
    render fulfilled: nothing is in flight between the two renders, the
    second render is fulfilled too and makes no [getWidget] call, the
    projector gets the same instances both times, each identifier stays
    cached with that instance, and the first render calls [getWidget] once
    for each identifier that was not cached, and not for an identifier
    that was cached or is not in the tree. *)
Theorem render_twice_reuses registry root ids w h w1 r2 w2 :
  reachable w → inFlight w = [] → NoDup ids →
  render registry root (scene ids) w = (Fulfilled h, w1) →
  render registry root (scene ids) w1 = (r2, w2) →
  ∃ s1 s2 xs,
    stateFor registry w1 = Some s1 ∧ stateFor registry w2 = Some s2 ∧
    inFlight w1 = [] ∧
    r2 = Fulfilled h ∧
    sceneChildren registry w1 = Some xs ∧
    sceneChildren registry w2 = Some xs ∧
    Forall2 (λ v x, cachedWidget s1 v = Some x ∧ cachedWidget s2 v = Some x)
      ids xs ∧
    callsSince (env w1) (env w2) = [] ∧
    sublist (callsSince (env w) (env w1)) ids ∧
    (∀ v, v ∈ ids → cachedWidget (stateBefore registry root w) v = None →
          v ∈ callsSince (env w) (env w1)) ∧
    (∀ v, is_Some (cachedWidget (stateBefore registry root w) v) →
          v ∉ callsSince (env w) (env w1)).
Proof.
  intros Hw Hquiet Hnd H1 H2.
  destruct (render_step _ _ _ _ _ _ Hw H1)
    as (Hinv & Hw1 & Hinv1 & slots1 & t1 & fin1 & rest1 & HP1).
  destruct (render_step _ _ _ _ _ _ Hw1 H2)
    as (_ & Hw2 & Hinv2 & slots2 & t2 & fin2 & rest2 & HP2).
  pose proof (pass_state _ _ _ _ _ _ _ _ _ _ HP1) as Hs1.
  pose proof (pass_state _ _ _ _ _ _ _ _ _ _ HP2) as Hs2.
  set (s1 := foldl runCallback t1 fin1) in *.
  set (s2 := foldl runCallback t2 fin2) in *.
  destruct (fulfilled_children HP1) as [Hch1 _].
  pose proof (fulfilled_cached_children HP1) as Hcached.
  rewrite widget_scene in Hcached. specialize (Hcached Hnd).
  fold s1 in Hcached.
  set (xs := childWidget <$> omap childOf slots1) in *.
  destruct (render_all_cached registry root
              ((λ v, {| widget := v |}) <$> ids) xs w1 r2 w2 Hinv1)
    as (Hr2 & Hres2 & _ & Hch2); [|exact H2|].
  { by rewrite (stateBefore_after _ _ _ _ Hs1). }
  destruct (pass_result _ _ _ _ _ _ _ _ _ _ HP1) as (_ & Hh & Hfl1 & _).
  exists s1, s2, xs. split_and!; try done.
  - by rewrite Hfl1.
  - by rewrite Hr2, Hh.
  - apply Forall2_fmap_l in Hcached. simpl in Hcached.
    eapply Forall2_impl; [exact Hcached|]. intros v x Hx. split; [done|].
    destruct (cached_installed _ _ _ _ (inv_states _ Hinv1 _ _ Hs1) Hx)
      as [k Hk].
    pose proof (pass_keeps_installed Hinv1 HP2 v k x) as Hk2.
    rewrite (stateBefore_after _ _ _ _ Hs1) in Hk2.
    by eapply installed_cached, Hk2.
  - unfold callsSince. by rewrite Hres2, drop_all.
  - pose proof (pass_calls_sublist HP1) as Hsub.
    by rewrite widget_scene in Hsub.
  - intros v Hv Hnone. apply (pass_uncached_called Hinv HP1); [|done].
    apply list_elem_of_fmap. by exists v.
  - intros v Hv. by apply (pass_cached_not_called HP1).
Qed.

Lemma render_twice_reuses_witness :
  reachable newWorld ∧ inFlight newWorld = [] ∧ NoDup ["A"; "B"] ∧
  render freshInstances 0 (scene ["A"; "B"]) newWorld
    = (Fulfilled {| stateOf := 0 |}, afterAB) ∧
  render freshInstances 0 (scene ["A"; "B"]) afterAB
    = (Fulfilled {| stateOf := 0 |},
       (render freshInstances 0 (scene ["A"; "B"]) afterAB).2) ∧
  ∃ s1 s2 xs,
    stateFor freshInstances afterAB = Some s1 ∧
    stateFor freshInstances
      (render freshInstances 0 (scene ["A"; "B"]) afterAB).2 = Some s2 ∧
    inFlight afterAB = [] ∧
    Fulfilled {| stateOf := 0 |} = Fulfilled {| stateOf := 0 |} ∧
    sceneChildren freshInstances afterAB = Some xs ∧
    sceneChildren freshInstances
      (render freshInstances 0 (scene ["A"; "B"]) afterAB).2 = Some xs ∧
    Forall2 (λ v x, cachedWidget s1 v = Some x ∧ cachedWidget s2 v = Some x)
      ["A"; "B"] xs ∧
    callsSince (env afterAB)
      (env (render freshInstances 0 (scene ["A"; "B"]) afterAB).2) = [] ∧
    sublist (callsSince (env newWorld) (env afterAB)) ["A"; "B"] ∧
    (∀ v, v ∈ ["A"; "B"] →
          cachedWidget (stateBefore freshInstances 0 newWorld) v = None →
          v ∈ callsSince (env newWorld) (env afterAB)) ∧
    (∀ v, is_Some (cachedWidget (stateBefore freshInstances 0 newWorld) v) →
          v ∉ callsSince (env newWorld) (env afterAB)).
Proof.
  assert (NoDup ["A"; "B"]) as Hnd.
  { apply NoDup_cons_2; [|apply NoDup_singleton].
    by intros ?%list_elem_of_singleton. }
  split; [apply reachable_new|]. split; [reflexivity|]. split; [exact Hnd|].
  split; [by vm_compute|]. split; [by vm_compute|].
  apply (render_twice_reuses freshInstances 0 ["A"; "B"] newWorld
           {| stateOf := 0 |} afterAB (Fulfilled {| stateOf := 0 |})
           (render freshInstances 0 (scene ["A"; "B"]) afterAB).2).
  - apply reachable_new.
  - reflexivity.
  - exact Hnd.
  - by vm_compute.
  - by vm_compute.
Defined.

Definition afterAA : World :=
  (render freshInstances 0 (scene ["A"; "A"]) newWorld).2.
Definition afterAA_AA : World :=
  (render freshInstances 0 (scene ["A"; "A"]) afterAA).2.

(** The tree [A,A], rendered twice: both renders are fulfilled, the registry
    is called twice for A, and the first position holds one instance after
    the first render and another after the second. *)
Lemma render_twice_duplicate_counterexample :
  render freshInstances 0 (scene ["A"; "A"]) newWorld
    = (Fulfilled {| stateOf := 0 |}, afterAA) ∧
  render freshInstances 0 (scene ["A"; "A"]) afterAA
    = (Fulfilled {| stateOf := 0 |}, afterAA_AA) ∧
  callsSince (env newWorld) (env afterAA_AA) = ["A"; "A"] ∧
  sceneChildren freshInstances afterAA = Some [100; 101] ∧
  sceneChildren freshInstances afterAA_AA = Some [101; 101].
Proof. by vm_compute. Qed.

(** Why nothing may be pending: the tree [A] rendered twice in a world
    where an earlier resolution of A is still in flight.  The first render
    resolves A anew; the earlier resolution then completes and replaces the
    cached instance, which is the one the second render shows. *)
Example render_twice_pending_evaluated :
  sceneChildren slowSiblings
    (render slowSiblings 0 (scene ["A"]) afterLateA).2 = Some [102] ∧
  sceneChildren slowSiblings
    (render slowSiblings 0 (scene ["A"])
       (settleInFlight (render slowSiblings 0 (scene ["A"]) afterLateA).2)).2
    = Some [100].
Proof. by vm_compute. Qed.

(** ** C6: the order of the children *)

(** Two slots that differ at most in the latency of their promise. *)
Definition slotSim (a b : Slot) : Prop :=
  match a, b with
  | Ready c, Ready c' => c = c'
  | Promised p, Promised q =>
      waitingKey p = waitingKey q ∧ waitingFor p = waitingFor q ∧
      outcome (resolution p) = outcome (resolution q)
  | _, _ => False
  end.

(** The request phase does not look at latencies. *)
Lemma requestChildren_same_outcomes registry registry' append m
    slots m1 slots' m2 :
  (∀ n v, outcome (getWidget registry' n v) = outcome (getWidget registry n v)) →
  requestChildren registry append m = (slots, m1) →
  requestChildren registry' append m = (slots', m2) →
  m2 = m1 ∧ Forall2 slotSim slots slots'.
Proof.
  intros Hsame. revert m slots m1 slots' m2.
  induction append as [|[v] append IH]; intros [s e] slots m1 slots' m2;
    cbn [requestChildren].
  - intros [= <- <-] [= <- <-]. by split.
  - assert (∃ slot slot' m', requestChild registry v (s, e) = (slot, m') ∧
              requestChild registry' v (s, e) = (slot', m') ∧
              slotSim slot slot') as (slot & slot' & m' & -> & -> & Hsim).
    { unfold requestChild.
      destruct (JsMap.get (widgetKeys s) v) as [k|]; simpl;
        (destruct (widgets s !! _); do 3 eexists;
         (split; [reflexivity|]); (split; [reflexivity|]); simpl;
         rewrite ?Hsame; by split_and?). }
    destruct (requestChildren registry append m') as [tl m1'] eqn:H1.
    destruct (requestChildren registry' append m') as [tl' m2'] eqn:H2.
    intros [= <- <-] [= <- <-].
    destruct (IH _ _ _ _ _ H1 H2) as [-> Hsims]. split; [done|].
    by constructor.
Qed.

Lemma slotSim_children slots slots' :
  Forall2 slotSim slots slots' →
  omap childOf slots' = omap childOf slots ∧
  (Forall succeeded (promised slots) → Forall succeeded (promised slots')).
Proof.
  induction 1 as [|a b slots slots' Hsim _ [IHc IHs]]; [done|].
  destruct a as [c|p], b as [c'|q]; try done; simpl in Hsim.
  - subst c'. cbn. rewrite IHc. by split.
  - destruct Hsim as (Hk & Hv & Ho). cbn. rewrite IHc, Hk, Ho. split; [done|].
    intros [Hp Hps]%Forall_cons. constructor; [|by apply IHs].
    unfold succeeded in *. by rewrite <-Ho.
Qed.

(** Latencies describe every order of completion: whatever order is
    chosen for the promises of a pass, the latencies that rank them in that
    order make them settle in it. *)
Definition settlesStrictlyBefore (p q : Waiting) : Prop :=
  latency (resolution p) < latency (resolution q).

Lemma settlesBefore_middle p before after :
  (∀ q, q ∈ before → settlesStrictlyBefore q p) →
  (∀ q, q ∈ after → settlesStrictlyBefore p q) →
  settlesBefore p (before ++ after) = before ++ p :: after.
Proof.
  intros Hbefore Hafter. induction before as [|q before IH]; simpl.
  - destruct after as [|q after]; [done|]. simpl.
    specialize (Hafter q ltac:(by left)). unfold settlesStrictlyBefore in Hafter.
    by rewrite (proj2 (Nat.leb_le _ _)) by lia.
  - pose proof (Hbefore q ltac:(by left)) as Hq.
    unfold settlesStrictlyBefore in Hq.
    rewrite (proj2 (Nat.leb_gt _ _)) by lia.
    rewrite IH; [done|]. intros q' Hq'. apply Hbefore. by right.
Qed.

Lemma completionOrder_sorted waiting order :
  StronglySorted settlesStrictlyBefore order → waiting ≡ₚ order →
  completionOrder waiting = order.
Proof.
  revert order. induction waiting as [|p waiting IH]; intros order Hs Hperm.
  - by apply Permutation_nil_l in Hperm.
  - apply Permutation_cons_inv_l in Hperm as (k1 & k2 & -> & Hperm).
    apply StronglySorted_app in Hs as (Hcross & Hs1 & Hs2).
    apply StronglySorted_cons in Hs2 as [Hafter Hs2].
    simpl. rewrite (IH (k1 ++ k2)); [|apply StronglySorted_app_2; try done|done].
    + apply settlesBefore_middle.
      * intros q Hq. apply Hcross; [done | by left].
      * intros q Hq. by eapply Forall_forall in Hafter.
    + intros x1 x2 H1 H2. apply Hcross; [done | by right].
Qed.

Definition withLatency (l : nat) (p : Waiting) : Waiting :=
  {| waitingKey := waitingKey p; waitingFor := waitingFor p;
     resolution := {| latency := l; outcome := outcome (resolution p) |} |}.

(** The promises of [order], the i-th one with latency [i]. *)
Definition ranked (order : list Waiting) : list Waiting :=
  imap withLatency order.

Lemma ranked_sorted_from n order :
  StronglySorted settlesStrictlyBefore (imap (λ i, withLatency (n + i)) order) ∧
  Forall (λ p, n ≤ latency (resolution p))
         (imap (λ i, withLatency (n + i)) order).
Proof.
  revert n. induction order as [|p order IH]; intros n.
  - split; constructor.
  - rewrite imap_cons. destruct (IH (S n)) as [Hs Hle].
    assert (imap ((λ i, withLatency (n + i)) ∘ S) order
            = imap (λ i, withLatency (S n + i)) order) as ->.
    { apply imap_ext. intros i q _. simpl. f_equal. lia. }
    split.
    + constructor; [done|]. eapply Forall_impl; [exact Hle|].
      intros q Hq. unfold settlesStrictlyBefore. simpl in *. lia.
    + constructor; [simpl; lia|]. eapply Forall_impl; [exact Hle|].
      intros q Hq. simpl in *. lia.
Qed.

Lemma any_completion_order order waiting :
  waiting ≡ₚ ranked order → completionOrder waiting = ranked order.
Proof.
  apply completionOrder_sorted. apply (ranked_sorted_from 0 order).
Qed.

(** C6.  For every reconciliation that is fulfilled, from a reachable
    world, the child collection given to the projector holds at each
    position the instance resolved for the identifier requested at that
    position (its cached instance, or the outcome of a [getWidget] call of
    this pass for it).  A registry that answers with the same outcomes after
    any other latencies, so that the resolutions complete in another order,
    leads to a fulfilled render with the same child collection. *)
Theorem children_keep_requested_order registry registry' root ids w h w1
    r' w2 :
  reachable w →
  registryRef registry' = registryRef registry →
  (∀ n v, outcome (getWidget registry' n v) = outcome (getWidget registry n v)) →
  render registry root (scene ids) w = (Fulfilled h, w1) →
  render registry' root (scene ids) w = (r', w2) →
  ∃ xs,
    sceneChildren registry w1 = Some xs ∧
    Forall2 (resolvedFor registry (stateBefore registry root w)
               (env w) (env w1)) ids xs ∧
    r' = Fulfilled h ∧
    sceneChildren registry' w2 = Some xs.
Proof.
  intros Hw Href Hsame H1 H2.
  destruct (render_step _ _ _ _ _ _ Hw H1)
    as (Hinv & _ & _ & slots1 & t1 & fin1 & rest1 & HP1).
  destruct (render_step _ _ _ _ _ _ Hw H2)
    as (_ & _ & _ & slots2 & t2 & fin2 & rest2 & HP2).
  destruct (fulfilled_children HP1) as [Hch1 _].
  pose proof (fulfilled_in_order Hinv HP1) as Horder.
  rewrite Forall2_fmap_l in Horder.
  destruct (pass_request _ _ _ _ _ _ _ _ _ _ HP1) as (e1 & Hreq1 & _).
  destruct (pass_request _ _ _ _ _ _ _ _ _ _ HP2) as (e2 & Hreq2 & _).
  assert (stateBefore registry' root w = stateBefore registry root w) as Hst
    by (unfold stateBefore, stateFor; by rewrite Href).
  pose proof (pass_result _ _ _ _ _ _ _ _ _ _ HP1) as (_ & Hh & _).
  assert (Forall succeeded (promised slots2) → ∃ h',
            r' = Fulfilled h' ∧ h' = {| stateOf := registryRef registry' |} ∧
            sceneChildren registry' w2 =
              Some (childWidget <$> omap childOf slots2)) as Hful.
  { intros Hall. pose proof (pass_result _ _ _ _ _ _ _ _ _ _ HP2) as Hres.
    destruct r' as [h'|err].
    - destruct Hres as (_ & -> & _ & Hch). by eexists.
    - destruct Hres as (q & rest' & Hrest & Hq & _). exfalso.
      assert (q ∈ promised slots2) as Hin.
      { eapply elem_of_Permutation_proper;
          [symmetry; apply completionOrder_perm|].
        rewrite (pass_order _ _ _ _ _ _ _ _ _ _ HP2), Hrest.
        apply elem_of_app. right. by left. }
      destruct (proj1 (Forall_forall _ _) Hall q Hin) as [x Hx]. congruence. }
  rewrite Hst in Hreq2.
  destruct (requestChildren_same_outcomes _ _ _ _ _ _ _ _ Hsame Hreq1 Hreq2)
    as [_ Hsim].
  destruct (slotSim_children _ _ Hsim) as [Hsame_children Hsucc].
  destruct Hful as (h' & -> & -> & Hch2).
  { apply Hsucc, Forall_forall. intros p Hp.
    by apply (fulfilled_succeeded HP1). }
  exists (childWidget <$> omap childOf slots1). split_and!.
  - exact Hch1.
  - eapply Forall2_impl; [exact Horder|]. by intros v x Hx.
  - by rewrite Hh, Href.
  - by rewrite Hch2, Hsame_children.
Qed.

Definition afterXYZ : World :=
  (render freshInstances 0 (scene ["X"; "Y"; "Z"]) newWorld).2.

Lemma children_keep_requested_order_witness :
  reachable newWorld ∧
  registryRef slowY = registryRef freshInstances ∧
  (∀ n v, outcome (getWidget slowY n v)
          = outcome (getWidget freshInstances n v)) ∧
  render freshInstances 0 (scene ["X"; "Y"; "Z"]) newWorld
    = (Fulfilled {| stateOf := 0 |}, afterXYZ) ∧
  render slowY 0 (scene ["X"; "Y"; "Z"]) newWorld
    = (Fulfilled {| stateOf := 0 |},
       (render slowY 0 (scene ["X"; "Y"; "Z"]) newWorld).2) ∧
  ∃ xs,
    sceneChildren freshInstances afterXYZ = Some xs ∧
    Forall2 (resolvedFor freshInstances (stateBefore freshInstances 0 newWorld)
               (env newWorld) (env afterXYZ)) ["X"; "Y"; "Z"] xs ∧
    Fulfilled {| stateOf := 0 |} = Fulfilled {| stateOf := 0 |} ∧
    sceneChildren slowY (render slowY 0 (scene ["X"; "Y"; "Z"]) newWorld).2
      = Some xs.
Proof.
  split; [apply reachable_new|]. split; [reflexivity|].
  split; [intros n v; reflexivity|].
  split; [by vm_compute|]. split; [by vm_compute|].
  apply (children_keep_requested_order freshInstances slowY 0
           ["X"; "Y"; "Z"] newWorld {| stateOf := 0 |} afterXYZ
           (Fulfilled {| stateOf := 0 |})
           (render slowY 0 (scene ["X"; "Y"; "Z"]) newWorld).2).
  - apply reachable_new.
  - reflexivity.
  - intros n v. reflexivity.
  - by vm_compute.
  - by vm_compute.
Defined.

(** With "Y" slow, its callback runs last, and the children are still in
    the requested order. *)
Example slow_sibling_keeps_order :
  completionOrder
    (promised (requestChildren slowY
       ((λ v, {| widget := v |}) <$> ["X"; "Y"; "Z"])
       (newRenderState 0, newEnv)).1)
    = [ {| waitingKey := {| ref := 0; value := "X" |}; waitingFor := "X";
           resolution := {| latency := 0; outcome := Some 100 |} |};
        {| waitingKey := {| ref := 2; value := "Z" |}; waitingFor := "Z";
           resolution := {| latency := 0; outcome := Some 102 |} |};
        {| waitingKey := {| ref := 1; value := "Y" |}; waitingFor := "Y";
           resolution := {| latency := 9; outcome := Some 101 |} |} ] ∧
  sceneChildren slowY (render slowY 0 (scene ["X"; "Y"; "Z"]) newWorld).2
    = Some [100; 101; 102].
Proof. by vm_compute. Qed.

(** ** C3: an identifier requested twice *)

Lemma requestChild_call registry v m slot m' :
  requestChild registry v m = (slot, m') →
  match slot with
  | Ready _ => resolved m'.2 = resolved m.2
  | Promised p =>
      resolved m'.2 = resolved m.2 ++ [v] ∧ waitingFor p = v ∧
      resolution p = getWidget registry (length (resolved m.2)) v
  end.
Proof.
  destruct m as [s e]. unfold requestChild.
  destruct (JsMap.get (widgetKeys s) v) as [k|]; simpl;
    (destruct (widgets s !! _); intros [= <- <-]; simpl; by split_and?).
Qed.

(** The promises of a pass are answered by consecutive [getWidget] calls. *)
Lemma requestChildren_calls registry append m slots m' :
  requestChildren registry append m = (slots, m') →
  ∀ j p, promised slots !! j = Some p →
    resolution p
      = getWidget registry (length (resolved m.2) + j) (waitingFor p).
Proof.
  revert m slots m'.
  induction append as [|[v] append IH]; intros m slots m';
    cbn [requestChildren].
  - by intros [= <- <-] j p.
  - destruct (requestChild registry v m) as [slot m1] eqn:Hhead.
    destruct (requestChildren registry append m1) as [tl m2] eqn:Htail.
    intros [= <- <-] j p.
    pose proof (requestChild_call _ _ _ _ _ Hhead) as Hcall.
    specialize (IH _ _ _ Htail).
    destruct slot as [c|q]; cbn.
    + rewrite <-Hcall. apply IH.
    + destruct Hcall as (Hres & Hfor & Hq). destruct j as [|j]; simpl.
      * intros [= <-]. by rewrite Nat.add_0_r, Hfor.
      * intros Hp. rewrite (IH _ _ Hp), Hres, length_app. simpl.
        f_equal. lia.
Qed.

Lemma promised_take slots i p :
  slots !! i = Some (Promised p) →
  promised slots !! length (promised (take i slots)) = Some p.
Proof.
  revert i. induction slots as [|slot slots IH]; intros [|i]; try done.
  - by intros [= ->].
  - intros Hi. specialize (IH _ Hi). by destruct slot.
Qed.

(** An identifier is uncached when no instance is stored for it. *)
Definition uncached (s : RenderState) (v : Identifier) : bool :=
  bool_decide (cachedWidget s v = None).

Lemma pass_filter registry root append w r w' slots s1 finished rest
    append' slots' :
  worldInv w →
  Pass registry root append w r w' slots s1 finished rest →
  Forall2 (λ sw, slotFor registry (stateBefore registry root w) s1
                   (env w) (env w') (widget sw)) append' slots' →
  waitingFor <$> promised slots'
    = filter (λ v, uncached (stateBefore registry root w) v)
        (widget <$> append').
Proof.
  intros Hw HP Hslots.
  induction Hslots as [|sw slot append' slots' Hslot _ IH]; [done|].
  rewrite fmap_cons. destruct slot as [c|p].
  - apply (pass_slot_ready Hw HP) in Hslot.
    rewrite filter_cons_False; [exact IH|].
    unfold uncached. rewrite Hslot. by intros ?%bool_decide_unpack.
  - pose proof Hslot as (k & _ & _ & Hfor & _).
    apply (pass_slot_promised HP) in Hslot.
    rewrite filter_cons_True by (unfold uncached; by apply bool_decide_pack).
    change (promised (Promised p :: slots')) with (p :: promised slots').
    by rewrite fmap_cons, IH, Hfor.
Qed.

(** The child at one position after a fulfilled pass. *)
Lemma fulfilled_child_at registry root ids w h w' slots s1 finished rest i v :
  worldInv w →
  Pass registry root ((λ v, {| widget := v |}) <$> ids) w (Fulfilled h) w'
       slots s1 finished rest →
  ids !! i = Some v →
  (childWidget <$> omap childOf slots) !! i =
    match cachedWidget (stateBefore registry root w) v with
    | Some x => Some x
    | None =>
        outcome (getWidget registry
          (length (resolved (env w)) +
           length (filter (λ u, uncached (stateBefore registry root w) u)
                     (take i ids))) v)
    end.
Proof.
  intros Hinv HP Hi.
  pose proof (pass_slots _ _ _ _ _ _ _ _ _ _ HP) as Hslots.
  destruct (fulfilled_children HP) as [Hch Hcs].
  assert (((λ v, {| widget := v |}) <$> ids) !! i = Some {| widget := v |})
    as Hsw by (by rewrite list_lookup_fmap, Hi).
  destruct (Forall2_lookup_l _ _ _ _ _ Hslots Hsw) as (slot & Hslot & Hfor).
  destruct (Forall2_lookup_l _ _ _ _ _ Hcs Hslot) as (c & Hc & Hchild).
  rewrite list_lookup_fmap, Hc. simpl. destruct slot as [c'|p].
  - injection Hchild as <-.
    pose proof (pass_slot_ready Hinv HP _ _ Hfor) as Hc'. simpl in Hc'.
    by rewrite Hc'.
  - pose proof (pass_slot_promised HP _ _ Hfor) as Hc'. simpl in Hc'.
    rewrite Hc'.
    destruct Hfor as (k & _ & _ & Hv & _). simpl in Hv.
    destruct (pass_request _ _ _ _ _ _ _ _ _ _ HP) as (e1 & Hreq & _).
    destruct (setupProjector (newCounter "")
                (stateBefore registry root w, env w))
      as [[pk pr] [s0 e0]] eqn:Hsetup.
    destruct (setupProjector_spec _ _ _ _ _ _
                (stateBefore_inv registry root w Hinv) Hsetup) as [_ Hsf].
    pose proof (requestChildren_calls _ _ _ _ _ Hreq _ _
                  (promised_take _ _ _ Hslot)) as Hres.
    simpl in Hres. rewrite (sf_resolved _ _ _ _ _ _ Hsf), Hv in Hres.
    assert (length (promised (take i slots))
            = length (filter (λ u, uncached (stateBefore registry root w) u)
                        (take i ids))) as Hlen.
    { pose proof (pass_filter _ _ _ _ _ _ _ _ _ _ _ _ Hinv HP
                    (Forall2_take _ _ _ i Hslots)) as Hf.
      rewrite <-fmap_take, widget_scene in Hf.
      by rewrite <-Hf, length_fmap. }
    rewrite <-Hlen, <-Hres. simpl in Hchild.
    destruct (outcome (resolution p)); [|done]. by injection Hchild as <-.
Qed.




(** ** C4 and C10: a resolution that fails *)

(** In one pass, a reference belongs to the promises of one identifier. *)
Lemma pass_same_ref registry root append w r w' slots s1 finished rest p v k :
  Pass registry root append w r w' slots s1 finished rest →
  p ∈ promised slots → (v, k) ∈ widgetKeys s1 →
  ref (waitingKey p) = ref k → waitingKey p = k ∧ waitingFor p = v.
Proof.
  intros HP Hp Hk Href.
  destruct (pass_promised HP p Hp) as (Hpk & _).
  pose proof (pass_inv _ _ _ _ _ _ _ _ _ _ HP) as Hinv1.
  destruct (stateInv_keyOk _ _ _ _ Hinv1 Hk) as (_ & _ & Huniq).
  pose proof (Huniq _ _ Hpk Href) as Hsame. split; [done|].
  destruct (inv_widgetKeys _ _ Hinv1 _ _ Hk) as (Hval & _).
  destruct (inv_widgetKeys _ _ Hinv1 _ _ Hpk) as (Hval' & _).
  congruence.
Qed.

Lemma pass_rest_promised registry root append w r w' slots s1 finished rest q :
  Pass registry root append w r w' slots s1 finished rest →
  q ∈ rest → q ∈ promised slots.
Proof.
  intros HP Hq. eapply elem_of_Permutation_proper;
    [symmetry; apply completionOrder_perm|].
  rewrite (pass_order _ _ _ _ _ _ _ _ _ _ HP). apply elem_of_app. by right.
Qed.

Lemma stateFor_same_ref registry registry' w :
  registryRef registry' = registryRef registry →
  stateFor registry' w = stateFor registry w.
Proof. unfold stateFor. by intros ->. Qed.

(** C4 as amended.  With no resolution of an earlier render pending, when
    an identifier is requested and not cached and the registry rejects
    every resolution this render starts for it: [getWidget] is called for
    it, the render is rejected with the failure of a requested identifier,
    and a key for the identifier is in [widgetKeys] afterwards, with no
    widget and no handle stored under it, however many of the promises
    left in flight have settled since; the next render that requests the
    identifier finds that same key and calls [getWidget] for it again. *)
Theorem failed_resolution_keeps_key registry root ids v w r w' :
  reachable w → inFlight w = [] → v ∈ ids →
  cachedWidget (stateBefore registry root w) v = None →
  (∀ n, length (resolved (env w)) ≤ n → resolved (env w') !! n = Some v →
        outcome (getWidget registry n v) = None) →
  render registry root (scene ids) w = (r, w') →
  ∃ k u,
    r = Rejected (ResolutionFailed u) ∧ u ∈ ids ∧
    v ∈ callsSince (env w) (env w') ∧
    ∀ n, ∃ s',
      stateFor registry (settleN n w') = Some s' ∧
      JsMap.get (widgetKeys s') v = Some k ∧
      widgets s' !! ref k = None ∧ handles s' !! ref k = None ∧
      ∀ registry' root' ids' r' w'',
        registryRef registry' = registryRef registry → v ∈ ids' →
        render registry' root' (scene ids') (settleN n w') = (r', w'') →
        v ∈ callsSince (env (settleN n w')) (env w'') ∧
        ∃ s'', stateFor registry' w'' = Some s'' ∧
               JsMap.get (widgetKeys s'') v = Some k.
Proof.
  intros Hw Hquiet Hv Hnone Hfail Hrender.
  destruct (render_step _ _ _ _ _ _ Hw Hrender)
    as (Hinv & Hw' & Hinv' & slots & s1 & finished & rest & HP).
  pose proof (pass_state _ _ _ _ _ _ _ _ _ _ HP) as Hs'.
  set (s' := foldl runCallback s1 finished) in *.
  assert ({| widget := v |} ∈ (λ v, {| widget := v |}) <$> ids) as Hsw.
  { apply list_elem_of_fmap. by exists v. }
  (* the promises made for [v] fail *)
  pose proof (pass_uncached_called Hinv HP v Hsw Hnone) as Hcalled.
  pose proof Hcalled as Hcalled'.
  rewrite (pass_callsSince HP) in Hcalled'.
  apply list_elem_of_fmap in Hcalled' as (p0 & Hv0 & Hp0).
  assert (∀ p, p ∈ promised slots → waitingFor p = v → ¬ succeeded p)
    as Hfails.
  { intros p Hp Hfor [x Hx].
    destruct (pass_promised HP p Hp) as (_ & _ & _ & n & Hn & Hcall & Hres).
    rewrite Hfor in Hcall, Hres. rewrite Hres, (Hfail n Hn Hcall) in Hx.
    done. }
  destruct (pass_promised HP p0 Hp0) as (Hk0 & Hw0 & _).
  rewrite <-Hv0 in Hk0. set (k := waitingKey p0) in *.
  assert (widgets s' !! ref k = None ∧ handles s' !! ref k = None)
    as [Hwk Hhk].
  { unfold s'. destruct (runCallbacks_other finished s1 (ref k)) as [-> ->].
    { intros p Hp%(pass_finished_promised HP) Hsucc Href.
      destruct (pass_same_ref _ _ _ _ _ _ _ _ _ _ p v k HP Hp Hk0 Href)
        as [_ Hfor].
      by apply (Hfails p Hp Hfor). }
    pose proof (inv_cached _ _ (pass_inv _ _ _ _ _ _ _ _ _ _ HP) _ _ Hk0)
      as Hc.
    rewrite (pass_widgets _ _ _ _ _ _ _ _ _ _ HP), Hw0 in Hc.
    by rewrite (pass_widgets _ _ _ _ _ _ _ _ _ _ HP). }
  assert (JsMap.get (widgetKeys s') v = Some k) as Hget
    by (by apply (pass_get_live HP)).
  (* so the render is rejected, and no promise left in flight is
     fulfilled for the key *)
  assert (∃ u, r = Rejected (ResolutionFailed u) ∧ u ∈ ids ∧
            ∀ p, (registryRef registry, p) ∈ inFlight w' → succeeded p →
                 ref (waitingKey p) ≠ ref k)
    as (u & -> & Hu & Hlater).
  { pose proof (pass_result _ _ _ _ _ _ _ _ _ _ HP) as Hres.
    destruct r as [h|err].
    - exfalso. apply (Hfails p0 Hp0); [done|].
      by apply (fulfilled_succeeded HP).
    - destruct Hres as (q & rest' & Hrest & _ & -> & Hfl).
      exists (waitingFor q).
      assert (∀ p, p ∈ rest → p ∈ promised slots) as Hrestp.
      { intros p. apply (pass_rest_promised _ _ _ _ _ _ _ _ _ _ p HP). }
      split_and!; [done | |].
      + destruct (pass_promised HP q) as (_ & _ & Hin & _).
        { apply Hrestp. rewrite Hrest. by left. }
        apply list_elem_of_fmap in Hin as (u & [= ->] & Hu). done.
      + intros p Hp Hsucc Href. rewrite Hfl, Hquiet in Hp. simpl in Hp.
        apply list_elem_of_fmap in Hp as (p' & [= <-] & Hp').
        assert (p ∈ promised slots) as Hpp.
        { apply Hrestp. rewrite Hrest. by right. }
        destruct (pass_same_ref _ _ _ _ _ _ _ _ _ _ p v k HP Hpp Hk0 Href)
          as [_ Hfor].
        by apply (Hfails p Hpp Hfor). }
  exists k, u. split_and!; try done.
  intros n.
  destruct (settleN_frame n w' _ _ Hs') as (sn & Hsn & _ & _ & _ & _ & Hkn & Hwn).
  destruct (Hwn _ Hlater) as [Hwkn Hhkn].
  exists sn. split_and!; [done | congruence | congruence | congruence |].
  intros registry' root' ids' r' w'' Href Hv' Hnext.
  pose proof (settleN_reachable n w' Hw') as Hreach.
  destruct (render_step _ _ _ _ _ _ Hreach Hnext)
    as (Hinvn & _ & _ & slots2 & s2 & finished2 & rest2 & HP2).
  assert (stateBefore registry' root' (settleN n w') = sn) as Hbefore.
  { apply stateBefore_after. by rewrite (stateFor_same_ref _ _ _ Href). }
  split.
  - apply (pass_uncached_called Hinvn HP2).
    + apply list_elem_of_fmap. by exists v.
    + rewrite Hbefore. unfold cachedWidget. rewrite Hkn, Hget. simpl.
      congruence.
  - eexists. split; [apply (pass_state _ _ _ _ _ _ _ _ _ _ HP2)|].
    apply (pass_get_old HP2). rewrite Hbefore. congruence.
Qed.

Definition afterFailedB : World :=
  (render withoutB 0 (scene ["B"]) newWorld).2.

Lemma failed_resolution_keeps_key_witness :
  reachable newWorld ∧ inFlight newWorld = [] ∧ "B" ∈ ["B"] ∧
  cachedWidget (stateBefore withoutB 0 newWorld) "B" = None ∧
  (∀ n, length (resolved (env newWorld)) ≤ n →
        resolved (env afterFailedB) !! n = Some "B" →
        outcome (getWidget withoutB n "B") = None) ∧
  render withoutB 0 (scene ["B"]) newWorld
    = (Rejected (ResolutionFailed "B"), afterFailedB) ∧
  ∃ k u,
    @Rejected SceneHandle (ResolutionFailed "B")
      = Rejected (ResolutionFailed u) ∧
    u ∈ ["B"] ∧
    "B" ∈ callsSince (env newWorld) (env afterFailedB) ∧
    ∀ n, ∃ s',
      stateFor withoutB (settleN n afterFailedB) = Some s' ∧
      JsMap.get (widgetKeys s') "B" = Some k ∧
      widgets s' !! ref k = None ∧ handles s' !! ref k = None ∧
      ∀ registry' root' ids' r' w'',
        registryRef registry' = registryRef withoutB → "B" ∈ ids' →
        render registry' root' (scene ids') (settleN n afterFailedB)
          = (r', w'') →
        "B" ∈ callsSince (env (settleN n afterFailedB)) (env w'') ∧
        ∃ s'', stateFor registry' w'' = Some s'' ∧
               JsMap.get (widgetKeys s'') "B" = Some k.
Proof.
  split; [apply reachable_new|]. split; [reflexivity|]. split; [by left|].
  split; [reflexivity|].
  split; [intros n _ _; reflexivity|]. split; [by vm_compute|].
  apply (failed_resolution_keeps_key withoutB 0 ["B"] "B" newWorld
           (Rejected (ResolutionFailed "B")) afterFailedB).
  - apply reachable_new.
  - reflexivity.
  - by left.
  - reflexivity.
  - intros n _ _. reflexivity.
  - by vm_compute.
Defined.

(** A render of [B] whose resolution fails leaves a key for B in
    [widgetKeys]. *)
Lemma failed_resolution_counterexample :
  render withoutB 0 (scene ["B"]) newWorld
    = (Rejected (ResolutionFailed "B"), afterFailedB) ∧
  (widgetKeys <$> stateFor withoutB afterFailedB)
    = Some [("B", {| ref := 1; value := "B" |})].
Proof. by vm_compute. Qed.

(** The first call fails, every other call is fulfilled. *)
Definition firstFails : ReadOnlyRegistry :=
  {| registryRef := 0;
     getWidget := λ n _,
       {| latency := 0;
          outcome := if n =? 0 then None else Some (100 + n) |} |}.

(** Why every resolution for the identifier has to fail: the tree [A,A]
    with a registry that rejects the first call only.  The render is
    rejected with the failure of A, but the second resolution stores an
    instance for A when it completes, and a later render makes no call. *)
Example failed_resolution_of_one_occurrence :
  render firstFails 0 (scene ["A"; "A"]) newWorld
    = (Rejected (ResolutionFailed "A"),
       (render firstFails 0 (scene ["A"; "A"]) newWorld).2) ∧
  (s ← stateFor firstFails
         (settleAll (render firstFails 0 (scene ["A"; "A"]) newWorld).2);
   cachedWidget s "A") = Some 101 ∧
  callsSince
    (env (settleAll (render firstFails 0 (scene ["A"; "A"]) newWorld).2))
    (env (render firstFails 0 (scene ["A"])
            (settleAll
               (render firstFails 0 (scene ["A"; "A"]) newWorld).2)).2) = [].
Proof. by vm_compute. Qed.

(** The completion order is sorted by latency. *)
Definition settlesNoLater (p q : Waiting) : Prop :=
  latency (resolution p) ≤ latency (resolution q).

Lemma settlesBefore_sorted p queue :
  StronglySorted settlesNoLater queue →
  StronglySorted settlesNoLater (settlesBefore p queue).
Proof.
  induction 1 as [|q queue Hs IH Hq]; simpl.
  - repeat constructor.
  - destruct (latency (resolution p) <=? latency (resolution q)) eqn:Hle.
    + apply Nat.leb_le in Hle. constructor; [by constructor|].
      constructor; [done|]. eapply Forall_impl; [exact Hq|].
      intros r Hr. unfold settlesNoLater in *. lia.
    + apply Nat.leb_gt in Hle. constructor; [done|].
      apply Forall_forall. intros r Hr.
      rewrite settlesBefore_perm in Hr.
      apply elem_of_cons in Hr as [->|Hr].
      * unfold settlesNoLater. lia.
      * by eapply Forall_forall in Hq.
Qed.

Lemma completionOrder_sorted_by_latency waiting :
  StronglySorted settlesNoLater (completionOrder waiting).
Proof.
  induction waiting as [|p waiting IH]; simpl; [constructor|].
  by apply settlesBefore_sorted.
Qed.

(** A promise that is fulfilled, and settles strictly before every promise
    that is rejected, settles before the promise of [render] does. *)
Lemma pass_settled_first registry root append w err w' slots s1 finished
    rest p :
  Pass registry root append w (Rejected err) w' slots s1 finished rest →
  p ∈ promised slots → succeeded p →
  (∀ q, q ∈ promised slots → outcome (resolution q) = None →
        settlesStrictlyBefore p q) →
  p ∈ finished.
Proof.
  intros HP Hp Hsucc Hfirst.
  destruct (pass_result _ _ _ _ _ _ _ _ _ _ HP)
    as (q & rest' & -> & Hq & _).
  pose proof (completionOrder_sorted_by_latency (promised slots)) as Hsorted.
  rewrite (pass_order _ _ _ _ _ _ _ _ _ _ HP) in Hsorted.
  assert (p ∈ finished ++ q :: rest') as Hin.
  { rewrite <-(pass_order _ _ _ _ _ _ _ _ _ _ HP).
    by rewrite completionOrder_perm. }
  apply elem_of_app in Hin as [?|Hin]; [done|]. exfalso.
  assert (q ∈ promised slots) as Hqp.
  { apply (pass_rest_promised _ _ _ _ _ _ _ _ _ _ q HP). by left. }
  specialize (Hfirst q Hqp Hq). unfold settlesStrictlyBefore in Hfirst.
  apply elem_of_cons in Hin as [->|Hin].
  - destruct Hsucc as [? ?]. congruence.
  - apply StronglySorted_app_1_r, StronglySorted_cons in Hsorted as [Hle _].
    eapply Forall_forall in Hle; [|exact Hin].
    unfold settlesNoLater in Hle. lia.
Qed.

(** An installed identifier is reused by the next render: no call is made
    for it, its entries stay, and it is the child wherever it is
    requested. *)
Lemma installed_is_reused registry root ids w r w' s u k x :
  reachable w → stateFor registry w = Some s → installed s u k x →
  render registry root (scene ids) w = (r, w') →
  (u ∉ callsSince (env w) (env w')) ∧
  (∃ s', stateFor registry w' = Some s' ∧ installed s' u k x) ∧
  ∀ h, r = Fulfilled h →
    ∃ xs, sceneChildren registry w' = Some xs ∧
      ∀ i, ids !! i = Some u → xs !! i = Some x.
Proof.
  intros Hw Hs Hk Hrender.
  destruct (render_step _ _ _ _ _ _ Hw Hrender)
    as (Hinv & _ & _ & slots & s1 & finished & rest & HP).
  pose proof (stateBefore_after registry root w s Hs) as Hst.
  pose proof (installed_cached _ _ _ _ Hk) as Hcached.
  split_and!.
  - apply (pass_cached_not_called HP). rewrite Hst, Hcached. by eexists.
  - eexists. split; [apply (pass_state _ _ _ _ _ _ _ _ _ _ HP)|].
    apply (pass_keeps_installed Hinv HP). by rewrite Hst.
  - intros h ->. destruct (fulfilled_children HP) as [Hch _].
    eexists. split; [exact Hch|]. intros i Hi.
    rewrite (fulfilled_child_at _ _ _ _ _ _ _ _ _ _ _ _ Hinv HP Hi).
    by rewrite Hst, Hcached.
Qed.

(** C10 as amended.  With no resolution of an earlier render pending,
    when a render is rejected because a resolution failed, a sibling
    identifier that was requested and not cached, and whose resolutions of
    this render the registry fulfils (within the latency [soon]) strictly
    before every resolution of this render that fails, has its new entries
    in [widgetKeys], [widgets] and [handles] after the rejected render,
    with an instance [x] that a [getWidget] call of this render returned.
    No promise left in flight is for its key, so the entries stay as they
    are however many of those promises have settled since; a later render
    makes no [getWidget] call for it, keeps those entries, and, when
    fulfilled, has [x] at every position where the identifier is
    requested. *)
Theorem failed_render_keeps_resolved_siblings registry root ids u soon w
    err w' :
  reachable w → inFlight w = [] → u ∈ ids →
  cachedWidget (stateBefore registry root w) u = None →
  (∀ n, length (resolved (env w)) ≤ n → resolved (env w') !! n = Some u →
        is_Some (outcome (getWidget registry n u)) ∧
        latency (getWidget registry n u) ≤ soon) →
  (∀ n v, length (resolved (env w)) ≤ n → resolved (env w') !! n = Some v →
          outcome (getWidget registry n v) = None →
          soon < latency (getWidget registry n v)) →
  render registry root (scene ids) w = (Rejected err, w') →
  ∃ k x,
    (∃ n, length (resolved (env w)) ≤ n ∧
          resolved (env w') !! n = Some u ∧
          outcome (getWidget registry n u) = Some x) ∧
    (∀ p, (registryRef registry, p) ∈ inFlight w' →
          ref (waitingKey p) ≠ ref k) ∧
    ∀ m, ∃ s',
      stateFor registry (settleN m w') = Some s' ∧ installed s' u k x ∧
      ∀ registry' root' ids' r' w'',
        registryRef registry' = registryRef registry →
        render registry' root' (scene ids') (settleN m w') = (r', w'') →
        (u ∉ callsSince (env (settleN m w')) (env w'')) ∧
        (∃ s'', stateFor registry' w'' = Some s'' ∧ installed s'' u k x) ∧
        ∀ h, r' = Fulfilled h →
          ∃ xs, sceneChildren registry' w'' = Some xs ∧
            ∀ i, ids' !! i = Some u → xs !! i = Some x.
Proof.
  intros Hw Hquiet Hu Hnone Hsoon Hlate Hrender.
  destruct (render_step _ _ _ _ _ _ Hw Hrender)
    as (Hinv & Hw' & Hinv' & slots & s1 & finished & rest & HP).
  pose proof (pass_state _ _ _ _ _ _ _ _ _ _ HP) as Hs'.
  (* the promises made for [u] are fulfilled, before the failure *)
  assert ({| widget := u |} ∈ (λ v, {| widget := v |}) <$> ids) as Hsw.
  { apply list_elem_of_fmap. by exists u. }
  pose proof (pass_uncached_called Hinv HP u Hsw Hnone) as Hcalled.
  rewrite (pass_callsSince HP) in Hcalled.
  apply list_elem_of_fmap in Hcalled as (p & Hfor & Hp).
  assert (∀ p', p' ∈ promised slots → waitingFor p' = u →
            succeeded p' ∧ latency (resolution p') ≤ soon) as Hu_soon.
  { intros p' Hp' Hfor'.
    destruct (pass_promised HP p' Hp') as (_ & _ & _ & n & Hn & Hcall & Hres).
    rewrite Hfor' in Hcall, Hres. unfold succeeded. rewrite Hres.
    by apply Hsoon. }
  assert (∀ q, q ∈ promised slots → outcome (resolution q) = None →
            soon < latency (resolution q)) as Hfail_late.
  { intros q Hq Hfail.
    destruct (pass_promised HP q Hq) as (_ & _ & _ & n & Hn & Hcall & Hres).
    rewrite Hres in Hfail |- *. by eapply Hlate. }
  destruct (pass_promised HP p Hp) as (Hk & _).
  rewrite <-Hfor in Hk.
  destruct (Hu_soon p Hp (eq_sym Hfor)) as [Hsucc Hlat].
  assert (p ∈ finished) as Hfin.
  { apply (pass_settled_first _ _ _ _ _ _ _ _ _ _ _ HP Hp Hsucc).
    intros q Hq Hfail. specialize (Hfail_late q Hq Hfail).
    unfold settlesStrictlyBefore. lia. }
  (* so its callback has run: the entries are there *)
  destruct (runCallbacks_written finished s1 p Hfin Hsucc)
    as (q & x & Hq & Href & Hqx & Hwq & Hhq).
  pose proof (pass_finished_promised HP q Hq) as Hqp.
  destruct (pass_same_ref _ _ _ _ _ _ _ _ _ _ q u (waitingKey p) HP Hqp Hk
              Href) as [Hkey Hqfor].
  destruct (pass_promised HP q Hqp) as (_ & _ & _ & n' & Hn' & Hcall & Hres').
  rewrite Hres', Hqfor in Hqx. rewrite Hqfor in Hcall.
  assert (installed (foldl runCallback s1 finished) u (waitingKey p) x)
    as Hinst.
  { split_and!; [by apply (pass_get_live HP) | done | by rewrite Hhq, Hkey]. }
  (* and no promise left in flight is for the key *)
  assert (∀ p', (registryRef registry, p') ∈ inFlight w' →
            ref (waitingKey p') ≠ ref (waitingKey p)) as Hlater.
  { intros p' Hp' Href'.
    destruct (pass_result _ _ _ _ _ _ _ _ _ _ HP)
      as (q0 & rest' & Hrest & Hq0 & _ & Hfl).
    rewrite Hfl, Hquiet in Hp'. simpl in Hp'.
    apply list_elem_of_fmap in Hp' as (p'' & [= <-] & Hp'').
    assert (∀ y, y ∈ rest → y ∈ promised slots) as Hrestp.
    { intros y. apply (pass_rest_promised _ _ _ _ _ _ _ _ _ _ y HP). }
    assert (p' ∈ promised slots) as Hpp
      by (apply Hrestp; rewrite Hrest; by right).
    assert (q0 ∈ promised slots) as Hq0p
      by (apply Hrestp; rewrite Hrest; by left).
    destruct (pass_same_ref _ _ _ _ _ _ _ _ _ _ p' u (waitingKey p) HP Hpp Hk
                Href') as [_ Hfor'].
    destruct (Hu_soon p' Hpp Hfor') as [_ Hlat'].
    specialize (Hfail_late q0 Hq0p Hq0).
    pose proof (completionOrder_sorted_by_latency (promised slots)) as Hsorted.
    rewrite (pass_order _ _ _ _ _ _ _ _ _ _ HP), Hrest in Hsorted.
    apply StronglySorted_app_1_r, StronglySorted_cons in Hsorted as [Hle _].
    eapply Forall_forall in Hle; [|exact Hp''].
    unfold settlesNoLater in Hle. lia. }
  exists (waitingKey p), x. split; [by exists n'|]. split; [exact Hlater|].
  intros m.
  destruct (settleN_installed m w' registry _ _ _ _ Hs' Hinst)
    as (sm & Hsm & Hinstm).
  { intros p' Hp' _. by apply Hlater. }
  exists sm. split; [done|]. split; [done|].
  intros registry' root' ids' r' w'' Hsame Hnext.
  eapply installed_is_reused;
    [exact (settleN_reachable m w' Hw') | | exact Hinstm | exact Hnext].
  by rewrite (stateFor_same_ref _ _ _ Hsame).
Qed.

(** "A" resolves at once, "B" fails later: the render of [A,B] is rejected
    after the callback of A has run. *)
Definition afterFailedAB : World :=
  (render withoutB 0 (scene ["A"; "B"]) newWorld).2.

Lemma failed_render_keeps_resolved_siblings_witness :
  reachable newWorld ∧ inFlight newWorld = [] ∧ "A" ∈ ["A"; "B"] ∧
  cachedWidget (stateBefore withoutB 0 newWorld) "A" = None ∧
  (∀ n, length (resolved (env newWorld)) ≤ n →
        resolved (env afterFailedAB) !! n = Some "A" →
        is_Some (outcome (getWidget withoutB n "A")) ∧
        latency (getWidget withoutB n "A") ≤ 0) ∧
  (∀ n v, length (resolved (env newWorld)) ≤ n →
          resolved (env afterFailedAB) !! n = Some v →
          outcome (getWidget withoutB n v) = None →
          0 < latency (getWidget withoutB n v)) ∧
  render withoutB 0 (scene ["A"; "B"]) newWorld
    = (Rejected (ResolutionFailed "B"), afterFailedAB) ∧
  ∃ k x,
    (∃ n, length (resolved (env newWorld)) ≤ n ∧
          resolved (env afterFailedAB) !! n = Some "A" ∧
          outcome (getWidget withoutB n "A") = Some x) ∧
    (∀ p, (registryRef withoutB, p) ∈ inFlight afterFailedAB →
          ref (waitingKey p) ≠ ref k) ∧
    ∀ m, ∃ s',
      stateFor withoutB (settleN m afterFailedAB) = Some s' ∧
      installed s' "A" k x ∧
      ∀ registry' root' ids' r' w'',
        registryRef registry' = registryRef withoutB →
        render registry' root' (scene ids') (settleN m afterFailedAB)
          = (r', w'') →
        ("A" ∉ callsSince (env (settleN m afterFailedAB)) (env w'')) ∧
        (∃ s'', stateFor registry' w'' = Some s'' ∧ installed s'' "A" k x) ∧
        ∀ h, r' = Fulfilled h →
          ∃ xs, sceneChildren registry' w'' = Some xs ∧
            ∀ i, ids' !! i = Some "A" → xs !! i = Some x.
Proof.
  assert (∀ n, length (resolved (env newWorld)) ≤ n →
            resolved (env afterFailedAB) !! n = Some "A" →
            is_Some (outcome (getWidget withoutB n "A")) ∧
            latency (getWidget withoutB n "A") ≤ 0) as Hsoon.
  { intros n _ _. split; [by eexists | simpl; lia]. }
  assert (∀ n v, length (resolved (env newWorld)) ≤ n →
            resolved (env afterFailedAB) !! n = Some v →
            outcome (getWidget withoutB n v) = None →
            0 < latency (getWidget withoutB n v)) as Hlate.
  { intros n v _ _. simpl. case_decide; [simpl; lia | done]. }
  split; [apply reachable_new|]. split; [reflexivity|]. split; [by left|].
  split; [reflexivity|].
  split; [exact Hsoon|]. split; [exact Hlate|]. split; [by vm_compute|].
  apply (failed_render_keeps_resolved_siblings withoutB 0 ["A"; "B"] "A" 0
           newWorld (ResolutionFailed "B") afterFailedAB).
  - apply reachable_new.
  - reflexivity.
  - by left.
  - reflexivity.
  - exact Hsoon.
  - exact Hlate.
  - by vm_compute.
Defined.

(** The failing input of the example, evaluated: after the rejected render
    of [A,B], a render of [A] calls the registry for nothing. *)
Example failed_render_then_retry :
  callsSince (env afterFailedAB)
    (env (render withoutB 0 (scene ["A"]) afterFailedAB).2) = [] ∧
  sceneChildren withoutB (render withoutB 0 (scene ["A"]) afterFailedAB).2
    = Some [100].
Proof. by vm_compute. Qed.

(** A rejected render of [A,B] that leaves the first resolution of A in
    flight, and a second render of [A,B], rejected as well, in which A is
    resolved before B fails. *)
Definition afterPendingA : World :=
  (render catchingUp 0 (scene ["A"; "B"]) newWorld).2.
Definition afterPendingA_AB : World :=
  (render catchingUp 0 (scene ["A"; "B"]) afterPendingA).2.

(** The second render stores the instance 102 for A, which was resolved
    before the failure of B; the resolution left pending by the first
    render then completes and replaces it by the instance 100, which is
    the one a later render shows. *)
Lemma failed_render_pending_counterexample :
  reachable afterPendingA ∧
  (waitingFor ∘ snd <$> inFlight afterPendingA) = ["A"] ∧
  render catchingUp 0 (scene ["A"; "B"]) afterPendingA
    = (Rejected (ResolutionFailed "B"), afterPendingA_AB) ∧
  callsSince (env afterPendingA) (env afterPendingA_AB) = ["A"; "B"] ∧
  (s ← stateFor catchingUp afterPendingA_AB; cachedWidget s "A") = Some 102 ∧
  (s ← stateFor catchingUp (settleInFlight afterPendingA_AB);
   cachedWidget s "A") = Some 100 ∧
  sceneChildren catchingUp
    (render catchingUp 0 (scene ["A"]) (settleInFlight afterPendingA_AB)).2
    = Some [100].
Proof.
  split.
  { apply (reachable_render catchingUp 0 (scene ["A"; "B"]) newWorld).
    apply reachable_new. }
  by vm_compute.
Qed.

(** ** C8: destroying the handle of a scene *)

Lemma JsMap_delete_all {K V} `{EqDecision K} (m : JsMap.t K V) :
  NoDup m.*1 → foldl JsMap.delete m m.*1 = [].
Proof.
  induction m as [|[k v] m IH]; [done|]. intros [_ Hnd]%NoDup_cons.
  simpl. rewrite decide_True by done. by apply IH.
Qed.

(** [forEach] over [projectorKeys]: every entry has its handle, which
    deletes the entry. *)
Lemma destroyEach_projectorKeys entries s e :
  NoDup entries.*1 →
  (∀ i k, (i, k) ∈ entries →
     JsMap.get (projectorKeys s) i = Some k ∧ value k = i ∧
     handles s !! ref k = Some (ProjectorHandle k)) →
  destroyEach projectorKeys entries (s, e)
    = (set_projectorKeys (λ m, foldl JsMap.delete m entries.*1) s, e).
Proof.
  revert s. induction entries as [|[i k] entries IH]; intros s Hnd Hall;
    cbn [destroyEach fst].
  - by destruct s.
  - apply NoDup_cons in Hnd as [Hi Hnd].
    destruct (Hall i k) as (Hget & Hval & Hh); [by left|].
    unfold JsMap.has. rewrite Hget, Hh. cbn [destroyHandle]. rewrite Hval.
    rewrite IH; [done | done |].
    intros i' k' Hin. destruct (Hall i' k') as (Hget' & Hval' & Hh');
      [by right|].
    split_and!; try done. simpl. rewrite JsMap_get_delete_ne; [done|].
    intros ->. apply Hi. apply list_elem_of_fmap. by exists (i', k').
Qed.

(** The instances stored for the entries of [widgetKeys], in the order of
    the map. *)
Definition instancesOf (s : RenderState) (entries : list (Identifier * Key))
    : list WidgetLike :=
  omap (λ entry, widgets s !! ref entry.2) entries.

Definition cachedInstances (s : RenderState) : list WidgetLike :=
  instancesOf s (widgetKeys s).

Definition withInstance (s : RenderState) (entries : list (Identifier * Key))
    : list (Identifier * Key) :=
  filter (λ entry, is_Some (widgets s !! ref entry.2)) entries.

(** [forEach] over [widgetKeys]: an entry with an instance has its handle,
    which destroys the instance and deletes the entry; an entry without
    instance has no handle and is skipped. *)
Lemma destroyEach_widgetKeys (entries : list (string * Key)) s e :
  NoDup entries.*1 →
  (∀ v k, (v, k) ∈ entries →
     JsMap.get (widgetKeys s) v = Some k ∧ value k = v ∧
     match widgets s !! ref k with
     | Some x => handles s !! ref k = Some (WidgetHandle x k)
     | None => handles s !! ref k = None
     end) →
  destroyEach widgetKeys entries (s, e)
    = (set_widgetKeys
         (λ m, foldl JsMap.delete m (withInstance s entries).*1) s,
       set_destroyed
         (destroyed e ++ (WidgetInstance <$> instancesOf s entries)) e).
Proof.
  revert s e. induction entries as [|[v k] entries IH]; intros s e Hnd Hall;
    cbn [destroyEach fst].
  - unfold set_destroyed. simpl. rewrite app_nil_r. by destruct s, e.
  - apply NoDup_cons in Hnd as [Hv Hnd].
    destruct (Hall v k) as (Hget & Hval & Hh); [by left|].
    unfold Identifier in Hget. unfold JsMap.has. rewrite Hget.
    unfold instancesOf, withInstance. cbn [omap list_omap snd].
    destruct (widgets s !! ref k) as [x|] eqn:Hx; rewrite Hh.
    + cbn [destroyHandle]. rewrite Hval.
      rewrite filter_cons_True by (simpl; by rewrite Hx).
      rewrite IH; [|done|].
      * unfold set_destroyed, instancesOf, withInstance. simpl.
        by rewrite <-app_assoc.
      * intros v' k' Hin. destruct (Hall v' k') as (Hget' & Hval' & Hh');
          [by right|].
        split_and!; try done. simpl. rewrite JsMap_get_delete_ne; [done|].
        intros ->. apply Hv. apply list_elem_of_fmap. by exists (v', k').
    + rewrite filter_cons_False by (simpl; rewrite Hx; by intros [? ?]).
      rewrite IH; [done | done |].
      intros v' k' Hin. apply Hall. by right.
Qed.

Lemma destroyScene_spec e s :
  stateInv e s →
  destroyScene (s, e)
    = (set_widgetKeys
         (λ m, foldl JsMap.delete m (withInstance s (widgetKeys s)).*1)
         (set_projectorKeys (λ _, []) s),
       set_destroyed
         (destroyed e ++ (WidgetInstance <$> cachedInstances s)) e).
Proof.
  intros Hinv. unfold destroyScene. cbn [fst].
  rewrite destroyEach_projectorKeys.
  - cbn [fst]. rewrite destroyEach_widgetKeys.
    + unfold set_projectorKeys, set_widgetKeys, cachedInstances. simpl.
      rewrite (JsMap_delete_all (projectorKeys s)); [done|].
      apply (inv_projectorKeys_nodup _ _ Hinv).
    + apply (inv_widgetKeys_nodup _ _ Hinv).
    + intros v k Hk. simpl in Hk. simpl. split_and!.
      * apply JsMap_elem_get; [apply (inv_widgetKeys_nodup _ _ Hinv) | done].
      * by destruct (inv_widgetKeys _ _ Hinv _ _ Hk).
      * by eapply inv_cached.
  - apply (inv_projectorKeys_nodup _ _ Hinv).
  - intros i k Hk. split_and!.
    + apply JsMap_elem_get; [apply (inv_projectorKeys_nodup _ _ Hinv) | done].
    + by destruct (inv_projectorKeys _ _ Hinv _ _ Hk).
    + by destruct (inv_projectorKeys _ _ Hinv _ _ Hk) as (_ & _ & ?).
Qed.

(** The instances of the entries are the cached instances of their
    identifiers. *)
Lemma instancesOf_entries s (entries : list (Identifier * Key)) :
  (∀ v k, (v, k) ∈ entries → JsMap.get (widgetKeys s) v = Some k) →
  instancesOf s entries = omap (cachedWidget s) entries.*1.
Proof.
  induction entries as [|[v k] entries IH]; intros Hget; [done|].
  unfold instancesOf. cbn. unfold cachedWidget at 1.
  rewrite (Hget v k) by (by left). simpl.
  fold (instancesOf s entries). rewrite IH; [done|].
  intros v' k' Hin. apply Hget. by right.
Qed.

Lemma instancesOf_cached e s :
  stateInv e s →
  cachedInstances s = omap (cachedWidget s) (widgetKeys s).*1.
Proof.
  intros Hinv. apply instancesOf_entries. intros v k.
  apply JsMap_elem_get, (inv_widgetKeys_nodup _ _ Hinv).
Qed.



Definition afterABDestroyed : World := destroy {| stateOf := 0 |} afterAB.



(** * Further properties of the module *)

(** ** Counters *)

(** The ids that [n] successive calls of [incr] return. *)
Fixpoint incrs (n : nat) (c : Counter) : list string :=
  match n with
  | 0 => []
  | S n => let '(i, c) := incr c in i :: incrs n c
  end.

Lemma append_inv_head (p s t : string) : p +:+ s = p +:+ t → s = t.
Proof. induction p as [|a p IH]; simpl; [done|]. intros [=]. auto. Qed.

Lemma append_assoc (p s t : string) : (p +:+ s) +:+ t = p +:+ s +:+ t.
Proof.
  induction p as [|a p IH]; [done|].
  change (String a ((p +:+ s) +:+ t) = String a (p +:+ s +:+ t)).
  by rewrite IH.
Qed.

Lemma to_uint_nonnil n : Nat.to_uint n ≠ Decimal.Nil.
Proof.
  rewrite <-(Unsigned.of_to n) at 1. rewrite Unsigned.to_of.
  apply DecimalFacts.unorm_nonnil.
Qed.

Lemma showNumber_inj m n : showNumber m = showNumber n → m = n.
Proof.
  unfold showNumber. intros Heq. apply Unsigned.to_uint_inj.
  pose proof (NilZero.usu _ (to_uint_nonnil m)) as Hm.
  pose proof (NilZero.usu _ (to_uint_nonnil n)) as Hn.
  rewrite Heq in Hm. congruence.
Qed.

(** The decimal notation of a number has no dot. *)
Lemma digits_no_dot d a b : NilEmpty.string_of_uint d ≠ a +:+ "." +:+ b.
Proof.
  revert a.
  induction d as [|d IH|d IH|d IH|d IH|d IH|d IH|d IH|d IH|d IH|d IH];
    intros [|x a]; simpl; try done; intros [= _ Heq]; by apply IH in Heq.
Qed.

Lemma showNumber_no_dot n a b : showNumber n ≠ a +:+ "." +:+ b.
Proof.
  unfold showNumber, NilZero.string_of_uint.
  pose proof (to_uint_nonnil n) as Hnil.
  destruct (Nat.to_uint n) eqn:E; try done; apply digits_no_dot.
Qed.

Lemma incrs_ids n c :
  incrs n c = (λ k, prefix c +:+ "." +:+ showNumber k) <$> seq (count c) n.
Proof.
  revert c. induction n as [|n IH]; intros c; [done|].
  simpl. f_equal. by rewrite IH.
Qed.

(** X1.  The ids returned by successive [incr()] calls on one counter are
    pairwise distinct, as long as the count stays within the integers that
    a JavaScript number holds exactly (up to 2^53). *)
Theorem counter_ids_distinct c n :
  (Z.of_nat (count c + n) ≤ 2 ^ 53)%Z → NoDup (incrs n c).
Proof.
  intros _. rewrite incrs_ids. apply NoDup_fmap_2; [|apply NoDup_seq].
  intros j k Heq.
  by apply append_inv_head, append_inv_head, showNumber_inj in Heq.
Qed.

Lemma counter_ids_distinct_witness :
  (Z.of_nat (count (newCounter "") + 3) ≤ 2 ^ 53)%Z ∧
  NoDup (incrs 3 (newCounter "")).
Proof.
  split; [simpl; lia|]. apply (counter_ids_distinct (newCounter "") 3).
  simpl; lia.
Defined.

(** X2.  An id returned by the counter of a nested level, [c.level()], is
    never an id of the level it was made from: no [incr()] on a counter
    with the prefix of [c] returns it, whatever the counts. *)
Theorem level_ids_apart c c' m n i :
  prefix c' = prefix c → i ∈ incrs n (level c) → i ∉ incrs m c'.
Proof.
  intros Hp. rewrite !incrs_ids, Hp. simpl.
  intros (j & -> & _)%list_elem_of_fmap (k & Heq & _)%list_elem_of_fmap.
  rewrite append_assoc in Heq. apply append_inv_head in Heq.
  rewrite append_assoc in Heq. apply append_inv_head in Heq.
  symmetry in Heq. by apply showNumber_no_dot in Heq.
Qed.

Lemma level_ids_apart_witness :
  prefix {| prefix := ""; count := 1 |} = prefix (newCounter "") ∧
  ".0.0" ∈ incrs 2 (level (newCounter "")) ∧
  ".0.0" ∉ incrs 5 {| prefix := ""; count := 1 |}.
Proof.
  split; [reflexivity|]. split; [by left|].
  apply (level_ids_apart (newCounter "") {| prefix := ""; count := 1 |} 5 2).
  - reflexivity.
  - by left.
Defined.

(** ** How a render settles *)

Lemma rest_promised registry root append w r w' slots s1 finished rest q :
  Pass registry root append w r w' slots s1 finished rest →
  q ∈ rest → q ∈ promised slots.
Proof.
  intros HP Hq. eapply elem_of_Permutation_proper;
    [symmetry; apply completionOrder_perm|].
  rewrite (pass_order _ _ _ _ _ _ _ _ _ _ HP). apply elem_of_app. by right.
Qed.

(** X3.  A render of a scene, from a reachable world, is rejected only with
    the failure of a [getWidget] call that this render made for one of the
    requested identifiers; when every call it made is fulfilled, the render
    is fulfilled.  In particular no render fails in the removal loop. *)
Theorem render_settles_with_its_calls registry root ids w r w' :
  reachable w → render registry root (scene ids) w = (r, w') →
  ((∀ n v, length (resolved (env w)) ≤ n →
           resolved (env w') !! n = Some v →
           is_Some (outcome (getWidget registry n v))) →
   r = Fulfilled {| stateOf := registryRef registry |}) ∧
  (∀ err, r = Rejected err →
     ∃ n u, err = ResolutionFailed u ∧ u ∈ ids ∧
       length (resolved (env w)) ≤ n ∧ resolved (env w') !! n = Some u ∧
       outcome (getWidget registry n u) = None).
Proof.
  intros Hw Hrender.
  destruct (render_step _ _ _ _ _ _ Hw Hrender)
    as (Hinv & _ & _ & slots & s1 & fin & rest & HP).
  assert (∀ err, r = Rejected err →
     ∃ n u, err = ResolutionFailed u ∧ u ∈ ids ∧
       length (resolved (env w)) ≤ n ∧ resolved (env w') !! n = Some u ∧
       outcome (getWidget registry n u) = None) as Hfail.
  { intros err ->.
    destruct (pass_result _ _ _ _ _ _ _ _ _ _ HP)
      as (q & rest' & Hrest & Hq & -> & _).
    assert (q ∈ promised slots) as Hin.
    { eapply rest_promised; [exact HP|]. rewrite Hrest. by left. }
    destruct (pass_promised HP q Hin) as (_ & _ & Happ & n & Hn & Hcall & Hres).
    apply list_elem_of_fmap in Happ as (u & [= Hu] & Hin').
    exists n, (waitingFor q). rewrite <-Hres. split_and!; try done.
    by rewrite Hu. }
  split; [|exact Hfail]. intros Hall. destruct r as [h|err].
  - by destruct (pass_result _ _ _ _ _ _ _ _ _ _ HP) as (_ & -> & _).
  - destruct (Hfail err eq_refl) as (n & u & _ & _ & Hn & Hcall & Hnone).
    destruct (Hall n u Hn Hcall) as [x Hx]. congruence.
Qed.

Lemma render_settles_with_its_calls_witness :
  reachable newWorld ∧
  render withoutB 0 (scene ["A"; "B"]) newWorld
    = (Rejected (ResolutionFailed "B"), afterFailedAB) ∧
  ((∀ n v, length (resolved (env newWorld)) ≤ n →
           resolved (env afterFailedAB) !! n = Some v →
           is_Some (outcome (getWidget withoutB n v))) →
   @Rejected SceneHandle (ResolutionFailed "B")
     = Fulfilled {| stateOf := registryRef withoutB |}) ∧
  (∀ err, @Rejected SceneHandle (ResolutionFailed "B") = Rejected err →
     ∃ n u, err = ResolutionFailed u ∧ u ∈ ["A"; "B"] ∧
       length (resolved (env newWorld)) ≤ n ∧
       resolved (env afterFailedAB) !! n = Some u ∧
       outcome (getWidget withoutB n u) = None).
Proof.
  split; [apply reachable_new|]. split; [by vm_compute|].
  apply (render_settles_with_its_calls withoutB 0 ["A"; "B"] newWorld).
  - apply reachable_new.
  - by vm_compute.
Defined.

(** X4.  No render calls [destroy()] on any instance, and no render
    removes a key: a key stored for an identifier before a render is the
    key stored for it after the render, and an identifier that had an
    instance has one, whatever the tree is, whether the render is fulfilled
    or rejected, and however many of the promises in flight have settled
    since.  When no resolution of an earlier render was pending, the
    instance and the handle are the same ones as before. *)
Theorem render_only_adds registry el tree w r w' :
  reachable w → render registry el tree w = (r, w') →
  destroyed (env w') = destroyed (env w) ∧
  ∀ s v k, stateFor registry w = Some s →
    JsMap.get (widgetKeys s) v = Some k →
    ∀ n, ∃ s',
      stateFor registry (settleN n w') = Some s' ∧
      JsMap.get (widgetKeys s') v = Some k ∧
      (is_Some (widgets s !! ref k) → is_Some (widgets s' !! ref k)) ∧
      (inFlight w = [] → ∀ x, installed s v k x → installed s' v k x).
Proof.
  intros Hw Hrender. pose proof (reachable_inv _ Hw) as Hinv.
  destruct tree as [[append]|sw].
  - destruct (render_pass _ _ _ _ _ _ Hinv Hrender)
      as (slots & s1 & fin & rest & HP).
    split; [apply (pass_destroyed _ _ _ _ _ _ _ _ _ _ HP)|].
    intros s v k Hs Hk n.
    pose proof (stateBefore_after _ el _ _ Hs) as Hbefore.
    pose proof (pass_state _ _ _ _ _ _ _ _ _ _ HP) as Hs'.
    destruct (settleN_mono n w' _ _ Hs') as (sn & Hsn & Hkn & Hmono).
    exists sn. split_and!; [done | | |].
    + rewrite Hkn. apply (pass_get_old HP). by rewrite Hbefore.
    + intros Hx. apply Hmono, runCallbacks_mono.
      by rewrite (pass_widgets _ _ _ _ _ _ _ _ _ _ HP), Hbefore.
    + intros Hquiet x Hin.
      pose proof (pass_keeps_installed Hinv HP v k x) as Hkept.
      rewrite Hbefore in Hkept. specialize (Hkept Hin).
      destruct (settleN_installed n w' registry _ _ _ _ Hs' Hkept)
        as (sn' & Hsn' & Hinst).
      { intros p Hp _ Href.
        assert (p ∈ rest) as Hrest.
        { pose proof (pass_result _ _ _ _ _ _ _ _ _ _ HP) as Hres.
          destruct r as [h|err].
          - destruct Hres as (_ & _ & Hfl & _).
            rewrite Hfl, Hquiet in Hp. by apply elem_of_nil in Hp.
          - destruct Hres as (q & rest' & -> & _ & _ & Hfl).
            rewrite Hfl, Hquiet in Hp. simpl in Hp.
            apply list_elem_of_fmap in Hp as (p' & [= <-] & Hp').
            by right. }
        assert (p ∈ promised slots) as Hpp.
        { eapply elem_of_Permutation_proper;
            [symmetry; apply completionOrder_perm|].
          rewrite (pass_order _ _ _ _ _ _ _ _ _ _ HP).
          apply elem_of_app. by right. }
        destruct (pass_promised HP p Hpp) as (_ & Hnone & _).
        destruct Hin as (_ & Hx & _).
        rewrite Hbefore, Href, Hx in Hnone. done. }
      unfold stateFor in Hsn'. rewrite Hsn in Hsn'. by injection Hsn' as <-.
  - injection Hrender as <- <-. split; [done|]. intros s v k Hs Hk n.
    destruct (settleN_mono n w _ _ Hs) as (sn & Hsn & Hkn & Hmono).
    exists sn. split_and!; [done | congruence | by auto |].
    intros Hquiet x Hin. rewrite (settleN_quiet n w Hquiet) in Hsn.
    unfold stateFor in Hs. rewrite Hs in Hsn. by injection Hsn as <-.
Qed.

Lemma render_only_adds_witness :
  reachable afterAB ∧
  render freshInstances 0 (scene ["A"]) afterAB
    = (Fulfilled {| stateOf := 0 |}, afterAB_A) ∧
  destroyed (env afterAB_A) = destroyed (env afterAB) ∧
  ∀ s v k, stateFor freshInstances afterAB = Some s →
    JsMap.get (widgetKeys s) v = Some k →
    ∀ n, ∃ s',
      stateFor freshInstances (settleN n afterAB_A) = Some s' ∧
      JsMap.get (widgetKeys s') v = Some k ∧
      (is_Some (widgets s !! ref k) → is_Some (widgets s' !! ref k)) ∧
      (inFlight afterAB = [] → ∀ x, installed s v k x → installed s' v k x).
Proof.
  assert (reachable afterAB) as Hw.
  { apply (reachable_render freshInstances 0 (scene ["A"; "B"]) newWorld).
    apply reachable_new. }
  split; [exact Hw|]. split; [by vm_compute|].
  apply (render_only_adds freshInstances 0 (scene ["A"]) afterAB
           (Fulfilled {| stateOf := 0 |}) afterAB_A).
  - exact Hw.
  - by vm_compute.
Defined.

(** X5.  Rendering a scene with no widgets, from any reachable world, is
    fulfilled without any [getWidget] or [destroy()] call; the projector is
    left with no children, and the keys and instances stored before are all
    kept. *)
Theorem render_empty_scene registry root w r w' :
  reachable w → render registry root (scene []) w = (r, w') →
  r = Fulfilled {| stateOf := registryRef registry |} ∧
  sceneChildren registry w' = Some [] ∧
  resolved (env w') = resolved (env w) ∧
  destroyed (env w') = destroyed (env w) ∧
  ∃ s', stateFor registry w' = Some s' ∧
    widgetKeys s' = widgetKeys (stateBefore registry root w) ∧
    widgets s' = widgets (stateBefore registry root w).
Proof.
  intros Hw Hrender. pose proof (reachable_inv _ Hw) as Hinv.
  destruct (render_all_cached registry root [] [] w r w' Hinv) as
    (Hr & Hres & Hdes & Hch); [constructor | exact Hrender |].
  split_and!; try done.
  destruct (render_pass _ _ _ _ _ _ Hinv Hrender)
    as (slots & s1 & fin & rest & HP).
  pose proof (pass_slots _ _ _ _ _ _ _ _ _ _ HP) as Hslots.
  apply Forall2_nil_inv_l in Hslots as ->.
  pose proof (pass_order _ _ _ _ _ _ _ _ _ _ HP) as Horder.
  symmetry in Horder. apply app_eq_nil in Horder as [-> ->].
  exists s1. split; [apply (pass_state _ _ _ _ _ _ _ _ _ _ HP)|].
  destruct (pass_request _ _ _ _ _ _ _ _ _ _ HP) as (e1 & Hreq & _).
  destruct (setupProjector (newCounter "") (stateBefore registry root w, env w))
    as [[pk p] [s0 e0]] eqn:Hsetup.
  destruct (setupProjector_spec _ _ _ _ _ _
              (stateBefore_inv registry root w Hinv) Hsetup) as [_ Hsf].
  injection Hreq as <- <-.
  split; [apply (sf_widgetKeys _ _ _ _ _ _ Hsf) | apply (sf_widgets _ _ _ _ _ _ Hsf)].
Qed.

Lemma render_empty_scene_witness :
  reachable afterAB ∧
  render freshInstances 0 (scene []) afterAB
    = (Fulfilled {| stateOf := 0 |},
       (render freshInstances 0 (scene []) afterAB).2) ∧
  Fulfilled {| stateOf := 0 |}
    = Fulfilled {| stateOf := registryRef freshInstances |} ∧
  sceneChildren freshInstances (render freshInstances 0 (scene []) afterAB).2
    = Some [] ∧
  resolved (env (render freshInstances 0 (scene []) afterAB).2)
    = resolved (env afterAB) ∧
  destroyed (env (render freshInstances 0 (scene []) afterAB).2)
    = destroyed (env afterAB) ∧
  ∃ s', stateFor freshInstances (render freshInstances 0 (scene []) afterAB).2
          = Some s' ∧
    widgetKeys s' = widgetKeys (stateBefore freshInstances 0 afterAB) ∧
    widgets s' = widgets (stateBefore freshInstances 0 afterAB).
Proof.
  assert (reachable afterAB) as Hw.
  { apply (reachable_render freshInstances 0 (scene ["A"; "B"]) newWorld).
    apply reachable_new. }
  split; [exact Hw|]. split; [by vm_compute|].
  apply (render_empty_scene freshInstances 0 afterAB).
  - exact Hw.
  - by vm_compute.
Defined.

(** ** Keys, instances and handles *)

(** X6.  In every reachable world, the key stored for an identifier
    carries that identifier as its value; an instance is stored under the
    key exactly when a handle is, and that handle destroys this very
    instance and evicts this very key; and no other identifier has a key
    that is the same object. *)
Theorem cached_widget_has_its_handle registry w s v k :
  reachable w → stateFor registry w = Some s →
  JsMap.get (widgetKeys s) v = Some k →
  value k = v ∧
  (∀ x, widgets s !! ref k = Some x ↔
        handles s !! ref k = Some (WidgetHandle x k)) ∧
  (widgets s !! ref k = None ↔ handles s !! ref k = None) ∧
  ∀ v' k', JsMap.get (widgetKeys s) v' = Some k' → ref k' = ref k → v' = v.
Proof.
  intros Hw Hs Hk. pose proof (inv_states _ (reachable_inv _ Hw) _ _ Hs) as Hinv.
  apply JsMap_get_Some_elem in Hk.
  destruct (inv_widgetKeys _ _ Hinv _ _ Hk) as (Hv & _).
  pose proof (inv_cached _ _ Hinv _ _ Hk) as Hc.
  split_and!; [done | | |].
  - intros x. destruct (widgets s !! ref k) as [y|]; rewrite Hc.
    + split; [by intros [= ->] | by intros [= ->]].
    + split; done.
  - destruct (widgets s !! ref k) as [y|]; rewrite Hc; split; done.
  - intros v' k' Hk'%JsMap_get_Some_elem Href.
    destruct (stateInv_keyOk _ _ _ _ Hinv Hk) as (_ & _ & Huniq).
    destruct (inv_widgetKeys _ _ Hinv _ _ Hk') as (Hv' & _).
    rewrite (Huniq _ _ Hk' Href) in Hv'. congruence.
Qed.

Lemma cached_widget_has_its_handle_witness :
  reachable afterAB ∧
  stateFor freshInstances afterAB
    = Some (default (newRenderState 0) (stateFor freshInstances afterAB)) ∧
  JsMap.get
    (widgetKeys (default (newRenderState 0) (stateFor freshInstances afterAB)))
    "B" = Some {| ref := 2; value := "B" |} ∧
  value {| ref := 2; value := "B" |} = "B" ∧
  (∀ x,
     widgets (default (newRenderState 0) (stateFor freshInstances afterAB))
       !! ref {| ref := 2; value := "B" |} = Some x ↔
     handles (default (newRenderState 0) (stateFor freshInstances afterAB))
       !! ref {| ref := 2; value := "B" |}
       = Some (WidgetHandle x {| ref := 2; value := "B" |})) ∧
  (widgets (default (newRenderState 0) (stateFor freshInstances afterAB))
     !! ref {| ref := 2; value := "B" |} = None ↔
   handles (default (newRenderState 0) (stateFor freshInstances afterAB))
     !! ref {| ref := 2; value := "B" |} = None) ∧
  ∀ v' k',
    JsMap.get
      (widgetKeys (default (newRenderState 0) (stateFor freshInstances afterAB)))
      v' = Some k' →
    ref k' = ref {| ref := 2; value := "B" |} → v' = "B".
Proof.
  assert (reachable afterAB) as Hw.
  { apply (reachable_render freshInstances 0 (scene ["A"; "B"]) newWorld).
    apply reachable_new. }
  split; [exact Hw|]. split; [by vm_compute|]. split; [by vm_compute|].
  apply (cached_widget_has_its_handle freshInstances afterAB).
  - exact Hw.
  - by vm_compute.
  - by vm_compute.
Defined.

(** ** The projector of a scene *)

(** A projector as [createProjector] makes it, and what a fulfilled render
    does to the projector of the scene: [children] is assigned and
    [attach()] is called. *)
Definition freshProjector (root : Element) : ProjectorObject :=
  {| mountRoot := root; childList := []; attachCalls := 0 |}.

Definition shown (xs : list WidgetLike) (o : ProjectorObject)
    : ProjectorObject :=
  {| mountRoot := mountRoot o; childList := xs;
     attachCalls := S (attachCalls o) |}.

(** The first half of [update] finds the projector of the scene, or makes
    one on the root of the state. *)
Lemma setupProjector_heap s e pk p s0 e0 :
  stateInv e s →
  setupProjector (newCounter "") (s, e) = (pk, p, (s0, e0)) →
  root s0 = root s ∧
  projectors s0 = <[ref pk := p]> (projectors s) ∧
  ((projectors s !! ref pk = Some p ∧ sceneProjector s = Some p ∧
    projectorHeap e0 = projectorHeap e) ∨
   (projectors s !! ref pk = None ∧ sceneProjector s = None ∧
    p = length (projectorHeap e) ∧
    projectorHeap e0 = projectorHeap e ++ [freshProjector (root s)])).
Proof.
  intros Hinv. unfold setupProjector, sceneProjector.
  set (i := (incr (newCounter "")).1).
  change (incr (newCounter "")) with (i, {| prefix := ""; count := 1 |}).
  cbv iota beta.
  destruct (JsMap.get (projectorKeys s) i) as [k|] eqn:Hget.
  - pose proof (JsMap_get_Some_elem _ _ _ Hget) as Hk.
    destruct (inv_projectorKeys _ _ Hinv _ _ Hk) as (Hv & [p0 Hp0] & Hh).
    rewrite Hp0. intros [= <- <- <- <-]. simpl. rewrite Hp0.
    split_and!; [done | by rewrite insert_id | by left].
  - assert (projectors s !! nextRef e = None) as Hp.
    { destruct (projectors s !! nextRef e) eqn:E; [|done].
      destruct (inv_projectors _ _ Hinv _ _ E) as (? & _). lia. }
    simpl. rewrite Hp. intros [= <- <- <- <-]. simpl.
    split_and!; [done | done | by right].
Qed.

(** What one render does to the state of its registry and to the
    projectors: [base] is the heap once the projector of the scene is
    there. *)
Record Mount (registry : ReadOnlyRegistry) (el : Element) (w : World)
    (r : Settled SceneHandle) (w' : World) (s' : RenderState) (pk : Key)
    (p : Projector) (base : list ProjectorObject) : Prop := {
  mount_state : stateFor registry w' = Some s';
  mount_states :
    renderState w' = <[registryRef registry := s']> (renderState w);
  mount_root : root s' = root (stateBefore registry el w);
  mount_key : JsMap.get (projectorKeys s') ".0" = Some pk;
  mount_projectors :
    projectors s' = <[ref pk := p]> (projectors (stateBefore registry el w));
  mount_base :
    (projectors (stateBefore registry el w) !! ref pk = Some p ∧
     sceneProjector (stateBefore registry el w) = Some p ∧
     base = projectorHeap (env w)) ∨
    (projectors (stateBefore registry el w) !! ref pk = None ∧
     sceneProjector (stateBefore registry el w) = None ∧
     p = length (projectorHeap (env w)) ∧
     base = projectorHeap (env w) ++
              [freshProjector (root (stateBefore registry el w))]);
  mount_heap :
    match r with
    | Fulfilled _ =>
        ∃ xs, sceneChildren registry w' = Some xs ∧
              projectorHeap (env w') = alter (shown xs) p base
    | Rejected _ => projectorHeap (env w') = base
    end
}.

Lemma attach_assign_heap p xs e :
  projectorHeap (attach p (assignChildren p xs e))
    = alter (shown xs) p (projectorHeap e).
Proof.
  simpl. apply list_eq. intros i. rewrite !list_lookup_alter.
  rewrite (decide_True (P := p = p)) by done.
  repeat case_decide; try done. by destruct (@lookup nat _ _ _ p (projectorHeap e)).
Qed.

Lemma render_mount registry el append w r w' :
  worldInv w →
  render registry el (IsProjector {| append := append |}) w = (r, w') →
  ∃ s' pk p base, Mount registry el w r w' s' pk p base.
Proof.
  intros Hw Hrender.
  destruct (render_inv _ _ _ _ _ _ Hw Hrender)
    as (pk & p & s0 & e0 & slots & s1 & e1 & s' & Hinv & Hsetup & Hinv0 & Hsf
        & Hreq & Hstates & Hsettle).
  fold (stateBefore registry el w) in Hinv, Hsf, Hsetup.
  destruct (setupProjector_heap _ _ _ _ _ _ Hinv Hsetup)
    as (Hroot & Hprs & Hbase).
  destruct (requestChildren_spec _ _ _ _ _ _ _ Hinv0 Hreq)
    as (Hinv1 & Hrf & _).
  pose proof (settle_inv (completionOrder (promised slots)) s1) as Hinv2.
  assert (∃ ps, s' = foldl runCallback s1 ps) as [ps ->].
  { destruct (settle (completionOrder (promised slots)) s1)
      as [[[[]|err] s2] rest].
    - destruct Hinv2 as (_ & -> & _), Hsettle as (_ & -> & _). by eexists.
    - destruct Hinv2 as (before & q & _ & _ & _ & _ & ->),
        Hsettle as (_ & -> & _). by eexists. }
  destruct (runCallbacks_frame ps s1) as (Hr & _ & Hpk & Hpr & _).
  simpl in Hr, Hpk, Hpr.
  assert (stateFor registry w' = Some (foldl runCallback s1 ps)) as Hst.
  { unfold stateFor. by rewrite Hstates, lookup_insert_eq. }
  assert (sceneProjector (foldl runCallback s1 ps) = Some p) as Hscene.
  { unfold sceneProjector.
    rewrite Hpk, (rf_projectorKeys _ _ _ _ Hrf), (sf_key _ _ _ _ _ _ Hsf).
    simpl. rewrite Hpr, (rf_projectors _ _ _ _ Hrf).
    apply (sf_projector _ _ _ _ _ _ Hsf). }
  exists (foldl runCallback s1 ps), pk, p, (projectorHeap e0).
  split; try done.
  - by rewrite Hr, (rf_root _ _ _ _ Hrf).
  - rewrite Hpk, (rf_projectorKeys _ _ _ _ Hrf).
    apply (sf_key _ _ _ _ _ _ Hsf).
  - by rewrite Hpr, (rf_projectors _ _ _ _ Hrf).
  - destruct (settle (completionOrder (promised slots)) s1)
      as [[[[]|err] s2] rest].
    + destruct Hsettle as (-> & _ & _ & _ & Henv).
      exists (childWidget <$> omap childOf slots).
      assert (projectorHeap (env w')
              = alter (shown (childWidget <$> omap childOf slots)) p
                  (projectorHeap e0)) as Hheap.
      { by rewrite Henv, attach_assign_heap, (rf_heap _ _ _ _ Hrf). }
      split; [|done].
      unfold sceneChildren. rewrite Hst. simpl. rewrite Hscene. simpl.
      rewrite Hheap, list_lookup_alter_eq.
      destruct (lookup_lt_is_Some_2 _ _ (sf_valid _ _ _ _ _ _ Hsf)) as [o ->].
      done.
    + destruct Hsettle as (-> & _ & -> & _). apply (rf_heap _ _ _ _ Hrf).
Qed.

Lemma stateBefore_projector registry el w k q :
  projectors (stateBefore registry el w) !! k = Some q →
  stateFor registry w = Some (stateBefore registry el w).
Proof.
  unfold stateBefore. destruct (stateFor registry w) as [s|]; [done|].
  simpl. by rewrite lookup_empty.
Qed.

(** Every projector stored in a render state is on the heap, mounted on the
    root of that state, and is stored under one key of one state only. *)
Record sceneInv (w : World) : Prop := {
  inv_mounted : ∀ i s k q,
    renderState w !! i = Some s → projectors s !! k = Some q →
    ∃ o, projectorHeap (env w) !! (q : nat) = Some o ∧ mountRoot o = root s;
  inv_owned : ∀ i s k q i' s' k',
    renderState w !! i = Some s → projectors s !! k = Some q →
    renderState w !! i' = Some s' → projectors s' !! k' = Some q →
    i = i' ∧ k = k'
}.

Section MountFacts.
Context {registry : ReadOnlyRegistry} {el : Element} {w w' : World}
  {r : Settled SceneHandle} {s' : RenderState} {pk : Key} {p : Projector}
  {base : list ProjectorObject}.
Context (Hw : worldInv w) (Hsc : sceneInv w).
Context (HM : Mount registry el w r w' s' pk p base).

Lemma mount_prefix (q : nat) o :
  projectorHeap (env w) !! q = Some o → base !! q = Some o.
Proof.
  intros Hq.
  destruct (mount_base _ _ _ _ _ _ _ _ _ HM) as [(_ & _ & ->)|(_ & _ & _ & ->)];
    [done|].
  by apply lookup_app_l_Some.
Qed.

(** The projector of the scene is on the heap, mounted on the root of the
    state; when it is new, it has no children and was never attached. *)
Lemma mount_scene :
  ∃ o, base !! (p : nat) = Some o ∧ mountRoot o = root s' ∧
    (sceneProjector (stateBefore registry el w) = None →
     o = freshProjector (root s') ∧ p = length (projectorHeap (env w))) ∧
    (sceneProjector (stateBefore registry el w) = Some p →
     projectorHeap (env w) !! (p : nat) = Some o).
Proof.
  rewrite (mount_root _ _ _ _ _ _ _ _ _ HM).
  destruct (mount_base _ _ _ _ _ _ _ _ _ HM)
    as [(Hp & Hscene & ->)|(Hp & Hscene & -> & ->)].
  - destruct (inv_mounted _ Hsc _ _ _ _ (stateBefore_projector _ _ _ _ _ Hp) Hp)
      as (o & Ho & Hroot).
    exists o. split_and!; [done | done | by rewrite Hscene | done].
  - exists (freshProjector (root (stateBefore registry el w))).
    split_and!; [|done|done|by rewrite Hscene].
    rewrite lookup_app_r by done. by rewrite Nat.sub_diag.
Qed.

(** Every other projector is as it was. *)
Lemma mount_other (q : nat) :
  q ≠ p → q < length (projectorHeap (env w)) →
  projectorHeap (env w') !! q = projectorHeap (env w) !! q.
Proof.
  intros Hne Hlt.
  assert (base !! q = projectorHeap (env w) !! q) as Hbase.
  { destruct (lookup_lt_is_Some_2 _ _ Hlt) as [o Ho].
    by rewrite Ho, (mount_prefix _ _ Ho). }
  pose proof (mount_heap _ _ _ _ _ _ _ _ _ HM) as Hheap.
  destruct r as [h|err].
  - destruct Hheap as (xs & _ & ->). by rewrite list_lookup_alter_ne.
  - by rewrite Hheap.
Qed.

(** No projector changes its root. *)
Lemma mount_kept (q : nat) o :
  projectorHeap (env w) !! q = Some o →
  ∃ o', projectorHeap (env w') !! q = Some o' ∧ mountRoot o' = mountRoot o.
Proof.
  intros Ho. pose proof (mount_prefix _ _ Ho) as Hb.
  pose proof (mount_heap _ _ _ _ _ _ _ _ _ HM) as Hheap.
  destruct r as [h|err].
  - destruct Hheap as (xs & _ & ->). rewrite list_lookup_alter.
    case_decide; subst; rewrite Hb; by eexists.
  - rewrite Hheap. by eexists.
Qed.

Lemma mount_scene_after :
  ∃ o, projectorHeap (env w') !! (p : nat) = Some o ∧ mountRoot o = root s'.
Proof.
  destruct mount_scene as (o & Ho & Hroot & _).
  pose proof (mount_heap _ _ _ _ _ _ _ _ _ HM) as Hheap.
  destruct r as [h|err].
  - destruct Hheap as (xs & _ & ->). rewrite list_lookup_alter_eq, Ho.
    by eexists.
  - rewrite Hheap. by eexists.
Qed.

(** A projector entry after the render is the one of the scene, or an
    entry from before. *)
Lemma mount_entry i s k q :
  renderState w' !! i = Some s → projectors s !! k = Some q →
  (i = registryRef registry ∧ s = s' ∧ k = ref pk ∧ q = p) ∨
  (∃ s0, renderState w !! i = Some s0 ∧ projectors s0 !! k = Some q ∧
         root s = root s0).
Proof.
  rewrite (mount_states _ _ _ _ _ _ _ _ _ HM).
  destruct (decide (registryRef registry = i)) as [<-|Hne].
  - rewrite lookup_insert_eq. intros [= <-].
    rewrite (mount_projectors _ _ _ _ _ _ _ _ _ HM).
    destruct (decide (ref pk = k)) as [<-|Hk].
    + rewrite lookup_insert_eq. intros [= <-]. by left.
    + rewrite lookup_insert_ne by done. intros Hq. right.
      exists (stateBefore registry el w).
      split_and!; [by eapply stateBefore_projector | done |].
      apply (mount_root _ _ _ _ _ _ _ _ _ HM).
  - rewrite lookup_insert_ne by done. intros Hs Hq. right. by exists s.
Qed.

End MountFacts.

Lemma render_sceneInv registry el tree w :
  worldInv w → sceneInv w → sceneInv (render registry el tree w).2.
Proof.
  intros Hw Hsc. destruct tree as [[append]|sw]; [|done].
  destruct (render registry el (IsProjector {| append := append |}) w)
    as [r w'] eqn:Hrender.
  destruct (render_mount _ _ _ _ _ _ Hw Hrender) as (s' & pk & p & base & HM).
  simpl. split.
  - intros i s k q Hs Hq.
    destruct (mount_entry HM _ _ _ _ Hs Hq)
      as [(-> & -> & -> & ->)|(s0 & Hs0 & Hq0 & ->)].
    + apply (mount_scene_after Hsc HM).
    + destruct (inv_mounted _ Hsc _ _ _ _ Hs0 Hq0) as (o & Ho & <-).
      apply (mount_kept HM _ _ Ho).
  - assert (∀ i s k, renderState w !! i = Some s →
              projectors s !! k = Some p →
              i = registryRef registry ∧ k = ref pk) as Hold.
    { intros i s k Hs Hq.
      destruct (mount_base _ _ _ _ _ _ _ _ _ HM)
        as [(Hp & _)|(_ & _ & -> & _)].
      - apply (inv_owned _ Hsc _ _ _ _ _ _ _ Hs Hq
                 (stateBefore_projector _ _ _ _ _ Hp) Hp).
      - destruct (inv_projectors _ _ (inv_states _ Hw _ _ Hs) _ _ Hq)
          as (_ & Hlt & _). lia. }
    intros i s k q i2 s2 k2 Hs Hq Hs2 Hq2.
    destruct (mount_entry HM _ _ _ _ Hs Hq)
      as [(-> & -> & -> & ->)|(s0 & Hs0 & Hq0 & _)];
      destruct (mount_entry HM _ _ _ _ Hs2 Hq2)
        as [(-> & -> & -> & Heq)|(t0 & Ht0 & Hr0 & _)]; try done.
    + by destruct (Hold _ _ _ Ht0 Hr0) as [-> ->].
    + subst q. by destruct (Hold _ _ _ Hs0 Hq0) as [-> ->].
    + by eapply inv_owned.
Qed.

Lemma destroy_sceneInv h w : worldInv w → sceneInv w → sceneInv (destroy h w).
Proof.
  intros Hw Hsc. unfold destroy.
  destruct (renderState w !! stateOf h) as [s|] eqn:Hs; [|done].
  pose proof (destroyScene_destroyFrame s (env w)) as Hf.
  destruct (destroyScene (s, env w)) as [s' e']. simpl in Hf.
  destruct Hf as [Hroot _ _ Hpr _ _ _ _ Hheap _ _].
  assert (∀ i t k q,
            <[stateOf h := s']> (renderState w) !! i = Some t →
            projectors t !! k = Some q →
            ∃ t0, renderState w !! i = Some t0 ∧ projectors t0 !! k = Some q ∧
                  root t = root t0) as Hentry.
  { intros i t k q. destruct (decide (stateOf h = i)) as [<-|Hne].
    - rewrite lookup_insert_eq. intros [= <-]. rewrite Hpr. intros Hq.
      by exists s.
    - rewrite lookup_insert_ne by done. intros Ht Hq. by exists t. }
  split; simpl.
  - intros i t k q Ht Hq.
    destruct (Hentry _ _ _ _ Ht Hq) as (t0 & Ht0 & Hq0 & ->).
    rewrite Hheap. by eapply inv_mounted.
  - intros i t k q i2 t2 k2 Ht Hq Ht2 Hq2.
    destruct (Hentry _ _ _ _ Ht Hq) as (t0 & Ht0 & Hq0 & _).
    destruct (Hentry _ _ _ _ Ht2 Hq2) as (u0 & Hu0 & Hr0 & _).
    by eapply inv_owned.
Qed.

Lemma settleInFlight_sceneInv w : sceneInv w → sceneInv (settleInFlight w).
Proof.
  intros Hsc. unfold settleInFlight.
  destruct (inFlight w) as [|[j p] rest]; [done|].
  destruct (outcome (resolution p)) as [x|]; [|by destruct Hsc].
  assert (∀ i t k q,
            alter (resolved_callback (waitingKey p) x) j (renderState w) !! i
              = Some t →
            projectors t !! k = Some q →
            ∃ t0, renderState w !! i = Some t0 ∧ projectors t0 !! k = Some q ∧
                  root t = root t0) as Hentry.
  { intros i t k q. destruct (decide (j = i)) as [<-|Hne].
    - rewrite lookup_alter_eq.
      destruct (renderState w !! j) as [t0|]; [|done]. intros [= <-] Hq.
      by exists t0.
    - rewrite lookup_alter_ne by done. intros Ht Hq. by exists t. }
  split; simpl.
  - intros i t k q Ht Hq.
    destruct (Hentry _ _ _ _ Ht Hq) as (t0 & Ht0 & Hq0 & ->).
    by eapply inv_mounted.
  - intros i t k q i2 t2 k2 Ht Hq Ht2 Hq2.
    destruct (Hentry _ _ _ _ Ht Hq) as (t0 & Ht0 & Hq0 & _).
    destruct (Hentry _ _ _ _ Ht2 Hq2) as (u0 & Hu0 & Hr0 & _).
    by eapply inv_owned.
Qed.

Lemma reachable_sceneInv w : reachable w → sceneInv w.
Proof.
  induction 1 as [|registry el tree w Hw IH|h w Hw IH|w Hw IH].
  - split; simpl; intros i s k q; by rewrite lookup_empty.
  - by apply render_sceneInv; [apply reachable_inv|].
  - by apply destroy_sceneInv; [apply reachable_inv|].
  - by apply settleInFlight_sceneInv.
Qed.

(** The projector object of the scene of a registry. *)
Definition sceneObject (registry : ReadOnlyRegistry) (w : World)
    : option ProjectorObject :=
  state ← stateFor registry w;
  projector ← sceneProjector state;
  projectorHeap (env w) !! (projector : nat).

Lemma sceneChildren_object registry w :
  sceneChildren registry w = childList <$> sceneObject registry w.
Proof.
  unfold sceneChildren, sceneObject.
  destruct (stateFor registry w) as [s|]; [simpl|done].
  by destruct (sceneProjector s).
Qed.

Lemma sceneObject_before registry el w :
  sceneObject registry w =
    projector ← sceneProjector (stateBefore registry el w);
    projectorHeap (env w) !! (projector : nat).
Proof.
  unfold sceneObject, stateBefore. by destruct (stateFor registry w).
Qed.

Section SceneFacts.
Context {registry : ReadOnlyRegistry} {el : Element} {w w' : World}
  {r : Settled SceneHandle} {s' : RenderState} {pk : Key} {p : Projector}
  {base : list ProjectorObject}.
Context (Hw : worldInv w) (Hsc : sceneInv w).
Context (HM : Mount registry el w r w' s' pk p base).

Lemma mount_sceneProjector : sceneProjector s' = Some p.
Proof.
  unfold sceneProjector.
  change (incr (newCounter "")).1 with ".0".
  rewrite (mount_key _ _ _ _ _ _ _ _ _ HM). simpl.
  by rewrite (mount_projectors _ _ _ _ _ _ _ _ _ HM), lookup_insert_eq.
Qed.

(** Only the registry of the render has the projector of the scene. *)
Lemma mount_owner i s k :
  renderState w !! i = Some s → projectors s !! k = Some p →
  i = registryRef registry ∧ k = ref pk.
Proof.
  intros Hs Hq.
  destruct (mount_base _ _ _ _ _ _ _ _ _ HM) as [(Hp & _)|(_ & _ & -> & _)].
  - apply (inv_owned _ Hsc _ _ _ _ _ _ _ Hs Hq
             (stateBefore_projector _ _ _ _ _ Hp) Hp).
  - destruct (inv_projectors _ _ (inv_states _ Hw _ _ Hs) _ _ Hq)
      as (_ & Hlt & _). lia.
Qed.

(** The object of the scene when the render starts, a new one included. *)
Lemma mount_object_before :
  base !! (p : nat)
    = Some (default (freshProjector (root s')) (sceneObject registry w)).
Proof.
  destruct (mount_scene Hsc HM) as (o & Ho & _ & Hnew & Hold).
  rewrite Ho, (sceneObject_before registry el w).
  destruct (mount_base _ _ _ _ _ _ _ _ _ HM)
    as [(_ & Hscene & _)|(_ & Hscene & _)]; rewrite Hscene; simpl.
  - by rewrite (Hold Hscene).
  - by destruct (Hnew Hscene) as [-> _].
Qed.

Lemma mount_object_after :
  sceneObject registry w' = projectorHeap (env w') !! (p : nat).
Proof.
  unfold sceneObject. rewrite (mount_state _ _ _ _ _ _ _ _ _ HM). simpl.
  by rewrite mount_sceneProjector.
Qed.

End SceneFacts.

Lemma render_scene_mount registry el ids w r w' :
  reachable w → render registry el (scene ids) w = (r, w') →
  worldInv w ∧ sceneInv w ∧
  ∃ s' pk p base, Mount registry el w r w' s' pk p base.
Proof.
  intros Hw Hrender.
  split_and!; [by apply reachable_inv | by apply reachable_sceneInv |].
  by apply (render_mount _ _ _ _ _ _ (reachable_inv _ Hw) Hrender).
Qed.

(** X7.  The root element given to [render] is used only when the registry
    has no render state yet.  After every render of a scene the state has
    the root of the state before, whatever root was passed, and the
    projector of the scene is mounted on that root. *)
Theorem render_keeps_first_root registry el ids w r w' :
  reachable w → render registry el (scene ids) w = (r, w') →
  ∃ s' o,
    stateFor registry w' = Some s' ∧
    sceneObject registry w' = Some o ∧
    mountRoot o = root s' ∧
    (stateFor registry w = None → root s' = el) ∧
    (∀ s, stateFor registry w = Some s → root s' = root s).
Proof.
  intros Hw Hrender.
  destruct (render_scene_mount _ _ _ _ _ _ Hw Hrender)
    as (Hinv & Hsc & s' & pk & p & base & HM).
  destruct (mount_scene_after Hsc HM) as (o & Ho & Hroot).
  exists s', o.
  pose proof (mount_root _ _ _ _ _ _ _ _ _ HM) as Hr.
  split_and!; [apply (mount_state _ _ _ _ _ _ _ _ _ HM) | | done | |].
  - by rewrite (mount_object_after HM).
  - intros Hnone. rewrite Hr. unfold stateBefore. by rewrite Hnone.
  - intros s Hs. rewrite Hr. unfold stateBefore. by rewrite Hs.
Qed.

Lemma render_keeps_first_root_witness :
  reachable afterAB ∧
  render freshInstances 7 (scene ["C"]) afterAB
    = (Fulfilled {| stateOf := 0 |},
       (render freshInstances 7 (scene ["C"]) afterAB).2) ∧
  ∃ s' o,
    stateFor freshInstances (render freshInstances 7 (scene ["C"]) afterAB).2
      = Some s' ∧
    sceneObject freshInstances (render freshInstances 7 (scene ["C"]) afterAB).2
      = Some o ∧
    mountRoot o = root s' ∧
    (stateFor freshInstances afterAB = None → root s' = 7) ∧
    (∀ s, stateFor freshInstances afterAB = Some s → root s' = root s).
Proof.
  assert (reachable afterAB) as Hw.
  { apply (reachable_render freshInstances 0 (scene ["A"; "B"]) newWorld).
    apply reachable_new. }
  split; [exact Hw|]. split; [by vm_compute|].
  apply (render_keeps_first_root freshInstances 7 ["C"] afterAB
           (Fulfilled {| stateOf := 0 |})).
  - exact Hw.
  - by vm_compute.
Defined.

(** X8.  A rejected render changes no projector that existed: each keeps
    its children and its count of [attach()] calls.  The scene of the
    registry shows what it showed before; when the registry had no
    projector, the rejected render leaves a new one behind, with no
    children and never attached. *)
Theorem rejected_render_keeps_scene registry el ids w err w' :
  reachable w → render registry el (scene ids) w = (Rejected err, w') →
  (∀ (q : nat) o, projectorHeap (env w) !! q = Some o →
                  projectorHeap (env w') !! q = Some o) ∧
  ∃ s', stateFor registry w' = Some s' ∧
    sceneObject registry w'
      = Some (default (freshProjector (root s')) (sceneObject registry w)) ∧
    sceneChildren registry w'
      = Some (default [] (sceneChildren registry w)).
Proof.
  intros Hw Hrender.
  destruct (render_scene_mount _ _ _ _ _ _ Hw Hrender)
    as (Hinv & Hsc & s' & pk & p & base & HM).
  pose proof (mount_heap _ _ _ _ _ _ _ _ _ HM) as Hheap. simpl in Hheap.
  assert (sceneObject registry w'
          = Some (default (freshProjector (root s')) (sceneObject registry w)))
    as Hobj.
  { by rewrite (mount_object_after HM), Hheap, (mount_object_before Hsc HM). }
  split.
  - intros q o Ho. rewrite Hheap. apply (mount_prefix HM _ _ Ho).
  - exists s'. split_and!; [apply (mount_state _ _ _ _ _ _ _ _ _ HM) | done |].
    rewrite !sceneChildren_object, Hobj.
    by destruct (sceneObject registry w).
Qed.

(** The scene [A] rendered once. *)
Definition afterA : World :=
  (render freshInstances 0 (scene ["A"]) newWorld).2.

Lemma rejected_render_keeps_scene_witness :
  reachable afterA ∧
  render withoutB 0 (scene ["A"; "B"]) afterA
    = (Rejected (ResolutionFailed "B"),
       (render withoutB 0 (scene ["A"; "B"]) afterA).2) ∧
  (∀ (q : nat) o, projectorHeap (env afterA) !! q = Some o →
     projectorHeap (env (render withoutB 0 (scene ["A"; "B"]) afterA).2) !! q
       = Some o) ∧
  ∃ s',
    stateFor withoutB (render withoutB 0 (scene ["A"; "B"]) afterA).2
      = Some s' ∧
    sceneObject withoutB (render withoutB 0 (scene ["A"; "B"]) afterA).2
      = Some (default (freshProjector (root s')) (sceneObject withoutB afterA)) ∧
    sceneChildren withoutB (render withoutB 0 (scene ["A"; "B"]) afterA).2
      = Some (default [] (sceneChildren withoutB afterA)).
Proof.
  assert (reachable afterA) as Hw.
  { apply (reachable_render freshInstances 0 (scene ["A"]) newWorld).
    apply reachable_new. }
  split; [exact Hw|]. split; [by vm_compute|].
  apply (rejected_render_keeps_scene withoutB 0 ["A"; "B"] afterA
           (ResolutionFailed "B")).
  - exact Hw.
  - by vm_compute.
Defined.

(** X9.  A fulfilled render assigns the children of the projector of the
    scene and calls [attach()] on it once more, also when it was attached
    by an earlier render; every other projector is as it was. *)
Theorem fulfilled_render_attaches registry el ids w h w' :
  reachable w → render registry el (scene ids) w = (Fulfilled h, w') →
  ∃ s' xs,
    stateFor registry w' = Some s' ∧
    sceneChildren registry w' = Some xs ∧
    sceneObject registry w'
      = Some {| mountRoot := root s'; childList := xs;
                attachCalls :=
                  S (attachCalls (default (freshProjector (root s'))
                                          (sceneObject registry w))) |} ∧
    ∀ (q : nat) o, projectorHeap (env w) !! q = Some o →
      sceneProjector s' ≠ Some q → projectorHeap (env w') !! q = Some o.
Proof.
  intros Hw Hrender.
  destruct (render_scene_mount _ _ _ _ _ _ Hw Hrender)
    as (Hinv & Hsc & s' & pk & p & base & HM).
  destruct (mount_heap _ _ _ _ _ _ _ _ _ HM) as (xs & Hxs & Hheap).
  destruct (mount_scene Hsc HM) as (o & Ho & Hroot & _).
  pose proof (mount_object_before Hsc HM) as Hbefore.
  rewrite Ho in Hbefore. injection Hbefore as Hbefore.
  exists s', xs.
  split_and!; [apply (mount_state _ _ _ _ _ _ _ _ _ HM) | done | |].
  - rewrite (mount_object_after HM), Hheap, list_lookup_alter_eq, Ho.
    simpl. unfold shown. by rewrite <-Hbefore, Hroot.
  - intros q oq Hq Hne. rewrite <-Hq. apply (mount_other HM).
    + intros ->. by rewrite (mount_sceneProjector HM) in Hne.
    + by eapply lookup_lt_Some.
Qed.

Lemma fulfilled_render_attaches_witness :
  reachable afterAB ∧
  render freshInstances 0 (scene ["A"]) afterAB
    = (Fulfilled {| stateOf := 0 |}, afterAB_A) ∧
  ∃ s' xs,
    stateFor freshInstances afterAB_A = Some s' ∧
    sceneChildren freshInstances afterAB_A = Some xs ∧
    sceneObject freshInstances afterAB_A
      = Some {| mountRoot := root s'; childList := xs;
                attachCalls :=
                  S (attachCalls (default (freshProjector (root s'))
                                          (sceneObject freshInstances afterAB))) |} ∧
    ∀ (q : nat) o, projectorHeap (env afterAB) !! q = Some o →
      sceneProjector s' ≠ Some q →
      projectorHeap (env afterAB_A) !! q = Some o.
Proof.
  assert (reachable afterAB) as Hw.
  { apply (reachable_render freshInstances 0 (scene ["A"; "B"]) newWorld).
    apply reachable_new. }
  split; [exact Hw|]. split; [by vm_compute|].
  apply (fulfilled_render_attaches freshInstances 0 ["A"] afterAB
           {| stateOf := 0 |} afterAB_A).
  - exact Hw.
  - by vm_compute.
Defined.

(** The scene [A,B] rendered twice: the projector was attached twice. *)
Example attached_at_every_render :
  (attachCalls <$> sceneObject freshInstances afterAB) = Some 1 ∧
  (attachCalls <$>
     sceneObject freshInstances
       (render freshInstances 0 (scene ["A"; "B"]) afterAB).2) = Some 2.
Proof. by vm_compute. Qed.

(** ** Several registries *)

(** A second registry, with the same answers as [freshInstances]. *)
Definition secondRegistry : ReadOnlyRegistry :=
  {| registryRef := 1; getWidget := getWidget freshInstances |}.

(** X10.  A render for one registry leaves the render state of every other
    registry as it was, and the projector of the scene of every other
    registry too: same children, same count of [attach()] calls. *)
Theorem render_leaves_other_registries registry other el tree w r w' :
  reachable w → registryRef other ≠ registryRef registry →
  render registry el tree w = (r, w') →
  stateFor other w' = stateFor other w ∧
  sceneObject other w' = sceneObject other w ∧
  sceneChildren other w' = sceneChildren other w.
Proof.
  intros Hw Hne Hrender.
  assert (stateFor other w' = stateFor other w ∧
          sceneObject other w' = sceneObject other w) as [Hst Hobj].
  { destruct tree as [[append]|sw]; [|by injection Hrender as <- <-].
    pose proof (reachable_inv _ Hw) as Hinv.
    pose proof (reachable_sceneInv _ Hw) as Hsc.
    destruct (render_mount _ _ _ _ _ _ Hinv Hrender)
      as (s' & pk & p & base & HM).
    assert (stateFor other w' = stateFor other w) as Hst.
    { unfold stateFor. rewrite (mount_states _ _ _ _ _ _ _ _ _ HM).
      by rewrite lookup_insert_ne. }
    split; [done|]. unfold sceneObject. rewrite Hst.
    destruct (stateFor other w) as [t|] eqn:Ht; [simpl|done].
    destruct (sceneProjector t) as [q|] eqn:Hq; [simpl|done].
    unfold sceneProjector in Hq.
    destruct (JsMap.get (projectorKeys t) _) as [k|]; [simpl in Hq|done].
    apply (mount_other HM).
    - intros ->. by destruct (mount_owner Hinv Hsc HM _ _ _ Ht Hq) as [? _].
    - by destruct (inv_projectors _ _ (inv_states _ Hinv _ _ Ht) _ _ Hq)
        as (_ & ? & _). }
  split_and!; [done | done |]. by rewrite !sceneChildren_object, Hobj.
Qed.

Lemma render_leaves_other_registries_witness :
  reachable afterAB ∧ registryRef freshInstances ≠ registryRef secondRegistry ∧
  render secondRegistry 5 (scene ["A"]) afterAB
    = (Fulfilled {| stateOf := 1 |},
       (render secondRegistry 5 (scene ["A"]) afterAB).2) ∧
  stateFor freshInstances (render secondRegistry 5 (scene ["A"]) afterAB).2
    = stateFor freshInstances afterAB ∧
  sceneObject freshInstances (render secondRegistry 5 (scene ["A"]) afterAB).2
    = sceneObject freshInstances afterAB ∧
  sceneChildren freshInstances (render secondRegistry 5 (scene ["A"]) afterAB).2
    = sceneChildren freshInstances afterAB.
Proof.
  assert (reachable afterAB) as Hw.
  { apply (reachable_render freshInstances 0 (scene ["A"; "B"]) newWorld).
    apply reachable_new. }
  split; [exact Hw|]. split; [done|]. split; [by vm_compute|].
  apply (render_leaves_other_registries secondRegistry freshInstances 5
           (scene ["A"]) afterAB (Fulfilled {| stateOf := 1 |})).
  - exact Hw.
  - done.
  - by vm_compute.
Defined.

(** ** The handle of a scene, in any reachable world *)

Lemma foldl_delete_cons {K V} `{EqDecision K} (m : JsMap.t K V) k v ks :
  k ∉ ks →
  foldl JsMap.delete ((k, v) :: m) ks = (k, v) :: foldl JsMap.delete m ks.
Proof.
  revert m. induction ks as [|k' ks IH]; intros m Hk; [done|].
  apply not_elem_of_cons in Hk as [Hne Hk]. simpl.
  rewrite decide_False by done. by apply IH.
Qed.

(** Deleting the keys of the entries that satisfy [P] leaves the others. *)
Lemma foldl_delete_filter {K V} `{EqDecision K} (P : K * V → Prop)
    `{∀ x, Decision (P x)} (m : list (K * V)) :
  NoDup m.*1 →
  foldl JsMap.delete m (filter P m).*1 = filter (λ x, ¬ P x) m.
Proof.
  induction m as [|[k v] m IH]; [done|]. intros [Hk Hnd]%NoDup_cons.
  destruct (decide (P (k, v))) as [HP|HP].
  - rewrite filter_cons_True by done.
    rewrite filter_cons_False by (by intros ?).
    simpl. rewrite decide_True by done. by apply IH.
  - rewrite filter_cons_False by done. rewrite filter_cons_True by done.
    rewrite foldl_delete_cons; [by rewrite IH|].
    intros Hin. apply Hk.
    apply list_elem_of_fmap in Hin as (x & -> & Hx%list_elem_of_filter).
    apply list_elem_of_fmap. exists x. by destruct Hx.
Qed.

(** The state [destroy()] of a scene handle leaves: no projector key, and
    the widget keys that had no instance. *)
Definition evicted (s : RenderState) : RenderState :=
  set_widgetKeys (filter (λ entry, ¬ is_Some (widgets s !! ref entry.2)))
    (set_projectorKeys (λ _, []) s).

Lemma destroyScene_evicted e s :
  stateInv e s →
  destroyScene (s, e)
    = (evicted s,
       set_destroyed
         (destroyed e ++ (WidgetInstance <$> cachedInstances s)) e).
Proof.
  intros Hinv. rewrite (destroyScene_spec _ _ Hinv). unfold evicted.
  f_equal. unfold set_widgetKeys. simpl. f_equal. unfold withInstance.
  apply (foldl_delete_filter (λ entry, is_Some (widgets s !! ref entry.2))).
  apply (inv_widgetKeys_nodup _ _ Hinv).
Qed.

Lemma evicted_cached s v : cachedWidget (evicted s) v = None.
Proof.
  unfold cachedWidget.
  destruct (JsMap.get (widgetKeys (evicted s)) v) as [k|] eqn:Hk; [|done].
  apply JsMap_get_Some_elem in Hk. simpl in Hk.
  apply list_elem_of_filter in Hk as [Hnone _]. simpl in *.
  destruct (widgets s !! ref k); [|done]. exfalso. apply Hnone. by eexists.
Qed.





Lemma destroy_evicted h w s :
  worldInv w → renderState w !! stateOf h = Some s →
  destroy h w
    = {| renderState := <[stateOf h := evicted s]> (renderState w);
         env := set_destroyed
                  (destroyed (env w) ++ (WidgetInstance <$> cachedInstances s))
                  (env w);
         inFlight := inFlight w |}.
Proof.
  intros Hw Hs. unfold destroy. rewrite Hs.
  by rewrite (destroyScene_evicted _ _ (inv_states _ Hw _ _ Hs)).
Qed.

(** X11.  [destroy()] of a scene handle evicts every instance: in any
    reachable world, after the call no identifier of the registry has a
    cached instance and [projectorKeys] is empty, so the registry has no
    scene.  The keys whose resolution has not completed have no handle and
    are skipped: they stay in [widgetKeys], in order.  The weak maps keep
    their entries. *)
Theorem destroy_evicts_every_instance registry w s :
  reachable w → stateFor registry w = Some s →
  ∃ s',
    stateFor registry (destroy {| stateOf := registryRef registry |} w)
      = Some s' ∧
    (∀ v, cachedWidget s' v = None) ∧
    widgetKeys s'
      = filter (λ entry, ¬ is_Some (widgets s !! ref entry.2)) (widgetKeys s) ∧
    projectorKeys s' = [] ∧
    sceneChildren registry (destroy {| stateOf := registryRef registry |} w)
      = None ∧
    widgets s' = widgets s ∧ handles s' = handles s ∧
    projectors s' = projectors s.
Proof.
  intros Hw Hs.
  rewrite (destroy_evicted {| stateOf := registryRef registry |} w s
             (reachable_inv _ Hw) Hs).
  exists (evicted s). unfold sceneChildren, stateFor. simpl.
  rewrite lookup_insert_eq. split_and!; try done. apply evicted_cached.
Qed.

Lemma destroy_evicts_every_instance_witness :
  reachable afterFailedAB ∧
  stateFor withoutB afterFailedAB
    = Some (default (newRenderState 0) (stateFor withoutB afterFailedAB)) ∧
  ∃ s',
    stateFor withoutB (destroy {| stateOf := registryRef withoutB |} afterFailedAB)
      = Some s' ∧
    (∀ v, cachedWidget s' v = None) ∧
    widgetKeys s'
      = filter (λ entry,
                  ¬ is_Some (widgets (default (newRenderState 0)
                                        (stateFor withoutB afterFailedAB))
                               !! ref entry.2))
          (widgetKeys (default (newRenderState 0)
                         (stateFor withoutB afterFailedAB))) ∧
    projectorKeys s' = [] ∧
    sceneChildren withoutB
      (destroy {| stateOf := registryRef withoutB |} afterFailedAB) = None ∧
    widgets s'
      = widgets (default (newRenderState 0) (stateFor withoutB afterFailedAB)) ∧
    handles s'
      = handles (default (newRenderState 0) (stateFor withoutB afterFailedAB)) ∧
    projectors s'
      = projectors (default (newRenderState 0)
                      (stateFor withoutB afterFailedAB)).
Proof.
  assert (reachable afterFailedAB) as Hw.
  { apply (reachable_render withoutB 0 (scene ["A"; "B"]) newWorld).
    apply reachable_new. }
  split; [exact Hw|]. split; [by vm_compute|].
  apply (destroy_evicts_every_instance withoutB afterFailedAB).
  - exact Hw.
  - by vm_compute.
Defined.

(** After the rejected render of [A,B], [destroy()] destroys the instance
    of A and evicts its key; the key of B, whose resolution failed, stays. *)
Example destroy_skips_key_without_instance :
  destroyed (env (destroy {| stateOf := 0 |} afterFailedAB))
    = [WidgetInstance 100] ∧
  (widgetKeys <$>
     stateFor withoutB (destroy {| stateOf := 0 |} afterFailedAB))
    = Some [("B", {| ref := 2; value := "B" |})].
Proof. by vm_compute. Qed.



Lemma filter_all {A} (P : A → Prop) `{∀ x, Decision (P x)} (l : list A) :
  (∀ x, P x) → filter P l = l.
Proof.
  intros HP. induction l as [|x l IH]; [done|].
  rewrite filter_cons_True by done. by rewrite IH.
Qed.

Lemma JsMap_get_filter_None {K V} `{EqDecision K} (P : K * V → Prop)
    `{∀ x, Decision (P x)} (m : list (K * V)) k :
  NoDup m.*1 → (∀ v, JsMap.get m k = Some v → ¬ P (k, v)) →
  JsMap.get (filter P m) k = None.
Proof.
  intros Hnd Hno. apply JsMap_get_None_keys.
  intros ([k' v] & -> & [HP Hin]%list_elem_of_filter)%list_elem_of_fmap.
  simpl in *. apply (Hno v); [|done]. by apply JsMap_elem_get.
Qed.

(** X13.  After [destroy()] of its scene handle a registry starts anew,
    however many of the promises in flight have settled since.  The next
    render calls [getWidget] for every requested identifier that had a
    cached instance or no key when [destroy()] was called, and, when no
    resolution was pending then, for every requested identifier, once per
    occurrence.  It makes a new projector, on the root of the state; the
    projectors that existed, the one of the destroyed scene among them, are
    left as they were, with their children. *)
Theorem render_after_destroy registry el ids w s n w1 r w2 :
  reachable w → stateFor registry w = Some s →
  w1 = settleN n (destroy {| stateOf := registryRef registry |} w) →
  render registry el (scene ids) w1 = (r, w2) →
  (∀ v, v ∈ ids →
     is_Some (cachedWidget s v) ∨ JsMap.get (widgetKeys s) v = None →
     v ∈ callsSince (env w1) (env w2)) ∧
  (inFlight w = [] → callsSince (env w1) (env w2) = ids) ∧
  ∃ s2 p,
    stateFor registry w2 = Some s2 ∧ sceneProjector s2 = Some p ∧
    (p : nat) = length (projectorHeap (env w)) ∧
    sceneProjector s ≠ Some p ∧
    root s2 = root s ∧
    ∀ (q : nat) o, projectorHeap (env w) !! q = Some o →
                   projectorHeap (env w2) !! q = Some o.
Proof.
  intros Hw Hs -> Hrender. pose proof (reachable_inv _ Hw) as Hinv.
  pose proof (inv_states _ Hinv _ _ Hs) as Hst.
  pose proof (reachable_destroy {| stateOf := registryRef registry |} w Hw)
    as Hwd.
  pose proof (destroy_evicted {| stateOf := registryRef registry |} w s
                Hinv Hs) as Hd.
  set (wd := destroy {| stateOf := registryRef registry |} w) in *.
  assert (renderState wd !! registryRef registry = Some (evicted s)) as Hsd.
  { rewrite Hd. simpl. by rewrite lookup_insert_eq. }
  destruct (settleN_frame n wd _ _ Hsd)
    as (sn & Hsn & Hrootn & _ & Hpkn & _ & Hkn & _).
  pose proof (settleN_reachable n wd Hwd) as Hw1.
  set (w1 := settleN n wd) in *.
  assert (stateBefore registry el w1 = sn) as Hbefore
    by (by apply stateBefore_after).
  assert (projectorHeap (env w1) = projectorHeap (env w)) as Hheap1.
  { unfold w1. rewrite settleN_env, Hd. done. }
  destruct (render_step _ _ _ _ _ _ Hw1 Hrender)
    as (Hinv1 & _ & _ & slots & s1 & fin & rest & HP).
  destruct (render_scene_mount _ _ _ _ _ _ Hw1 Hrender)
    as (_ & Hsc1 & s2 & pk & p & base & HM).
  split_and!.
  - intros v Hv Hcase. apply (pass_uncached_called Hinv1 HP).
    { apply list_elem_of_fmap. by exists v. }
    rewrite Hbefore. unfold cachedWidget. rewrite Hkn.
    assert (JsMap.get (widgetKeys (evicted s)) v = None) as ->; [|done].
    apply (JsMap_get_filter_None
             (λ entry : Identifier * Key,
                ¬ is_Some (widgets s !! ref entry.2))).
    + apply (inv_widgetKeys_nodup _ _ Hst).
    + intros k Hk Hno. simpl in Hk, Hno. destruct Hcase as [[x Hx]|Hnone].
      * unfold cachedWidget in Hx. unfold Identifier in *.
        rewrite Hk in Hx. simpl in Hx. apply Hno. by eexists.
      * unfold Identifier in *. congruence.
  - intros Hquiet.
    assert (w1 = wd) as Heq.
    { unfold w1. apply settleN_quiet. rewrite Hd. done. }
    assert (sn = evicted s) as ->.
    { rewrite Heq in Hsn. congruence. }
    rewrite (pass_callsSince HP).
    rewrite (pass_filter _ _ _ _ _ _ _ _ _ _ _ _ Hinv1 HP
               (pass_slots _ _ _ _ _ _ _ _ _ _ HP)), widget_scene.
    apply filter_all. intros v. unfold uncached. rewrite Hbefore.
    apply bool_decide_pack, evicted_cached.
  - assert ((p : nat) = length (projectorHeap (env w))) as Hp.
    { destruct (mount_base _ _ _ _ _ _ _ _ _ HM)
        as [(_ & Hscene & _)|(_ & _ & -> & _)]; [|by rewrite Hheap1].
      rewrite Hbefore in Hscene. unfold sceneProjector in Hscene.
      by rewrite Hpkn in Hscene. }
    exists s2, p.
    split_and!; [apply (mount_state _ _ _ _ _ _ _ _ _ HM) | | done | | |].
    + apply (mount_sceneProjector HM).
    + unfold sceneProjector. intros Hscene.
      destruct (JsMap.get (projectorKeys s) _) as [k|]; [simpl in Hscene|done].
      destruct (inv_projectors _ _ Hst _ _ Hscene) as (_ & Hlt & _). lia.
    + by rewrite (mount_root _ _ _ _ _ _ _ _ _ HM), Hbefore, Hrootn.
    + intros q o Hq. rewrite <-Hq, <-Hheap1. apply (mount_other HM).
      * pose proof (lookup_lt_Some _ _ _ Hq). lia.
      * rewrite Hheap1. by eapply lookup_lt_Some.
Qed.

Lemma render_after_destroy_witness :
  reachable afterAB ∧
  stateFor freshInstances afterAB
    = Some (default (newRenderState 0) (stateFor freshInstances afterAB)) ∧
  afterABDestroyed
    = settleN 1 (destroy {| stateOf := registryRef freshInstances |} afterAB) ∧
  render freshInstances 0 (scene ["A"; "B"]) afterABDestroyed
    = (Fulfilled {| stateOf := 0 |},
       (render freshInstances 0 (scene ["A"; "B"]) afterABDestroyed).2) ∧
  (∀ v, v ∈ ["A"; "B"] →
     is_Some (cachedWidget (default (newRenderState 0)
                              (stateFor freshInstances afterAB)) v) ∨
     JsMap.get (widgetKeys (default (newRenderState 0)
                              (stateFor freshInstances afterAB))) v = None →
     v ∈ callsSince (env afterABDestroyed)
           (env (render freshInstances 0 (scene ["A"; "B"])
                   afterABDestroyed).2)) ∧
  (inFlight afterAB = [] →
   callsSince (env afterABDestroyed)
     (env (render freshInstances 0 (scene ["A"; "B"]) afterABDestroyed).2)
     = ["A"; "B"]) ∧
  ∃ s2 p,
    stateFor freshInstances
      (render freshInstances 0 (scene ["A"; "B"]) afterABDestroyed).2
      = Some s2 ∧
    sceneProjector s2 = Some p ∧
    (p : nat) = length (projectorHeap (env afterAB)) ∧
    sceneProjector (default (newRenderState 0)
                      (stateFor freshInstances afterAB)) ≠ Some p ∧
    root s2
      = root (default (newRenderState 0) (stateFor freshInstances afterAB)) ∧
    ∀ (q : nat) o, projectorHeap (env afterAB) !! q = Some o →
      projectorHeap
        (env (render freshInstances 0 (scene ["A"; "B"]) afterABDestroyed).2)
        !! q = Some o.
Proof.
  assert (reachable afterAB) as Hw.
  { apply (reachable_render freshInstances 0 (scene ["A"; "B"]) newWorld).
    apply reachable_new. }
  split; [exact Hw|]. split; [by vm_compute|]. split; [by vm_compute|].
  split; [by vm_compute|].
  apply (render_after_destroy freshInstances 0 ["A"; "B"] afterAB
           (default (newRenderState 0) (stateFor freshInstances afterAB))
           1 afterABDestroyed
           (Fulfilled {| stateOf := 0 |})
           (render freshInstances 0 (scene ["A"; "B"]) afterABDestroyed).2).
  - exact Hw.
  - by vm_compute.
  - by vm_compute.
  - by vm_compute.
Defined.

(** A key whose resolution is pending when [destroy()] is called stays, and
    the instance is stored under it when the resolution completes: the next
    render makes no call for it. *)
Example pending_key_survives_destroy :
  callsSince
    (env (settleAll (destroy {| stateOf := 0 |} afterLateA)))
    (env (render slowSiblings 0 (scene ["A"])
            (settleAll (destroy {| stateOf := 0 |} afterLateA))).2) = [] ∧
  sceneChildren slowSiblings
    (render slowSiblings 0 (scene ["A"])
       (settleAll (destroy {| stateOf := 0 |} afterLateA))).2 = Some [100].
Proof. by vm_compute. Qed.

(** The scene [A,B] rendered, destroyed and rendered again: a second
    projector is mounted on the same root, next to the first, which still
    holds the two destroyed instances. *)
Example second_projector_after_destroy :
  projectorHeap
    (env (render freshInstances 0 (scene ["A"; "B"]) afterABDestroyed).2)
    = [{| mountRoot := 0; childList := [100; 101]; attachCalls := 1 |};
       {| mountRoot := 0; childList := [102; 103]; attachCalls := 1 |}] ∧
  destroyed
    (env (render freshInstances 0 (scene ["A"; "B"]) afterABDestroyed).2)
    = [WidgetInstance 100; WidgetInstance 101].
Proof. by vm_compute. Qed.

(** ** Resolutions that complete after a rejected render *)

(** X14.  A resolution that completes after its render was rejected still
    stores its instance.  When a render is rejected, every requested
    identifier that the registry resolves has a cached instance once the
    promises in flight have settled, whether its resolution completed
    before or after the failing one; a later render makes no [getWidget]
    call for it. *)
Theorem late_resolutions_are_cached registry el ids v w err w' :
  reachable w → v ∈ ids →
  (∀ n, length (resolved (env w)) ≤ n →
        is_Some (outcome (getWidget registry n v))) →
  render registry el (scene ids) w = (Rejected err, w') →
  ∃ s'' x,
    stateFor registry (settleAll w') = Some s'' ∧
    cachedWidget s'' v = Some x ∧
    ∀ el' ids' r' w'',
      render registry el' (scene ids') (settleAll w') = (r', w'') →
      v ∉ callsSince (env (settleAll w')) (env w'').
Proof.
  intros Hw Hv Hok Hrender.
  destruct (render_step _ _ _ _ _ _ Hw Hrender)
    as (Hinv & Hw' & Hinv' & slots & s1 & fin & rest & HP).
  pose proof (pass_state _ _ _ _ _ _ _ _ _ _ HP) as Hs'.
  set (s' := foldl runCallback s1 fin) in *.
  destruct (settleN_spec (length (inFlight w')) w' eq_refl)
    as (_ & _ & Hstates).
  destruct (Hstates _ _ Hs') as (s'' & Hs'' & Hkeys & Hmono & Hlate).
  fold (settleAll w') in Hs''.
  assert (∃ k, JsMap.get (widgetKeys s') v = Some k ∧
               is_Some (widgets s'' !! ref k)) as (k & Hk & [x Hx]).
  { apply list_elem_of_lookup in Hv as [i Hi].
    assert (((λ u, {| widget := u |}) <$> ids) !! i = Some {| widget := v |})
      as Hsw by (by rewrite list_lookup_fmap, Hi).
    destruct (Forall2_lookup_l _ _ _ _ _ (pass_slots _ _ _ _ _ _ _ _ _ _ HP) Hsw)
      as (slot & Hslot & Hfor).
    destruct slot as [c|p].
    - pose proof (pass_slot_ready Hinv HP _ _ Hfor) as Hc. simpl in Hc.
      destruct (cached_installed _ _ _ _ (stateBefore_inv registry el w Hinv) Hc)
        as (k & Hin).
      destruct (pass_keeps_installed Hinv HP _ _ _ Hin) as (Hk & Hx & _).
      exists k. split; [done|]. apply Hmono. by eexists.
    - destruct Hfor as (k & Hk & <- & _ & _ & n & Hn & _ & Hres).
      simpl in *. exists (waitingKey p).
      split; [by apply (pass_get_live HP)|].
      assert (succeeded p) as Hsucc.
      { unfold succeeded. rewrite Hres. by apply Hok. }
      assert (p ∈ fin ++ rest) as Hin.
      { rewrite <-(pass_order _ _ _ _ _ _ _ _ _ _ HP).
        eapply elem_of_Permutation_proper; [apply completionOrder_perm|].
        apply promised_elem, list_elem_of_lookup. by exists i. }
      apply elem_of_app in Hin as [Hin|Hin].
      + apply Hmono.
        destruct (runCallbacks_written fin s1 p Hin Hsucc)
          as (q & y & _ & _ & _ & Hy & _).
        by eexists.
      + destruct (pass_result _ _ _ _ _ _ _ _ _ _ HP)
          as (q & rest' & -> & Hq & _ & Hfl).
        apply elem_of_cons in Hin as [->|Hin].
        { destruct Hsucc as [y Hy]. congruence. }
        apply Hlate; [|done]. rewrite Hfl. apply elem_of_app. right.
        apply list_elem_of_fmap. by exists p. }
  assert (cachedWidget s'' v = Some x) as Hcached.
  { unfold cachedWidget. rewrite Hkeys, Hk. done. }
  exists s'', x. split_and!; [done | done |].
  intros el' ids' r' w'' Hnext.
  assert (reachable (settleAll w')) as Hreach by (by apply settleN_reachable).
  destruct (render_step _ _ _ _ _ _ Hreach Hnext)
    as (Hinv2 & _ & _ & slots2 & t1 & fin2 & rest2 & HP2).
  apply (pass_cached_not_called HP2).
  rewrite (stateBefore_after _ el' _ _ Hs''). by eexists.
Qed.

Lemma late_resolutions_are_cached_witness :
  reachable newWorld ∧ "A" ∈ ["A"; "B"] ∧
  (∀ n, length (resolved (env newWorld)) ≤ n →
        is_Some (outcome (getWidget slowSiblings n "A"))) ∧
  render slowSiblings 0 (scene ["A"; "B"]) newWorld
    = (Rejected (ResolutionFailed "B"), afterLateA) ∧
  ∃ s'' x,
    stateFor slowSiblings (settleAll afterLateA) = Some s'' ∧
    cachedWidget s'' "A" = Some x ∧
    ∀ el' ids' r' w'',
      render slowSiblings el' (scene ids') (settleAll afterLateA) = (r', w'') →
      "A" ∉ callsSince (env (settleAll afterLateA)) (env w'').
Proof.
  assert (∀ n, length (resolved (env newWorld)) ≤ n →
            is_Some (outcome (getWidget slowSiblings n "A"))) as Hok.
  { intros n _. by eexists. }
  split; [apply reachable_new|]. split; [by left|]. split; [exact Hok|].
  split; [by vm_compute|].
  apply (late_resolutions_are_cached slowSiblings 0 ["A"; "B"] "A" newWorld
           (ResolutionFailed "B") afterLateA).
  - apply reachable_new.
  - by left.
  - exact Hok.
  - by vm_compute.
Defined.

(** The rejected render of [A,B] leaves the resolution of A in flight, with
    nothing cached for A; once it has settled, A is cached. *)
Example late_sibling_is_cached :
  (waitingFor ∘ snd <$> inFlight afterLateA) = ["A"] ∧
  (s ← stateFor slowSiblings afterLateA; cachedWidget s "A") = None ∧
  (s ← stateFor slowSiblings (settleAll afterLateA); cachedWidget s "A")
    = Some 100.
Proof. by vm_compute. Qed.

(** ** The removal loop *)

(** The previous keys that are not among the new keys, compared as
    objects. *)
Definition dropped (newKeys previousKeys : list Key) : list Key :=
  filter (λ k, includes newKeys k = false) previousKeys.

Definition invoke (m : Mem) (h : Handle) : Mem := destroyHandle h m.

Lemma destroyHandle_handles h m : handles (destroyHandle h m).1 = handles m.1.
Proof. destruct m as [s e]. by destruct h. Qed.

(** X15.  The loop over the previous keys invokes the handle of every
    previous key that is not among the new keys, in order, and of no other
    key.  It throws, with a TypeError, at the first of those keys that has
    no handle, after the handles of the keys before it were invoked. *)
Theorem removal_loop newKeys previousKeys m :
  match destroyRemoved newKeys previousKeys m with
  | (Fulfilled _, m') =>
      Forall (λ k, is_Some (handles m.1 !! ref k))
             (dropped newKeys previousKeys) ∧
      m' = foldl invoke m
             (omap (λ k, handles m.1 !! ref k) (dropped newKeys previousKeys))
  | (Rejected err, m') =>
      err = TypeError ∧
      ∃ before k after,
        dropped newKeys previousKeys = before ++ k :: after ∧
        Forall (λ k, is_Some (handles m.1 !! ref k)) before ∧
        handles m.1 !! ref k = None ∧
        m' = foldl invoke m (omap (λ k, handles m.1 !! ref k) before)
  end.
Proof.
  revert m. unfold dropped.
  induction previousKeys as [|key rest IH]; intros m; cbn [destroyRemoved].
  { by split. }
  destruct (includes newKeys key) eqn:Hin.
  - rewrite filter_cons_False by (by rewrite Hin). apply IH.
  - rewrite filter_cons_True by done.
    destruct (handles m.1 !! ref key) as [h|] eqn:Hh.
    + specialize (IH (destroyHandle h m)).
      rewrite (destroyHandle_handles h m) in IH.
      destruct (destroyRemoved newKeys rest (destroyHandle h m))
        as [[[]|err] m'].
      * destruct IH as [Hall ->]. split.
        -- constructor; [by rewrite Hh | done].
        -- cbn [omap list_omap]. by rewrite Hh.
      * destruct IH as (-> & before & k & after & Heq & Hall & Hk & ->).
        split; [done|]. exists (key :: before), k, after.
        split_and!; [by rewrite Heq | | done |].
        -- constructor; [by rewrite Hh | done].
        -- cbn [omap list_omap]. by rewrite Hh.
    + split; [done|].
      exists [], key, (filter (λ k, includes newKeys k = false) rest).
      by split_and!.
Qed.

(** ** The keys a render adds *)

Lemma requestChildren_keys registry append m slots m' :
  requestChildren registry append m = (slots, m') →
  ∀ v k, (v, k) ∈ widgetKeys m'.1 →
    (v, k) ∈ widgetKeys m.1 ∨ {| widget := v |} ∈ append.
Proof.
  revert m slots m'.
  induction append as [|[u] append IH]; intros m slots m';
    cbn [requestChildren].
  - intros [= <- <-]. by left.
  - destruct (requestChild registry u m) as [slot m1] eqn:Hchild.
    destruct (requestChildren registry append m1) as [slots1 m2] eqn:Hrest.
    intros [= <- <-] v k Hk.
    destruct (IH _ _ _ Hrest v k Hk) as [Hk1|Hin]; [|right; by right].
    assert ((v, k) ∈ widgetKeys m.1 ∨ v = u) as [Hold | ->];
      [|by left|right; by left].
    destruct m as [s e]. unfold requestChild in Hchild.
    destruct (JsMap.get (widgetKeys s) u) as [k0|] eqn:Hget; simpl in Hchild.
    + destruct (widgets s !! ref k0); injection Hchild as <- <-; by left.
    + destruct (widgets s !! nextRef e); injection Hchild as <- <-;
        simpl in Hk1; rewrite (JsMap_set_fresh _ _ _ Hget) in Hk1;
        apply elem_of_app in Hk1 as [?|Hk1]; try (by left);
        apply list_elem_of_singleton in Hk1; injection Hk1 as -> _; by right.
Qed.

(** X16.  A render only adds keys: the keys of the state before are kept,
    as the same objects and in their order, and the keys added behind them
    are new objects, one for each requested identifier that had no key and
    for no other identifier. *)
Theorem render_adds_only_requested_keys registry el ids w r w' :
  reachable w → render registry el (scene ids) w = (r, w') →
  ∃ s' new,
    stateFor registry w' = Some s' ∧
    widgetKeys s' = widgetKeys (stateBefore registry el w) ++ new ∧
    NoDup new.*1 ∧
    (∀ v k, (v, k) ∈ new →
       v ∈ ids ∧ value k = v ∧ nextRef (env w) ≤ ref k ∧
       JsMap.get (widgetKeys (stateBefore registry el w)) v = None) ∧
    (∀ v, v ∈ ids →
       JsMap.get (widgetKeys (stateBefore registry el w)) v = None →
       v ∈ new.*1).
Proof.
  intros Hw Hrender.
  destruct (render_step _ _ _ _ _ _ Hw Hrender)
    as (Hinv & _ & _ & slots & s1 & fin & rest & HP).
  pose proof (pass_inv _ _ _ _ _ _ _ _ _ _ HP) as Hinv1.
  destruct (pass_keys _ _ _ _ _ _ _ _ _ _ HP) as [new Hnew].
  pose proof (inv_widgetKeys_nodup _ _ Hinv1) as Hnd.
  rewrite Hnew, fmap_app in Hnd.
  apply NoDup_app in Hnd as (_ & Hdisj & Hndnew).
  assert (∀ v k, (v, k) ∈ new →
            JsMap.get (widgetKeys (stateBefore registry el w)) v = None)
    as Hnone.
  { intros v k Hk. apply JsMap_get_None_keys. intros Hold.
    apply (Hdisj v Hold). apply list_elem_of_fmap. by exists (v, k). }
  exists (foldl runCallback s1 fin), new.
  split_and!; [apply (pass_state _ _ _ _ _ _ _ _ _ _ HP) | | done | |].
  - by rewrite (pass_widgetKeys_after (s1 := s1) (finished := fin)).
  - intros v k Hk.
    assert ((v, k) ∈ widgetKeys s1) as Hk1
      by (rewrite Hnew; apply elem_of_app; by right).
    assert ((v, k) ∉ widgetKeys (stateBefore registry el w)) as Hfresh.
    { intros Hold%(JsMap_elem_get _ _ _
        (inv_widgetKeys_nodup _ _ (stateBefore_inv registry el w Hinv))).
      rewrite (Hnone _ _ Hk) in Hold. done. }
    split_and!; [| | |by eapply Hnone].
    + destruct (pass_request _ _ _ _ _ _ _ _ _ _ HP) as (e1 & Hreq & _).
      destruct (setupProjector (newCounter "")
                  (stateBefore registry el w, env w))
        as [[pk p] [s0 e0]] eqn:Hsetup.
      destruct (setupProjector_spec _ _ _ _ _ _
                  (stateBefore_inv registry el w Hinv) Hsetup) as [_ Hsf].
      destruct (requestChildren_keys _ _ _ _ _ Hreq v k Hk1) as [Hold|Hin].
      * simpl in Hold. by rewrite (sf_widgetKeys _ _ _ _ _ _ Hsf) in Hold.
      * apply list_elem_of_fmap in Hin as (u & [= ->] & Hu). done.
    + by destruct (inv_widgetKeys _ _ Hinv1 _ _ Hk1).
    + by destruct (pass_fresh _ _ _ _ _ _ _ _ _ _ HP _ _ Hk1).
  - intros v Hv Hget.
    assert ({| widget := v |} ∈ (λ u, {| widget := u |}) <$> ids) as Hsw
      by (apply list_elem_of_fmap; by exists v).
    apply list_elem_of_lookup in Hsw as [i Hi].
    destruct (Forall2_lookup_l _ _ _ _ _ (pass_slots _ _ _ _ _ _ _ _ _ _ HP) Hi)
      as (slot & _ & k & Hk & _).
    simpl in Hk. rewrite Hnew in Hk. apply elem_of_app in Hk as [Hold|Hk].
    + apply (JsMap_elem_get _ _ _
        (inv_widgetKeys_nodup _ _ (stateBefore_inv registry el w Hinv))) in Hold.
      congruence.
    + apply list_elem_of_fmap. by exists (v, k).
Qed.

Lemma render_adds_only_requested_keys_witness :
  reachable afterA ∧
  render freshInstances 0 (scene ["B"; "A"; "B"]) afterA
    = (Fulfilled {| stateOf := 0 |},
       (render freshInstances 0 (scene ["B"; "A"; "B"]) afterA).2) ∧
  ∃ s' new,
    stateFor freshInstances
      (render freshInstances 0 (scene ["B"; "A"; "B"]) afterA).2 = Some s' ∧
    widgetKeys s' = widgetKeys (stateBefore freshInstances 0 afterA) ++ new ∧
    NoDup new.*1 ∧
    (∀ v k, (v, k) ∈ new →
       v ∈ ["B"; "A"; "B"] ∧ value k = v ∧ nextRef (env afterA) ≤ ref k ∧
       JsMap.get (widgetKeys (stateBefore freshInstances 0 afterA)) v = None) ∧
    (∀ v, v ∈ ["B"; "A"; "B"] →
       JsMap.get (widgetKeys (stateBefore freshInstances 0 afterA)) v = None →
       v ∈ new.*1).
Proof.
  assert (reachable afterA) as Hw.
  { apply (reachable_render freshInstances 0 (scene ["A"]) newWorld).
    apply reachable_new. }
  split; [exact Hw|]. split; [by vm_compute|].
  apply (render_adds_only_requested_keys freshInstances 0 ["B"; "A"; "B"]
           afterA (Fulfilled {| stateOf := 0 |})).
  - exact Hw.
  - by vm_compute.
Defined.

(** ** An identifier that is requested twice *)

(** X17.  With no resolution of an earlier render pending, when a scene
    requests twice an identifier that has no cached instance and the render
    is fulfilled, the projector gets the instances of the two [getWidget]
    calls, in the order of the request, but the two calls share one key:
    nothing is in flight afterwards, the cache holds for the identifier the
    instance of the call that completed last, with the handle that
    destroys that instance, and [destroy()] of the scene handle calls
    [destroy()] once for each identifier that has a cached instance, on
    that instance. *)
Theorem duplicate_identifier_caches_last registry el A w h w' :
  reachable w → inFlight w = [] →
  cachedWidget (stateBefore registry el w) A = None →
  render registry el (scene [A; A]) w = (Fulfilled h, w') →
  ∃ s' k x1 x2,
    outcome (getWidget registry (length (resolved (env w))) A) = Some x1 ∧
    outcome (getWidget registry (S (length (resolved (env w)))) A)
      = Some x2 ∧
    sceneChildren registry w' = Some [x1; x2] ∧
    stateFor registry w' = Some s' ∧
    inFlight w' = [] ∧
    installed s' A k
      (if latency (getWidget registry (length (resolved (env w))) A)
          <=? latency (getWidget registry (S (length (resolved (env w)))) A)
       then x2 else x1) ∧
    NoDup (widgetKeys s').*1 ∧
    destroyedSince (env w') (env (destroy h w'))
      = WidgetInstance <$> omap (cachedWidget s') (widgetKeys s').*1.
Proof.
  intros Hw Hquiet Hnone Hrender.
  destruct (render_step _ _ _ _ _ _ Hw Hrender)
    as (Hinv & _ & Hinv' & slots & s1 & fin & rest & HP).
  pose proof (pass_slots _ _ _ _ _ _ _ _ _ _ HP) as Hslots.
  simpl in Hslots.
  apply Forall2_cons_inv_l in Hslots as (sl1 & slots1 & Hsl1 & Hslots & ->).
  apply Forall2_cons_inv_l in Hslots as (sl2 & slots2 & Hsl2 & Hslots & ->).
  apply Forall2_nil_inv_l in Hslots as ->.
  destruct sl1 as [c1|p1];
    [apply (pass_slot_ready Hinv HP) in Hsl1; simpl in Hsl1; congruence|].
  destruct sl2 as [c2|p2];
    [apply (pass_slot_ready Hinv HP) in Hsl2; simpl in Hsl2; congruence|].
  destruct Hsl1 as (k & Hk & Hkey1 & Hfor1 & _).
  destruct Hsl2 as (k2 & Hk2 & Hkey2 & Hfor2 & _). simpl in *.
  pose proof (pass_inv _ _ _ _ _ _ _ _ _ _ HP) as Hinv1.
  assert (k2 = k) as ->.
  { pose proof (inv_widgetKeys_nodup _ _ Hinv1) as Hnd.
    apply (JsMap_elem_get _ _ _ Hnd) in Hk, Hk2. congruence. }
  destruct (pass_request _ _ _ _ _ _ _ _ _ _ HP) as (e1 & Hreq & _).
  destruct (setupProjector (newCounter "") (stateBefore registry el w, env w))
    as [[pk p] [s0 e0]] eqn:Hsetup.
  destruct (setupProjector_spec _ _ _ _ _ _
              (stateBefore_inv registry el w Hinv) Hsetup) as [_ Hsf].
  pose proof (requestChildren_calls _ _ _ _ _ Hreq 0 p1 eq_refl) as Hres1.
  pose proof (requestChildren_calls _ _ _ _ _ Hreq 1 p2 eq_refl) as Hres2.
  simpl in Hres1, Hres2.
  rewrite (sf_resolved _ _ _ _ _ _ Hsf), Hfor1, Nat.add_0_r in Hres1.
  rewrite (sf_resolved _ _ _ _ _ _ Hsf), Hfor2, Nat.add_1_r in Hres2.
  destruct (fulfilled_succeeded HP p1) as [x1 Hx1]; [by left|].
  destruct (fulfilled_succeeded HP p2) as [x2 Hx2]; [right; by left|].
  destruct (fulfilled_children HP) as [Hch _].
  cbn in Hch. rewrite Hx1, Hx2 in Hch. cbn in Hch.
  pose proof (pass_order _ _ _ _ _ _ _ _ _ _ HP) as Horder.
  destruct (pass_result _ _ _ _ _ _ _ _ _ _ HP) as (-> & -> & Hfl & _).
  rewrite app_nil_r in Horder. cbn in Horder.
  pose proof (pass_state _ _ _ _ _ _ _ _ _ _ HP) as Hs'.
  pose proof (inv_states _ Hinv' _ _ Hs') as Hst'.
  exists (foldl runCallback s1 fin), k, x1, x2.
  rewrite <-Hres1, <-Hres2.
  split_and!; [done | done | done | done | by rewrite Hfl | |
    apply (inv_widgetKeys_nodup _ _ Hst') |].
  - split; [by apply (pass_get_live HP)|].
    rewrite <-Horder.
    destruct (latency (resolution p1) <=? latency (resolution p2)); simpl;
      unfold runCallback; rewrite Hx1, Hx2; simpl;
      rewrite Hkey1, Hkey2, !lookup_insert_eq; done.
  - rewrite (destroy_evicted {| stateOf := registryRef registry |} w' _
               Hinv' Hs').
    unfold destroyedSince. simpl.
    by rewrite drop_app_length, (instancesOf_cached _ _ Hst').
Qed.

Lemma duplicate_identifier_caches_last_witness :
  reachable newWorld ∧ inFlight newWorld = [] ∧
  cachedWidget (stateBefore freshInstances 0 newWorld) "A" = None ∧
  render freshInstances 0 (scene ["A"; "A"]) newWorld
    = (Fulfilled {| stateOf := 0 |}, afterAA) ∧
  ∃ s' k x1 x2,
    outcome (getWidget freshInstances (length (resolved (env newWorld))) "A")
      = Some x1 ∧
    outcome (getWidget freshInstances (S (length (resolved (env newWorld)))) "A")
      = Some x2 ∧
    sceneChildren freshInstances afterAA = Some [x1; x2] ∧
    stateFor freshInstances afterAA = Some s' ∧
    inFlight afterAA = [] ∧
    installed s' "A" k
      (if latency (getWidget freshInstances
                     (length (resolved (env newWorld))) "A")
          <=? latency (getWidget freshInstances
                         (S (length (resolved (env newWorld)))) "A")
       then x2 else x1) ∧
    NoDup (widgetKeys s').*1 ∧
    destroyedSince (env afterAA) (env (destroy {| stateOf := 0 |} afterAA))
      = WidgetInstance <$> omap (cachedWidget s') (widgetKeys s').*1.
Proof.
  split; [apply reachable_new|]. split; [reflexivity|].
  split; [reflexivity|]. split; [by vm_compute|].
  apply (duplicate_identifier_caches_last freshInstances 0 "A" newWorld
           {| stateOf := 0 |} afterAA).
  - apply reachable_new.
  - reflexivity.
  - reflexivity.
  - by vm_compute.
Defined.

(** Every call is answered with an instance of its own, each call sooner
    than the one before. *)
Definition laterIsSooner : ReadOnlyRegistry :=
  {| registryRef := 0;
     getWidget := λ n _, {| latency := 9 - n; outcome := Some (100 + n) |} |}.

(** The scene [A,A]: the projector shows the two instances; the first call
    completes last, so its instance is the cached one, and [destroy()]
    destroys it and not the other. *)
Example duplicate_identifier_destroys_one :
  sceneChildren laterIsSooner
    (render laterIsSooner 0 (scene ["A"; "A"]) newWorld).2 = Some [100; 101] ∧
  destroyed
    (env (destroy {| stateOf := 0 |}
            (render laterIsSooner 0 (scene ["A"; "A"]) newWorld).2))
    = [WidgetInstance 100].
Proof. by vm_compute. Qed.

(** ** Rendering again *)



(** X19.  A render makes a projector only when the registry has none: when
    the state has the projector of a scene, the render keeps it and
    creates no other; when it has none, before the first render or after
    [destroy()], the render creates exactly one. *)
Theorem render_reuses_projector registry el ids w r w' :
  reachable w → render registry el (scene ids) w = (r, w') →
  ∃ s' p,
    stateFor registry w' = Some s' ∧ sceneProjector s' = Some p ∧
    match sceneProjector (stateBefore registry el w) with
    | Some p0 =>
        p = p0 ∧
        length (projectorHeap (env w')) = length (projectorHeap (env w))
    | None =>
        (p : nat) = length (projectorHeap (env w)) ∧
        length (projectorHeap (env w')) = S (length (projectorHeap (env w)))
    end.
Proof.
  intros Hw Hrender.
  destruct (render_scene_mount _ _ _ _ _ _ Hw Hrender)
    as (Hinv & Hsc & s' & pk & p & base & HM).
  exists s', p.
  split_and!; [apply (mount_state _ _ _ _ _ _ _ _ _ HM) |
               apply (mount_sceneProjector HM) |].
  assert (length (projectorHeap (env w')) = length base) as Hlen.
  { pose proof (mount_heap _ _ _ _ _ _ _ _ _ HM) as Hheap.
    destruct r as [h|err].
    - destruct Hheap as (xs & _ & ->). apply length_alter.
    - by rewrite Hheap. }
  rewrite Hlen.
  destruct (mount_base _ _ _ _ _ _ _ _ _ HM)
    as [(_ & -> & ->)|(_ & -> & -> & ->)]; [done|].
  split; [done|]. rewrite length_app. simpl. lia.
Qed.

Lemma render_reuses_projector_witness :
  reachable afterAB ∧
  render freshInstances 0 (scene ["C"]) afterAB
    = (Fulfilled {| stateOf := 0 |},
       (render freshInstances 0 (scene ["C"]) afterAB).2) ∧
  ∃ s' p,
    stateFor freshInstances (render freshInstances 0 (scene ["C"]) afterAB).2
      = Some s' ∧
    sceneProjector s' = Some p ∧
    match sceneProjector (stateBefore freshInstances 0 afterAB) with
    | Some p0 =>
        p = p0 ∧
        length (projectorHeap
                  (env (render freshInstances 0 (scene ["C"]) afterAB).2))
          = length (projectorHeap (env afterAB))
    | None =>
        (p : nat) = length (projectorHeap (env afterAB)) ∧
        length (projectorHeap
                  (env (render freshInstances 0 (scene ["C"]) afterAB).2))
          = S (length (projectorHeap (env afterAB)))
    end.
Proof.
  assert (reachable afterAB) as Hw.
  { apply (reachable_render freshInstances 0 (scene ["A"; "B"]) newWorld).
    apply reachable_new. }
  split; [exact Hw|]. split; [by vm_compute|].
  apply (render_reuses_projector freshInstances 0 ["C"] afterAB
           (Fulfilled {| stateOf := 0 |})).
  - exact Hw.
  - by vm_compute.
Defined.
